(** * ccenv: the state-swap engine

    A shallow embedding of [src/ccenv.ts] and [src/storage.ts]: the snapshot
    codec ([dumpEnv], [restoreEnv]), the workspace reset ([cleanWorkspace]),
    the environment store ([createEnv], [listEnvs], [deleteEnv]), the lock
    and the occupancy record ([acquireLock], [releaseLock], [readState],
    [writeState]), the swap orchestrator ([enterEnv], [exitEnv], [applyEnv])
    and the session wrapper (the [run] case of [main]).

    The programs are written once, as trees of atomic operations on the
    repository and on the control directory [.ccenv].  They are interpreted
    in two ways: one invocation running alone ([run]), and several
    invocations interleaved operation by operation on a shared world
    ([Interleaving.steps]). *)

From Stdlib Require Import ZArith Ascii String List Lia.
From stdpp Require Import gmap strings list fin_maps.

Open Scope string_scope.
Open Scope list_scope.

(** ** Paths and the control directory *)

Definition CCENV_DIR : string := ".ccenv".
Definition DEFAULT_HOST_ENV : string := "default".

(** The components of a path, split at every [/]. *)
Fixpoint components (s : string) : list string :=
  match s with
  | EmptyString => [EmptyString]
  | String c rest =>
      if Ascii.eqb c "/"%char then EmptyString :: components rest
      else match components rest with
           | h :: t => String c h :: t
           | [] => [String c EmptyString]
           end
  end.

(** [dumpEnv] drops the entries of the control directory from the list of
    untracked files:
    [entry !== ".ccenv" && !entry.startsWith(".ccenv/")]. *)
Definition outsideControl (entry : string) : bool :=
  negb (String.eqb entry ".ccenv") && negb (String.prefix ".ccenv/" entry).

(** [git clean -e .ccenv/ -e .ccenv]: an exclude pattern without a leading
    or inner slash matches a file or directory of that name at any depth,
    and a matched directory protects everything below it. *)
Definition cleanExcluded (p : string) : bool :=
  bool_decide (CCENV_DIR ∈ components p).

(** ** The version-control collaborator

    Git is modelled at the level the engine uses it: trees are finite maps
    from paths to file contents, a patch records for every path that
    differs the content before and after, and the archive of untracked
    files is a finite map as well.  File modes, symbolic links and empty
    directories are outside the model.  The model is the behaviour of git
    and tar on an ordinary repository; what makes a repository ordinary is
    spelled out as [ordinary] below, and the theorems about resets,
    snapshots and restores carry it as a premise. *)

Abbreviation Tree := (gmap string string).
Abbreviation Patch := (gmap string (option string * option string)).
Abbreviation Archive := (gmap string string).

(** Where HEAD points: attached to branch [b] whose tip is commit [c], or
    detached at commit [c]. *)
Inductive Head :=
| OnBranch (b : string) (c : string)
| Detached (c : string).

#[global] Instance Head_eq_dec : EqDecision Head.
Proof. solve_decision. Defined.

(** What [git checkout] is asked for: the engine passes either a recorded
    branch name or a recorded commit id. *)
Inductive Rev :=
| Branch (b : string)
| CommitId (c : string).

Record Git := mkGit {
  commits : gmap string Tree;      (* commit id -> its tree *)
  branches : gmap string string;   (* the other local branches -> their tips *)
  head : Head;
  index : Tree;                    (* the staging area *)
  work : Tree;                     (* the files on disk, outside [.git] *)
  ignored : string -> bool         (* the standard ignore rules *)
}.

Definition withFiles (g : Git) (i w : Tree) : Git :=
  mkGit (commits g) (branches g) (head g) i w (ignored g).

(** [git rev-parse HEAD] *)
Definition revParseHead (g : Git) : string :=
  match head g with OnBranch _ c => c | Detached c => c end.

(** [git rev-parse --abbrev-ref HEAD]: the branch name, or the sentinel
    [HEAD] when detached. *)
Definition abbrevRef (g : Git) : string :=
  match head g with OnBranch b _ => b | Detached _ => "HEAD" end.

Definition treeOf (g : Git) (c : string) : Tree :=
  default ∅ (commits g !! c).

Definition headTree (g : Git) : Tree := treeOf g (revParseHead g).

(** The patch that turns tree [a] into tree [b]. *)
Definition diffTrees (a b : Tree) : Patch :=
  merge (fun x y => if decide (x = y) then None else Some (x, y)) a b.

(** [git diff --cached --binary]: index against HEAD. *)
Definition diffCached (g : Git) : Patch := diffTrees (headTree g) (index g).

(** [git diff --binary]: working tree against index, for the paths the
    index knows. *)
Definition diffWork (g : Git) : Patch :=
  merge (fun i w => match i with
                    | None => None
                    | Some _ => if decide (i = w) then None else Some (i, w)
                    end) (index g) (work g).

(** The files on disk that are neither in the index nor ignored. *)
Definition untrackedPaths (g : Git) : list string :=
  elements (dom (filter (fun kv => index g !! kv.1 = None ∧ ignored g kv.1 = false)
                        (work g))).

(** How git prints a path: as it is, unless it holds a control character,
    a double quote, a backslash or a byte above 126; such a path is printed
    between double quotes with those characters escaped
    ([core.quotePath] is on unless configured otherwise). *)
Definition quotedByGit (c : ascii) : bool :=
  let n := nat_of_ascii c in
  ((n <? 32) || (n =? 34) || (n =? 92) || (127 <=? n))%nat.

Definition octalDigit (n : nat) : ascii := ascii_of_nat (48 + n mod 8).

Definition escapeChar (c : ascii) : string :=
  let n := nat_of_ascii c in
  let esc (d : ascii) := String "\" (String d EmptyString) in
  if (n =? 7)%nat then esc "a"%char
  else if (n =? 8)%nat then esc "b"%char
  else if (n =? 9)%nat then esc "t"%char
  else if (n =? 10)%nat then esc "n"%char
  else if (n =? 11)%nat then esc "v"%char
  else if (n =? 12)%nat then esc "f"%char
  else if (n =? 13)%nat then esc "r"%char
  else if (n =? 34)%nat then esc "034"%char
  else if (n =? 92)%nat then esc "\"%char
  else if quotedByGit c then
    String "\" (String (octalDigit (n / 64))
                   (String (octalDigit (n / 8)) (String (octalDigit n) EmptyString)))
  else String c EmptyString.

Fixpoint escapeChars (s : string) : string :=
  match s with
  | EmptyString => EmptyString
  | String c rest => escapeChar c +:+ escapeChars rest
  end.

Definition cQuote (path : string) : string :=
  if existsb quotedByGit (list_ascii_of_string path)
  then String "034" (escapeChars path +:+ String "034" EmptyString)
  else path.

(** [git ls-files --others --exclude-standard]: the untracked files, one
    per line, each as git prints it. *)
Definition lsOthers (g : Git) : list string :=
  map cQuote (untrackedPaths g).

(** A patch applies to a tree when every path has the recorded content
    before; it then gets the recorded content after.  Contents are whole
    files: a file that differs from the recorded one only away from the
    hunks, which [git apply] accepts, is not told apart from one that
    differs at a hunk. *)
Definition patchFits (p : Patch) (t : Tree) : Prop :=
  map_Forall (fun path (e : option string * option string) => t !! path = e.1) p.

Definition patched (p : Patch) (t : Tree) : Tree :=
  merge (fun e x => match e with
                    | Some (_, new) => new
                    | None => x
                    end) p t.

Definition applyPatch (p : Patch) (t : Tree) : option Tree :=
  if decide (patchFits p t) then Some (patched p t) else None.

(** [git apply --cached]: on the index only. *)
Definition applyCached (p : Patch) (g : Git) : option Git :=
  match applyPatch p (index g) with
  | Some i => Some (withFiles g i (work g))
  | None => None
  end.

(** [git apply]: on the working tree only. *)
Definition applyWork (p : Patch) (g : Git) : option Git :=
  match applyPatch p (work g) with
  | Some w => Some (withFiles g (index g) w)
  | None => None
  end.

(** [git reset --hard HEAD]: the index becomes HEAD; every tracked path
    gets its HEAD content on disk, or is removed when HEAD lacks it. *)
Definition resetHard (g : Git) : Git :=
  withFiles g (headTree g)
    (headTree g ∪ filter (fun kv => index g !! kv.1 = None) (work g)).

(** [git clean -fd -e .ccenv/ -e .ccenv]: removes the untracked files that
    are neither ignored nor excluded. *)
Definition gitClean (g : Git) : Git :=
  withFiles g (index g)
    (filter (fun kv => is_Some (index g !! kv.1) ∨ ignored g kv.1 = true
                       ∨ cleanExcluded kv.1 = true) (work g)).

Definition branchTip (g : Git) (b : string) : option string :=
  match head g with
  | OnBranch b' c => if decide (b = b') then Some c else branches g !! b
  | Detached _ => branches g !! b
  end.

Definition resolveRev (g : Git) (r : Rev) : option Head :=
  match r with
  | Branch b => match branchTip g b with
                | Some c => Some (OnBranch b c)
                | None => None
                end
  | CommitId c => match commits g !! c with
                  | Some _ => Some (Detached c)
                  | None => None
                  end
  end.

Definition headCommit (h : Head) : string :=
  match h with OnBranch _ c => c | Detached c => c end.

(** [git checkout <rev>]: fails when the revision does not resolve, or when
    a path that differs between the two commits carries local changes;
    otherwise exactly the differing paths are rewritten and HEAD moves.
    Revisions are local branches and commit ids; tags, and files that bear
    the name of a branch, are outside the model. *)
Definition checkout (r : Rev) (g : Git) : option Git :=
  match resolveRev g r with
  | None => None
  | Some h' =>
      if decide (h' = head g) then Some g
      else
        let sw := diffTrees (headTree g) (treeOf g (headCommit h')) in
        if decide (patchFits sw (index g) ∧ patchFits sw (work g)) then
          Some (mkGit (commits g)
                      (match head g with
                       | OnBranch b c => <[b := c]> (branches g)
                       | Detached _ => branches g
                       end)
                      h' (patched sw (index g)) (patched sw (work g)) (ignored g))
        else None
  end.

(** [tar -czf <archive> -T <list>]: the archive holds the listed files that
    exist on disk; a listed file that is missing makes tar fail. *)
Definition tarCreate (paths : list string) (g : Git) : Archive * bool :=
  (filter (fun kv => kv.1 ∈ paths) (work g),
   forallb (fun p => bool_decide (is_Some (work g !! p))) paths).

(** [tar -xzf <archive>]: every archived file is written to disk. *)
Definition tarExtract (a : Archive) (g : Git) : Git :=
  withFiles g (index g) (a ∪ work g).

(** ** The control directory

    [.ccenv/config.json], [.ccenv/lock], [.ccenv/state], the diagnostic log
    and one directory per environment under [.ccenv/envs].  A JSON file is
    either text that [JSON.parse] rejects or the text of a value of the
    type the code casts it to. *)

Inductive FileText (A : Type) :=
| Unparsable (raw : string)
| Parsed (v : A).
Arguments Unparsable {A} raw.
Arguments Parsed {A} v.

(** [StateFile] of storage.ts: the occupancy record. *)
Record StateFile := mkState {
  activeEnv : string;
  hostEnv : string;
  timestamp : Z
}.

(** [EnvInfo] of ccenv.ts: the metadata of a bundle. *)
Record EnvInfo := mkInfo {
  headHash : string;
  branch : string;
  infoTimestamp : Z
}.

(** The payload [acquireLock] writes into the marker file. *)
Record LockPayload := mkLock {
  pid : Z;
  hostname : string;
  lockTimestamp : Z
}.

(** The files of one environment directory. *)
Inductive SlotFile :=
| InfoJson          (* info.json *)
| StagedPatch       (* staged.patch *)
| UnstagedPatch     (* unstaged.patch *)
| UntrackedTar      (* untracked.tar.gz *)
| UntrackedList.    (* untracked.list, a temporary of dumpEnv *)

Record Slot := mkSlot {
  info : option (FileText EnvInfo);
  staged : option Patch;
  unstaged : option Patch;
  untracked : option Archive;
  untrackedList : option (list string)
}.

Definition emptySlot : Slot := mkSlot None None None None None.

(** The paths of the control directory the engine touches. *)
Inductive CtlPath :=
| CONFIG_FILE
| LOCK_FILE
| STATE_FILE
| EnvDir (name : string)                  (* path.join(ENVS_DIR, name) *)
| EnvFile (name : string) (f : SlotFile). (* path.join(envDir, file) *)

(** What a timed-out [acquireLock] reports about the holder: the text of
    the marker file, or [unknown] when it cannot be read. *)
Inductive LockDetails :=
| HeldBy (content : option LockPayload)
| HolderUnknown.

Inductive Error :=
| EnvNameRequired                      (* Environment name is required. ... *)
| EnvironmentNotFound (name : string)  (* Environment not found: name *)
| EnterTimeout                         (* Timeout waiting for environment to be free *)
| CannotExit (active : string) (current : option string)
| HostSnapshotNotFound (host : string) (* Host snapshot not found: host *)
| EnvironmentExists (name : string)    (* Environment already exists: name *)
| CannotDeleteActive (name : string)   (* Cannot delete active environment: name *)
| MissingCommand                       (* Missing command to run. *)
| LockTimeout (timeoutMs : Z) (details : LockDetails)
| ShellError (command : string)        (* a git or tar command exited non-zero *)
| SyntaxError (path : CtlPath)         (* JSON text that does not parse *)
| ENOENT (path : CtlPath).             (* a file operation on a missing file *)

(** A line of [.ccenv/internal.log], without its time and pid prefix. *)
Inductive LogEntry :=
| LogText (msg : string)
| LogError (msg : string) (e : Error).

(** What a spawned child leaves behind: the repository as it stands when
    the child terminates, and its exit status.  The child is taken to leave
    the control directory alone, and to run to its end without a signal
    reaching the wrapper. *)
Record ChildRun := mkChild {
  childLeaves : Git;
  childStatus : Z
}.

(** The world of an invocation: the repository, the clock and the control
    directory.  The control directory is kept apart from the working tree:
    [git] holds the files outside [.ccenv], and the files of [.ccenv] are
    the fields that follow.  The directory [.ccenv] itself is there: every
    command but [exitEnv] creates it before anything else, and an exit
    follows an enter.  An environment directory is keyed by the name of the
    environment, which is what [path.join(ENVS_DIR, name)] comes to for the
    names described as [plainName] below. *)
Record World := mkWorld {
  git : Git;
  now : Z;                                  (* the clock, in milliseconds *)
  config : option string;
  lockFile : option (option LockPayload);   (* created, and its payload once written *)
  stateFile : option (FileText StateFile);
  slots : gmap string Slot;
  internalLog : list LogEntry;
  stdout : list string;
  children : list ChildRun                  (* the behaviour of the children to come *)
}.

Definition setGit (w : World) (g : Git) : World :=
  mkWorld g (now w) (config w) (lockFile w) (stateFile w) (slots w)
          (internalLog w) (stdout w) (children w).
Definition setNow (w : World) (t : Z) : World :=
  mkWorld (git w) t (config w) (lockFile w) (stateFile w) (slots w)
          (internalLog w) (stdout w) (children w).
Definition setConfig (w : World) (c : option string) : World :=
  mkWorld (git w) (now w) c (lockFile w) (stateFile w) (slots w)
          (internalLog w) (stdout w) (children w).
Definition setLock (w : World) (l : option (option LockPayload)) : World :=
  mkWorld (git w) (now w) (config w) l (stateFile w) (slots w)
          (internalLog w) (stdout w) (children w).
Definition setState (w : World) (s : option (FileText StateFile)) : World :=
  mkWorld (git w) (now w) (config w) (lockFile w) s (slots w)
          (internalLog w) (stdout w) (children w).
Definition setSlots (w : World) (s : gmap string Slot) : World :=
  mkWorld (git w) (now w) (config w) (lockFile w) (stateFile w) s
          (internalLog w) (stdout w) (children w).
Definition setLog (w : World) (l : list LogEntry) : World :=
  mkWorld (git w) (now w) (config w) (lockFile w) (stateFile w) (slots w)
          l (stdout w) (children w).
Definition setStdout (w : World) (l : list string) : World :=
  mkWorld (git w) (now w) (config w) (lockFile w) (stateFile w) (slots w)
          (internalLog w) l (children w).
Definition setChildren (w : World) (l : list ChildRun) : World :=
  mkWorld (git w) (now w) (config w) (lockFile w) (stateFile w) (slots w)
          (internalLog w) (stdout w) l.

Definition slotOf (w : World) (name : string) : Slot :=
  default emptySlot (slots w !! name).

(** Writing a file of an environment directory. *)
Definition updSlot (w : World) (name : string) (f : Slot -> Slot) : World :=
  setSlots w (<[name := f (slotOf w name)]> (slots w)).

Definition setInfo (v : option (FileText EnvInfo)) (s : Slot) : Slot :=
  mkSlot v (staged s) (unstaged s) (untracked s) (untrackedList s).
Definition setStaged (v : option Patch) (s : Slot) : Slot :=
  mkSlot (info s) v (unstaged s) (untracked s) (untrackedList s).
Definition setUnstaged (v : option Patch) (s : Slot) : Slot :=
  mkSlot (info s) (staged s) v (untracked s) (untrackedList s).
Definition setUntracked (v : option Archive) (s : Slot) : Slot :=
  mkSlot (info s) (staged s) (unstaged s) v (untrackedList s).
Definition setUntrackedList (v : option (list string)) (s : Slot) : Slot :=
  mkSlot (info s) (staged s) (unstaged s) (untracked s) v.

Definition slotHas (s : Slot) (f : SlotFile) : bool :=
  match f with
  | InfoJson => bool_decide (is_Some (info s))
  | StagedPatch => bool_decide (is_Some (staged s))
  | UnstagedPatch => bool_decide (is_Some (unstaged s))
  | UntrackedTar => bool_decide (is_Some (untracked s))
  | UntrackedList => bool_decide (is_Some (untrackedList s))
  end.

Definition slotRemove (f : SlotFile) (s : Slot) : Slot :=
  match f with
  | InfoJson => setInfo None s
  | StagedPatch => setStaged None s
  | UnstagedPatch => setUnstaged None s
  | UntrackedTar => setUntracked None s
  | UntrackedList => setUntrackedList None s
  end.

(** [fs.access]: does the path exist. *)
Definition exists_ (w : World) (p : CtlPath) : bool :=
  match p with
  | CONFIG_FILE => bool_decide (is_Some (config w))
  | LOCK_FILE => bool_decide (is_Some (lockFile w))
  | STATE_FILE => bool_decide (is_Some (stateFile w))
  | EnvDir name => bool_decide (is_Some (slots w !! name))
  | EnvFile name f =>
      match slots w !! name with
      | Some s => slotHas s f
      | None => false
      end
  end.

(** [fs.rm] of a file that exists. *)
Definition remove (w : World) (p : CtlPath) : World :=
  match p with
  | CONFIG_FILE => setConfig w None
  | LOCK_FILE => setLock w None
  | STATE_FILE => setState w None
  | EnvDir name => setSlots w (delete name (slots w))
  | EnvFile name f => setSlots w (alter (slotRemove f) name (slots w))
  end.

(** The patch files of an environment: a patch file is empty exactly when
    the patch has no entry. *)
Definition patchFile (s : Slot) (f : SlotFile) : option Patch :=
  match f with
  | StagedPatch => staged s
  | UnstagedPatch => unstaged s
  | _ => None
  end.

Definition notEmpty (w : World) (name : string) (f : SlotFile) : bool :=
  match slots w !! name with
  | Some s => match patchFile s f with
              | Some p => negb (bool_decide (p = ∅))
              | None => false
              end
  | None => false
  end.

(** ** Atomic operations

    One constructor per system call or external command the engine issues.
    Every [await] of the source is one operation, so that other processes
    can only act between two operations. *)

Inductive Op :=
| DateNow                                     (* Date.now() *)
| Sleep (ms : Z)                              (* setTimeout(resolve, ms) *)
| AppendLog (e : LogEntry)                    (* fs.appendFile(INTERNAL_LOG_FILE, ..) *)
| ConsoleLog (line : string)                  (* console.log(line) *)
| ConsoleError (e : Error)                    (* console.error(`ccenv: ${error.message}`) *)
| MkdirEnvs                                   (* fs.mkdir(ENVS_DIR, {recursive}) *)
| Mkdir (name : string)                       (* fs.mkdir(envDir, {recursive}) *)
| Access (p : CtlPath)                        (* fs.access(path) *)
| StatNotEmpty (name : string) (f : SlotFile) (* fs.stat(path).size > 0 *)
| Rm (p : CtlPath)                            (* fs.rm(path) *)
| RmRecursiveForce (name : string)            (* fs.rm(envDir, {recursive, force}) *)
| Readdir                                     (* fs.readdir(ENVS_DIR) *)
| WriteConfig (text : string)                 (* Bun.write(CONFIG_FILE, ..) *)
| OpenWx                                      (* fs.open(lockFile, "wx") *)
| WriteLock (p : LockPayload)                 (* handle.writeFile(..); handle.close() *)
| ReadLock                                    (* Bun.file(lockFile).text() *)
| ReadState                                   (* Bun.file(stateFile).text() *)
| WriteState (s : StateFile)                  (* Bun.write(stateFile, JSON.stringify(state)) *)
| ReadInfo (name : string)                    (* Bun.file(infoPath).json() *)
| WriteInfoJson (name : string) (i : EnvInfo) (* Bun.write(info.json, JSON.stringify(info)) *)
| WriteEmptyPatch (name : string) (f : SlotFile)    (* Bun.write(patch, "") *)
| WriteList (name : string) (l : list string) (* Bun.write(listPath, ..) *)
| GitRevParseHead                             (* git rev-parse HEAD *)
| GitAbbrevRef                                (* git rev-parse --abbrev-ref HEAD *)
| GitLsOthers                                 (* git ls-files --others --exclude-standard *)
| TarCreate (name : string)                   (* tar -czf tarPath -T listPath *)
| TarExtract (name : string)                  (* tar -xzf tarPath *)
| GitDiffCached (name : string)               (* git diff --cached --binary --output=staged.patch *)
| GitDiff (name : string)                     (* git diff --binary --output=unstaged.patch *)
| GitResetHard                                (* git reset --hard HEAD *)
| GitClean                                    (* git clean -fd -e .ccenv/ -e .ccenv *)
| GitCheckout (r : Rev)                       (* git checkout <rev> *)
| GitApplyCached (name : string) (f : SlotFile)     (* git apply --cached <patch> *)
| GitApply (name : string) (f : SlotFile)     (* git apply <patch> *)
| Spawn (envName : string) (command : list string). (* Bun.spawn(..); child.exited *)

(** What an operation hands back.  For an operation that can fail, [false]
    or [None] stands for the rejected promise. *)
Definition Result (o : Op) : Type :=
  match o with
  | DateNow => Z
  | Access _ | StatNotEmpty _ _ | Rm _ | OpenWx => bool
  | TarCreate _ | TarExtract _ | GitCheckout _
  | GitApplyCached _ _ | GitApply _ _ => bool
  | Readdir | GitLsOthers => list string
  | ReadLock => option (option LockPayload)
  | ReadState => option (FileText StateFile)
  | ReadInfo _ => option (FileText EnvInfo)
  | GitRevParseHead | GitAbbrevRef => string
  | Spawn _ _ => Z
  | _ => unit
  end.

Definition applyFrom (w : World) (name : string) (f : SlotFile)
    (ap : Patch -> Git -> option Git) : World * bool :=
  match patchFile (slotOf w name) f with
  | Some p => match ap p (git w) with
              | Some g => (setGit w g, true)
              | None => (w, false)
              end
  | None => (w, false)
  end.

(** The effect of one operation on the world. *)
Definition perform (o : Op) (w : World) : World * Result o :=
  match o as o' return World * Result o' with
  | DateNow => (w, now w)
  | Sleep ms => (setNow w (now w + ms)%Z, tt)
  | AppendLog e => (setLog w (internalLog w ++ [e]), tt)
  | ConsoleLog line => (setStdout w (stdout w ++ [line]), tt)
  | ConsoleError _ => (w, tt)
  | MkdirEnvs => (w, tt)
  | Mkdir name => (setSlots w (<[name := slotOf w name]> (slots w)), tt)
  | Access p => (w, exists_ w p)
  | StatNotEmpty name f => (w, notEmpty w name f)
  | Rm p => if exists_ w p then (remove w p, true) else (w, false)
  | RmRecursiveForce name => (setSlots w (delete name (slots w)), tt)
  | Readdir => (w, elements (dom (slots w)))
  | WriteConfig text => (setConfig w (Some text), tt)
  | OpenWx =>
      match lockFile w with
      | Some _ => (w, false)                   (* EEXIST *)
      | None => (setLock w (Some None), true)
      end
  | WriteLock p => (setLock w (Some (Some p)), tt)
  | ReadLock => (w, lockFile w)
  | ReadState => (w, stateFile w)
  | WriteState s => (setState w (Some (Parsed s)), tt)
  | ReadInfo name => (w, info (slotOf w name))
  | WriteInfoJson name i => (updSlot w name (setInfo (Some (Parsed i))), tt)
  | WriteEmptyPatch name f =>
      (updSlot w name (match f with
                       | StagedPatch => setStaged (Some ∅)
                       | UnstagedPatch => setUnstaged (Some ∅)
                       | _ => fun s => s
                       end), tt)
  | WriteList name l => (updSlot w name (setUntrackedList (Some l)), tt)
  | GitRevParseHead => (w, revParseHead (git w))
  | GitAbbrevRef => (w, abbrevRef (git w))
  | GitLsOthers => (w, lsOthers (git w))
  | TarCreate name =>
      match untrackedList (slotOf w name) with
      | Some l => let r := tarCreate l (git w) in
                  (updSlot w name (setUntracked (Some r.1)), r.2)
      | None => (w, false)
      end
  | TarExtract name =>
      match untracked (slotOf w name) with
      | Some a => (setGit w (tarExtract a (git w)), true)
      | None => (w, false)
      end
  | GitDiffCached name => (updSlot w name (setStaged (Some (diffCached (git w)))), tt)
  | GitDiff name => (updSlot w name (setUnstaged (Some (diffWork (git w)))), tt)
  | GitResetHard => (setGit w (resetHard (git w)), tt)
  | GitClean => (setGit w (gitClean (git w)), tt)
  | GitCheckout r =>
      match checkout r (git w) with
      | Some g => (setGit w g, true)
      | None => (w, false)
      end
  | GitApplyCached name f => applyFrom w name f applyCached
  | GitApply name f => applyFrom w name f applyWork
  | Spawn _ _ =>
      match children w with
      | c :: rest => (setChildren (setGit w (childLeaves c)) rest, childStatus c)
      | [] => (w, 0%Z)
      end
  end.

(** ** Programs

    A program is a tree of operations.  [Spin] marks a loop that was cut
    off by its fuel: the source loops are bounded by deadlines only. *)

Inductive Prog (A : Type) : Type :=
| Ret (a : A)
| Throw (e : Error)
| Spin
| Act (o : Op) (k : Result o -> Prog A).
Arguments Ret {A} a.
Arguments Throw {A} e.
Arguments Spin {A}.
Arguments Act {A} o k.

Fixpoint bind {A B : Type} (p : Prog A) (k : A -> Prog B) : Prog B :=
  match p with
  | Ret a => k a
  | Throw e => Throw e
  | Spin => Spin
  | Act o c => Act o (fun r => bind (c r) k)
  end.

#[global] Instance Prog_ret : MRet Prog := @Ret.
#[global] Instance Prog_bind : MBind Prog := fun A B k p => bind p k.

Definition act (o : Op) : Prog (Result o) := Act o Ret.

(** [try { p } catch (e) { h e }] *)
Fixpoint tryCatch {A : Type} (p : Prog A) (h : Error -> Prog A) : Prog A :=
  match p with
  | Ret a => Ret a
  | Throw e => h e
  | Spin => Spin
  | Act o c => Act o (fun r => tryCatch (c r) h)
  end.

(** [try { p } finally { f }]: [f] runs however [p] completes, and a throw
    of [f] replaces the completion of [p]. *)
Fixpoint tryFinally {A : Type} (p : Prog A) (f : Prog unit) : Prog A :=
  match p with
  | Ret a => bind f (fun _ => Ret a)
  | Throw e => bind f (fun _ => Throw e)
  | Spin => Spin
  | Act o c => Act o (fun r => tryFinally (c r) f)
  end.

(** One invocation running alone. *)
Inductive Outcome (A : Type) :=
| Returned (a : A)
| Thrown (e : Error)
| Diverged.
Arguments Returned {A} a.
Arguments Thrown {A} e.
Arguments Diverged {A}.

Record Run (A : Type) := mkRun {
  trace : list Op;        (* the operations performed, in order *)
  final : World;
  outcome : Outcome A
}.
Arguments mkRun {A} trace final outcome.
Arguments trace {A} r.
Arguments final {A} r.
Arguments outcome {A} r.

Fixpoint run {A : Type} (p : Prog A) (w : World) : Run A :=
  match p with
  | Ret a => mkRun [] w (Returned a)
  | Throw e => mkRun [] w (Thrown e)
  | Spin => mkRun [] w Diverged
  | Act o k =>
      let r := run (k (perform o w).2) (perform o w).1 in
      mkRun (o :: trace r) (final r) (outcome r)
  end.

(** ** storage.ts *)

(** What an invocation knows about itself: its process id, the host name
    and the ambient identity [process.env.CCENV_ACTIVE]. *)
Record Ctx := mkCtx {
  procPid : Z;
  procHost : string;
  CCENV_ACTIVE : option string
}.

(** [readState]: any failure to read or to parse is turned into [null]. *)
Definition readState : Prog (option StateFile) :=
  text ← act ReadState;
  match text with
  | Some (Parsed s) => Ret (Some s)
  | Some (Unparsable _) => Ret None
  | None => Ret None
  end.

Definition writeState (s : StateFile) : Prog unit := act (WriteState s).

Definition sleep (ms : Z) : Prog unit := act (Sleep ms).

(** The default of the parameter [timeoutMs] of [acquireLock]. *)
Definition LOCK_TIMEOUT_MS : Z := 30000.

(** The body of [while (true)] in [acquireLock]; a round that finds the
    marker sleeps 100 ms and tries again. *)
Fixpoint acquireLock_loop (fuel : nat) (ctx : Ctx) (timeoutMs start : Z) : Prog unit :=
  match fuel with
  | O => Spin
  | S fuel' =>
      opened ← act OpenWx;
      if opened : bool then
        t ← act DateNow;
        act (WriteLock (mkLock (procPid ctx) (procHost ctx) t))
      else
        t ← act DateNow;
        if (t - start >? timeoutMs)%Z then
          text ← act ReadLock;
          Throw (LockTimeout timeoutMs
                   (match text with
                    | Some content => HeldBy content
                    | None => HolderUnknown
                    end))
        else
          sleep 100;;
          acquireLock_loop fuel' ctx timeoutMs start
  end.

Definition acquireLock (fuel : nat) (ctx : Ctx) (timeoutMs : Z) : Prog unit :=
  start ← act DateNow;
  acquireLock_loop fuel ctx timeoutMs start.

(** [releaseLock]: a failing [fs.rm] is swallowed. *)
Definition releaseLock : Prog unit :=
  act (Rm LOCK_FILE);; Ret tt.

(** ** ccenv.ts *)

Definition nl : string := String (ascii_of_nat 10) EmptyString.

Definition logInternal (msg : string) : Prog unit := act (AppendLog (LogText msg)).

Definition logInternalError (msg : string) (e : Error) : Prog unit :=
  act (AppendLog (LogError msg e)).

Definition fileExists (p : CtlPath) : Prog bool := act (Access p).

Definition fileNotEmpty (name : string) (f : SlotFile) : Prog bool :=
  act (StatNotEmpty name f).

(** [fs.rm(path)] without [force]: rejects when the file is missing. *)
Definition rm (p : CtlPath) : Prog unit :=
  ok ← act (Rm p);
  if ok : bool then Ret tt else Throw (ENOENT p).

(** A shell command whose non-zero exit makes [$] throw. *)
Definition shell (command : string) (ok : bool) : Prog unit :=
  if ok then Ret tt else Throw (ShellError command).

Definition ensureCcenvDirs : Prog unit :=
  act MkdirEnvs;;
  ok ← act (Access CONFIG_FILE);
  if ok : bool then Ret tt else act (WriteConfig ("{}" +:+ nl)).

Definition writeInfo (targetDir : string) : Prog unit :=
  headHash ← act GitRevParseHead;
  branch ← act GitAbbrevRef;
  t ← act DateNow;
  act (WriteInfoJson targetDir (mkInfo headHash branch t)).

(** The two filters [dumpEnv] applies to the lines of [git ls-files]:
    [.filter(Boolean)] and the control-directory filter. *)
Definition untrackedFiltered (lines : list string) : list string :=
  List.filter outsideControl
    (List.filter (fun entry => negb (String.eqb entry "")) lines).

Definition dumpEnv (targetDir : string) : Prog unit :=
  act (Mkdir targetDir);;
  lines ← act GitLsOthers;
  let filtered := untrackedFiltered lines in
  (if (0 <? length filtered)%nat then
     act (WriteList targetDir filtered);;
     ok ← act (TarCreate targetDir);
     shell "tar -czf" ok;;
     rm (EnvFile targetDir UntrackedList)
   else
     stale ← fileExists (EnvFile targetDir UntrackedTar);
     if stale : bool then rm (EnvFile targetDir UntrackedTar) else Ret tt);;
  act (GitDiffCached targetDir);;
  act (GitDiff targetDir);;
  writeInfo targetDir.

Definition cleanWorkspace : Prog unit :=
  act GitResetHard;;
  act GitClean.

Definition gitCheckout (r : Rev) : Prog unit :=
  ok ← act (GitCheckout r);
  shell "git checkout" ok.

(** JavaScript truthiness of a string. *)
Definition truthy (s : string) : bool := negb (String.eqb s "").

(** The first block of [restoreEnv]: put HEAD back where the bundle was
    taken.  Whatever fails inside is logged and swallowed. *)
Definition restorePosition (sourceDir : string) : Prog unit :=
  tryCatch
    (r ← act (ReadInfo sourceDir);
     match r with
     | Some (Parsed i) =>
         if truthy (branch i) && negb (String.eqb (branch i) "HEAD") then
           tryCatch (gitCheckout (Branch (branch i)))
             (fun _ => if truthy (headHash i)
                       then gitCheckout (CommitId (headHash i))
                       else Ret tt)
         else if truthy (headHash i) then gitCheckout (CommitId (headHash i))
         else Ret tt
     | Some (Unparsable _) => Throw (SyntaxError (EnvFile sourceDir InfoJson))
     | None => Throw (ENOENT (EnvFile sourceDir InfoJson))
     end)
    (fun e => logInternalError "restoreEnv warning: failed to restore git state" e).

(** The rest of [restoreEnv], the file-level restoration: the untracked
    archive, the staged patch on index and tree, the unstaged patch. *)
Definition restoreFiles (sourceDir : string) : Prog unit :=
  hasTar ← fileExists (EnvFile sourceDir UntrackedTar);
  (if hasTar : bool then
     ok ← act (TarExtract sourceDir);
     shell "tar -xzf" ok
   else Ret tt);;
  hasStaged ← fileNotEmpty sourceDir StagedPatch;
  (if hasStaged : bool then
     ok ← act (GitApplyCached sourceDir StagedPatch);
     shell "git apply --cached" ok;;
     ok' ← act (GitApply sourceDir StagedPatch);
     shell "git apply" ok'
   else Ret tt);;
  hasUnstaged ← fileNotEmpty sourceDir UnstagedPatch;
  (if hasUnstaged : bool then
     ok ← act (GitApply sourceDir UnstagedPatch);
     shell "git apply" ok
   else Ret tt).

Definition restoreEnv (sourceDir : string) (clean : bool) : Prog unit :=
  (if clean then cleanWorkspace else Ret tt);;
  hasInfo ← fileExists (EnvFile sourceDir InfoJson);
  (if hasInfo : bool then restorePosition sourceDir else Ret tt);;
  restoreFiles sourceDir.

Definition resolveEnvName (ctx : Ctx) (explicit : option string) : Prog string :=
  match explicit with
  | Some name => if truthy name then Ret name else
      match CCENV_ACTIVE ctx with
      | Some name' => if truthy name' then Ret name' else Throw EnvNameRequired
      | None => Throw EnvNameRequired
      end
  | None =>
      match CCENV_ACTIVE ctx with
      | Some name' => if truthy name' then Ret name' else Throw EnvNameRequired
      | None => Throw EnvNameRequired
      end
  end.

Definition ensureEnvDir (name : string) : Prog string :=
  act (Mkdir name);; Ret name.

(** How one round of the [while (true)] of [enterEnv] ends: with
    [continue], or with [return]. *)
Inductive Round (A : Type) :=
| Continue
| Return (a : A).
Arguments Continue {A}.
Arguments Return {A} a.

(** [const timeoutMs = 300000] of [enterEnv]. *)
Definition ENTER_TIMEOUT_MS : Z := 300000.

(** The [try] block of [enterEnv]. *)
Definition enterAttempt (name : string) : Prog (Round bool) :=
  state ← readState;
  match state with
  | Some st =>
      if String.eqb (activeEnv st) name then
        logInternal ("enterEnv(" +:+ name +:+ ") already active, skipping");;
        Ret (Return false)
      else
        releaseLock;;
        logInternal ("enterEnv(" +:+ name +:+ ") busy (active: " +:+ activeEnv st
                     +:+ "), waiting...");;
        sleep 1000;;
        Ret Continue
  | None =>
      hostDir ← ensureEnvDir DEFAULT_HOST_ENV;
      logInternal ("enterEnv(" +:+ name +:+ ") dumping host");;
      dumpEnv hostDir;;
      logInternal ("enterEnv(" +:+ name +:+ ") cleaning workspace");;
      cleanWorkspace;;
      logInternal ("enterEnv(" +:+ name +:+ ") restoring env");;
      restoreEnv name false;;
      t ← act DateNow;
      writeState (mkState name DEFAULT_HOST_ENV t);;
      logInternal ("enterEnv(" +:+ name +:+ ") swapped and state written");;
      Ret (Return true)
  end.

(** One round: [try { .. } catch (error) { log; throw error } finally
    { releaseLock }].  The [finally] block also runs when the [try] block
    leaves with [continue] or [return]. *)
Definition enterRound (name : string) : Prog (Round bool) :=
  tryFinally
    (tryCatch (enterAttempt name)
       (fun error =>
          logInternalError ("enterEnv(" +:+ name +:+ ") error") error;;
          Throw error))
    releaseLock.

Fixpoint enterEnv_loop (fuel lockFuel : nat) (ctx : Ctx) (name : string) (start : Z)
    : Prog bool :=
  match fuel with
  | O => Spin
  | S fuel' =>
      t ← act DateNow;
      if (t - start >? ENTER_TIMEOUT_MS)%Z then Throw EnterTimeout
      else
        acquireLock lockFuel ctx LOCK_TIMEOUT_MS;;
        r ← enterRound name;
        match r with
        | Continue => enterEnv_loop fuel' lockFuel ctx name start
        | Return swapped => Ret swapped
        end
  end.

Definition enterEnv (fuel : nat) (ctx : Ctx) (name : string) : Prog bool :=
  logInternal ("enterEnv(" +:+ name +:+ ") start");;
  ensureCcenvDirs;;
  found ← fileExists (EnvDir name);
  if negb found then Throw (EnvironmentNotFound name)
  else
    start ← act DateNow;
    enterEnv_loop fuel fuel ctx name start.

(** The [try] block of [exitEnv]. *)
Definition exitAttempt (ctx : Ctx) (force : bool) : Prog unit :=
  state ← readState;
  match state with
  | None => logInternal "exitEnv() no state found, already exited?"
  | Some st =>
      (if negb force then
         if bool_decide (CCENV_ACTIVE ctx = Some (activeEnv st)) then Ret tt
         else Throw (CannotExit (activeEnv st) (CCENV_ACTIVE ctx))
       else Ret tt);;
      envDir ← ensureEnvDir (activeEnv st);
      logInternal "exitEnv() dumping env";;
      dumpEnv envDir;;
      logInternal "exitEnv() cleaning workspace";;
      cleanWorkspace;;
      found ← fileExists (EnvDir (hostEnv st));
      if negb found then Throw (HostSnapshotNotFound (hostEnv st))
      else
        logInternal "exitEnv() restoring host";;
        restoreEnv (hostEnv st) false;;
        rm STATE_FILE;;
        logInternal "exitEnv() state removed"
  end.

Definition exitEnv (fuel : nat) (ctx : Ctx) (force : bool) : Prog unit :=
  logInternal "exitEnv() requesting lock";;
  acquireLock fuel ctx LOCK_TIMEOUT_MS;;
  tryFinally
    (tryCatch (exitAttempt ctx force)
       (fun error =>
          logInternalError "exitEnv() error" error;;
          Throw error))
    releaseLock.

Definition applyEnv (name : string) : Prog unit :=
  ensureCcenvDirs;;
  found ← fileExists (EnvDir name);
  if negb found then Throw (EnvironmentNotFound name)
  else restoreEnv name false.

(** [createEnv]: both branches of [if (opts.empty)] are kept as written. *)
Definition createEnv (name : string) (empty : bool) : Prog unit :=
  ensureCcenvDirs;;
  found ← fileExists (EnvDir name);
  if found : bool then Throw (EnvironmentExists name)
  else
    act (Mkdir name);;
    if empty then
      act (WriteEmptyPatch name StagedPatch);;
      act (WriteEmptyPatch name UnstagedPatch);;
      writeInfo name
    else
      act (WriteEmptyPatch name StagedPatch);;
      act (WriteEmptyPatch name UnstagedPatch);;
      writeInfo name.

(** The names [listEnvs] keeps:
    [entry !== DEFAULT_HOST_ENV && !entry.startsWith(".")]. *)
Definition listed (entry : string) : bool :=
  negb (String.eqb entry DEFAULT_HOST_ENV) && negb (String.prefix "." entry).

Fixpoint printEach (lines : list string) : Prog unit :=
  match lines with
  | [] => Ret tt
  | line :: rest => act (ConsoleLog line);; printEach rest
  end.

Definition listLine (activeEnv : option string) (env : string) : string :=
  (if bool_decide (Some env = activeEnv) then "* " else "  ") +:+ env.

Definition listEnvs : Prog unit :=
  ensureCcenvDirs;;
  entries ← act Readdir;
  state ← readState;
  let active := activeEnv <$> state in
  let envs := List.filter listed entries in
  if (length envs =? 0)%nat then act (ConsoleLog "No environments found.")
  else printEach (map (listLine active) envs).

Definition deleteEnv (name : string) : Prog unit :=
  ensureCcenvDirs;;
  found ← fileExists (EnvDir name);
  if negb found then Throw (EnvironmentNotFound name)
  else
    state ← readState;
    if bool_decide (activeEnv <$> state = Some name)
    then Throw (CannotDeleteActive name)
    else
      act (RmRecursiveForce name);;
      act (ConsoleLog ("Deleted environment: " +:+ name)).

Definition runCommand (envName : string) (command : list string) : Prog Z :=
  act (Spawn envName command).

(** [try { p } catch (e) { .. }] that hands the completion of [p] back as a
    value, for the blocks whose [finally] reads a local variable. *)
Definition attempt {A : Type} (p : Prog A) : Prog (Error + A) :=
  tryCatch (bind p (fun a => Ret (inr a))) (fun e => Ret (inl e)).

(** The [finally] block of the [run] case:
    [if (entered && !signalHandled) await exitEnv({ force: true })].  The
    forced exit is due when the tree was entered and no signal handler has
    taken it over. *)
Definition runCleanup (fuel : nat) (ctx : Ctx) (entered signalHandled : bool) : Prog unit :=
  if entered && negb signalHandled then exitEnv fuel ctx true else Ret tt.

(** The handler [onSignal] that the [run] case installs for SIGINT and
    SIGTERM, for the values [signalHandled] and [entered] have when the
    signal arrives.  A signal after the first does nothing ([None]: the
    handler returns).  The first one runs a forced exit when the tree was
    entered, drops its error, and ends the process with [code]. *)
Definition onSignal (fuel : nat) (ctx : Ctx) (signalHandled entered : bool) (code : Z)
    : Prog (option Z) :=
  if signalHandled then Ret None
  else
    (if entered then tryCatch (exitEnv fuel ctx true) (fun _ => Ret tt) else Ret tt);;
    Ret (Some code).

Definition sigint (fuel : nat) (ctx : Ctx) (signalHandled entered : bool) : Prog (option Z) :=
  onSignal fuel ctx signalHandled entered 130.

Definition sigterm (fuel : nat) (ctx : Ctx) (signalHandled entered : bool) : Prog (option Z) :=
  onSignal fuel ctx signalHandled entered 143.

(** The [run] case of [main] when no signal arrives: [signalHandled] stays
    [false] and the handlers above do not run.  [entered] and [exitCode]
    are the two local variables; the [finally] block reads [entered], which
    the [try] block sets from the result of [enterEnv].  The result is the
    status given to [process.exit]. *)
Definition runCase (fuel : nat) (ctx : Ctx) (rest : list string) : Prog Z :=
  let envName := match rest with
                 | "--env" :: _ => rest !! 1%nat
                 | _ => None
                 end in
  let commandIndex := match rest with
                      | "--env" :: _ => 2%nat
                      | _ => 0%nat
                      end in
  let commandArgs := drop commandIndex rest in
  let commandArgs := match commandArgs with
                     | "--" :: args => args
                     | _ => commandArgs
                     end in
  if (length commandArgs =? 0)%nat then Throw MissingCommand
  else
    resolvedEnv ← resolveEnvName ctx envName;
    r ← attempt (enterEnv fuel ctx resolvedEnv);
    match r with
    | inl error =>
        (* entered = false: the finally block does nothing *)
        Throw error
    | inr entered =>
        c ← attempt (runCommand resolvedEnv commandArgs);
        runCleanup fuel ctx entered false;;
        match c with
        | inl error => Throw error
        | inr exitCode => Ret exitCode
        end
    end.

(** [main().catch(..)]: an error that escapes is printed and the process
    exits with status 1. *)
Definition mainRun (fuel : nat) (ctx : Ctx) (rest : list string) : Prog Z :=
  tryCatch (runCase fuel ctx rest)
    (fun error => act (ConsoleError error);; Ret 1%Z).

(** ** Classes of operations *)

(** Writing a bundle. *)
Definition snapshotOp (o : Op) : bool :=
  match o with
  | WriteList _ _ | TarCreate _ | GitDiffCached _ | GitDiff _
  | WriteInfoJson _ _ | WriteEmptyPatch _ _ | Rm (EnvFile _ _) => true
  | _ => false
  end.

(** Resetting the tree. *)
Definition resetOp (o : Op) : bool :=
  match o with
  | GitResetHard | GitClean => true
  | _ => false
  end.

(** Restoring a bundle onto the tree. *)
Definition restoreOp (o : Op) : bool :=
  match o with
  | GitCheckout _ | TarExtract _ | GitApplyCached _ _ | GitApply _ _ => true
  | _ => false
  end.

(** Writing or deleting the occupancy record. *)
Definition stateOp (o : Op) : bool :=
  match o with
  | WriteState _ | Rm STATE_FILE => true
  | _ => false
  end.

Definition destructive (o : Op) : bool :=
  snapshotOp o || resetOp o || restoreOp o || stateOp o.

Definition isSleep (o : Op) : bool :=
  match o with
  | Sleep _ => true
  | _ => false
  end.

(** The environment the occupancy record names, if it parses. *)
Definition occupant (w : World) : option string :=
  match stateFile w with
  | Some (Parsed st) => Some (activeEnv st)
  | _ => None
  end.

(** ** Independent invocations on one repository

    Each invocation is a program of its own; a schedule picks which one
    performs its next operation.  A sleeping invocation cannot be picked
    before the clock has reached its wake-up time, and the clock moves
    only when the schedule lets time pass. *)

Module Interleaving.

(** How an invocation ends. *)
Inductive Done :=
| Entered (swapped : bool)
| Exited.

Definition enterCall (fuel : nat) (ctx : Ctx) (name : string) : Prog Done :=
  bind (enterEnv fuel ctx name) (fun swapped => Ret (Entered swapped)).

Definition exitCall (fuel : nat) (ctx : Ctx) (force : bool) : Prog Done :=
  bind (exitEnv fuel ctx force) (fun _ => Ret Exited).

Record Proc := mkProc {
  code : Prog Done;    (* what is left to run *)
  wakeAt : Z           (* not runnable before this time *)
}.

(** An operation as it happened: who performed it, and what the lock
    marker and the occupancy record were just before. *)
Record Event := mkEvent {
  who : nat;
  what : Op;
  lockBefore : option (option LockPayload);
  occupantBefore : option string
}.

Record Config := mkConfig {
  procs : list Proc;
  world : World;
  events : list Event
}.

Inductive Tick :=
| Step (i : nat)     (* invocation i performs its next operation *)
| Wait (ms : Z).     (* time passes *)

Definition stepProc (i : nat) (c : Config) : option Config :=
  match procs c !! i with
  | None => None
  | Some p =>
      if (now (world c) <? wakeAt p)%Z then None
      else
        match code p with
        | Act o k =>
            let ev := mkEvent i o (lockFile (world c)) (occupant (world c)) in
            match o as o' return (Result o' -> Prog Done) -> option Config with
            | Sleep ms => fun k' =>
                Some (mkConfig
                        (<[i := mkProc (k' tt) (now (world c) + ms)%Z]> (procs c))
                        (world c) (events c ++ [ev]))
            | o' => fun k' =>
                let r := perform o' (world c) in
                Some (mkConfig (<[i := mkProc (k' r.2) (wakeAt p)]> (procs c))
                               r.1 (events c ++ [ev]))
            end k
        | _ => None
        end
  end.

Definition tick (t : Tick) (c : Config) : option Config :=
  match t with
  | Step i => stepProc i c
  | Wait ms =>
      if (0 <=? ms)%Z
      then Some (mkConfig (procs c) (setNow (world c) (now (world c) + ms)%Z) (events c))
      else None
  end.

Fixpoint steps (sched : list Tick) (c : Config) : option Config :=
  match sched with
  | [] => Some c
  | t :: rest =>
      match tick t c with
      | Some c' => steps rest c'
      | None => None
      end
  end.

Definition start (ps : list (Prog Done)) (w : World) : Config :=
  mkConfig (map (fun p => mkProc p (now w)) ps) w [].

(** The result of invocation [i], once it has returned. *)
Definition returned (c : Config) (i : nat) : option Done :=
  match procs c !! i with
  | Some (mkProc (Ret d) _) => Some d
  | _ => None
  end.

(** Invocation [i] performed a destructive operation while the occupancy
    record named [name]. *)
Definition destroysUnder (c : Config) (i : nat) (name : string) : Prop :=
  ∃ ev, ev ∈ events c ∧ who ev = i ∧ destructive (what ev) = true
        ∧ occupantBefore ev = Some name.

(** Invocation [i] deleted the lock marker that process [owner] wrote. *)
Definition deletesLockOf (c : Config) (i : nat) (owner : Z) : Prop :=
  ∃ ev payload, ev ∈ events c ∧ who ev = i ∧ what ev = Rm LOCK_FILE
        ∧ lockBefore ev = Some (Some payload) ∧ pid payload = owner.

(** Boolean forms of the above, to evaluate on a concrete schedule. *)
Definition sameDone (a b : Done) : bool :=
  match a, b with
  | Entered x, Entered y => Bool.eqb x y
  | Exited, Exited => true
  | _, _ => false
  end.

Definition returnedb (c : Config) (i : nat) (d : Done) : bool :=
  match returned c i with
  | Some d' => sameDone d' d
  | None => false
  end.

Definition destroysUnderb (c : Config) (i : nat) (name : string) : bool :=
  existsb (fun ev => (who ev =? i)%nat && destructive (what ev)
                     && bool_decide (occupantBefore ev = Some name)) (events c).

Definition deletesLockOfb (c : Config) (i : nat) (owner : Z) : bool :=
  existsb (fun ev => (who ev =? i)%nat
                     && match what ev, lockBefore ev with
                        | Rm LOCK_FILE, Some (Some payload) => (pid payload =? owner)%Z
                        | _, _ => false
                        end) (events c).

End Interleaving.

(** ** The round trip of the testable properties *)

(** Snapshot into a slot, reset, restore that slot. *)
Definition roundTrip (slot : string) : Prog unit :=
  dumpEnv slot;;
  cleanWorkspace;;
  restoreEnv slot false.

(** The untracked files with their contents: on disk, not in the index,
    not ignored. *)
Definition untrackedFiles (g : Git) : Tree :=
  filter (fun kv => index g !! kv.1 = None ∧ ignored g kv.1 = false) (work g).

(** [g'] shows the same staged diff, unstaged diff and untracked files as
    [g]. *)
Definition Reproduces (g g' : Git) : Prop :=
  diffCached g' = diffCached g ∧
  diffWork g' = diffWork g ∧
  untrackedFiles g' = untrackedFiles g.

(** No file on disk sits at a path that HEAD tracks and the index does not
    (as after [git rm --cached]), and no file has the empty path. *)
Definition clashFree (g : Git) : Prop :=
  work g !! "" = None ∧
  ∀ p, is_Some (headTree g !! p) -> index g !! p = None -> work g !! p = None.

(** ** Concrete repositories and invocations *)

Module Demo.

Definition tree0 : Tree := {["file.txt" := "base"]}.

(** One commit on [main], nothing modified. *)
Definition git0 : Git :=
  mkGit {["c0" := tree0]} ∅ (OnBranch "main" "c0") tree0 tree0 (fun _ => false).

Definition fresh : World := mkWorld git0 0 None None None ∅ [] [] [].

Definition me (p : Z) (active : option string) : Ctx := mkCtx p "host" active.

(** Three environments exist and [x] occupies the tree. *)
Definition setup : Prog bool :=
  createEnv "x" true;;
  createEnv "a" false;;
  createEnv "c" false;;
  enterEnv 5 (me 1 None) "x".

Definition occupiedByX : World := final (run setup fresh).

(** The same, after [ccenv delete default]. *)
Definition hostDeleted : World :=
  final (run (deleteEnv DEFAULT_HOST_ENV) occupiedByX).

(** After [git rm --cached file.txt]: the deletion is staged and the
    file is still on disk, untracked. *)
Definition gitRmCached : Git :=
  mkGit {["c0" := tree0]} ∅ (OnBranch "main" "c0") ∅ tree0 (fun _ => false).

Definition rmCached : World := mkWorld gitRmCached 0 None None None ∅ [] [] [].

(** A staged new file, an unstaged edit and an untracked file. *)
Definition gitMixed : Git :=
  mkGit {["c0" := tree0]} ∅ (OnBranch "main" "c0")
        (<["staged.txt" := "new"]> tree0)
        (<["untracked.txt" := "u"]> (<["staged.txt" := "new"]> {["file.txt" := "edited"]}))
        (fun _ => false).

Definition mixed : World := mkWorld gitMixed 0 None None None ∅ [] [] [].

(** The lock marker of another process is in place. *)
Definition held : World :=
  setLock fresh (Some (Some (mkLock 7 "elsewhere" 0))).

(** Three invocations against [occupiedByX]: a forced exit, and two
    enters of different environments. *)
Definition contenders : Interleaving.Config :=
  Interleaving.start
    [Interleaving.exitCall 5 (me 100 None) true;
     Interleaving.enterCall 5 (me 101 None) "a";
     Interleaving.enterCall 5 (me 102 None) "c"]
    occupiedByX.

Import Interleaving.

(** [enter a] finds [x] active, releases the lock and goes to sleep;
    [exit --force] runs to its end; [enter c] takes the lock and starts
    its swap; [enter a] wakes up, runs the [finally] block of its round,
    takes the lock and snapshots the host; [enter c] finishes; [enter a]
    finishes. *)
Definition race : list Tick :=
  replicate 14 (Step 1) ++ [Wait 500] ++ replicate 31 (Step 0)
  ++ replicate 26 (Step 2) ++ [Wait 500] ++ replicate 18 (Step 1)
  ++ replicate 10 (Step 2) ++ replicate 14 (Step 1).

(** What the schedule [race] ends in. *)
Definition raceOutcome (c : Config) : bool :=
  returnedb c 0 Exited && returnedb c 1 (Entered true) && returnedb c 2 (Entered true)
  && deletesLockOfb c 1 102 && destroysUnderb c 1 "c"
  && bool_decide (occupant (world c) = Some "a").

Definition raceChecked : bool :=
  match steps race contenders with
  | Some c => raceOutcome c
  | None => false
  end.

End Demo.

(** ** Composing runs *)

(** The run of [p] followed by the run of what comes next. *)
Definition andThen {A B : Type} (r : Run A) (next : A -> World -> Run B) : Run B :=
  match outcome r with
  | Returned a =>
      let r' := next a (final r) in
      mkRun (trace r ++ trace r') (final r') (outcome r')
  | Thrown e => mkRun (trace r) (final r) (Thrown e)
  | Diverged => mkRun (trace r) (final r) Diverged
  end.

(** The run of a handler after a throw. *)
Definition orElse {A : Type} (r : Run A) (handler : Error -> World -> Run A) : Run A :=
  match outcome r with
  | Thrown e =>
      let r' := handler e (final r) in
      mkRun (trace r ++ trace r') (final r') (outcome r')
  | _ => r
  end.

(** The run of a [finally] block after any completion. *)
Definition andFinally {A : Type} (r : Run A) (cleanup : World -> Run unit) : Run A :=
  match outcome r with
  | Diverged => r
  | _ =>
      let r' := cleanup (final r) in
      mkRun (trace r ++ trace r') (final r')
            (match outcome r' with
             | Returned _ => outcome r
             | Thrown e => Thrown e
             | Diverged => Diverged
             end)
  end.

(** The bundle [createEnv] writes. *)
Definition emptyBundle (g : Git) (t : Z) : Slot :=
  mkSlot (Some (Parsed (mkInfo (revParseHead g) (abbrevRef g) t)))
         (Some ∅) (Some ∅) None None.

(** The rounds of a contended [acquireLock]: each finds the marker, reads
    the clock and sleeps 100 ms. *)
Fixpoint polls (k : nat) : list Op :=
  match k with
  | O => []
  | S k' => OpenWx :: DateNow :: Sleep 100 :: polls k'
  end.

(** The operations of [acquireLock]. *)
Definition lockOp (o : Op) : bool :=
  match o with
  | DateNow | OpenWx | WriteLock _ | ReadLock => true
  | Sleep ms => (ms =? 100)%Z
  | _ => false
  end.

(** The working tree, the bundles and the occupancy record are as before. *)
Definition Untouched (w w' : World) : Prop :=
  git w' = git w ∧ slots w' = slots w ∧ stateFile w' = stateFile w.

(** An operation that neither snapshots, resets, restores nor writes the
    occupancy record, and that waits, if at all, for the lock only. *)
Definition quietOp (o : Op) : bool :=
  negb (destructive o) &&
  match o with
  | Sleep ms => (ms =? 100)%Z
  | _ => true
  end.

(** ** The steps of a restore, as the design lists them *)

(** The operations of a run that reset the tree or restore onto it; the
    probes ([fs.access], [fs.stat]) and the log lines are left out. *)
Definition stepsOf (tr : list Op) : list Op :=
  List.filter (fun o => resetOp o || restoreOp o) tr.

Definition resetSteps (clean : bool) : list Op :=
  if clean then [GitResetHard; GitClean] else [].

(** The position step on repository [g]: the recorded branch first, the
    recorded commit id when the branch cannot be checked out, or right away
    when no branch was recorded (detached HEAD). *)
Definition positionSteps (i : option (FileText EnvInfo)) (g : Git) : list Op :=
  match i with
  | Some (Parsed i) =>
      if truthy (branch i) && negb (String.eqb (branch i) "HEAD") then
        match checkout (Branch (branch i)) g with
        | Some _ => [GitCheckout (Branch (branch i))]
        | None =>
            if truthy (headHash i)
            then [GitCheckout (Branch (branch i)); GitCheckout (CommitId (headHash i))]
            else [GitCheckout (Branch (branch i))]
        end
      else if truthy (headHash i) then [GitCheckout (CommitId (headHash i))]
      else []
  | _ => []
  end.

Definition archiveSteps (name : string) (s : Slot) : list Op :=
  match untracked s with
  | Some _ => [TarExtract name]
  | None => []
  end.

Definition nonEmptyPatch (p : option Patch) : bool :=
  match p with
  | Some q => negb (bool_decide (q = ∅))
  | None => false
  end.

Definition stagedSteps (name : string) (s : Slot) : list Op :=
  if nonEmptyPatch (staged s)
  then [GitApplyCached name StagedPatch; GitApply name StagedPatch]
  else [].

Definition unstagedSteps (name : string) (s : Slot) : list Op :=
  if nonEmptyPatch (unstaged s) then [GitApply name UnstagedPatch] else [].

(** The repository the position step finds. *)
Definition afterReset (clean : bool) (g : Git) : Git :=
  if clean then gitClean (resetHard g) else g.

Definition restoreSteps (name : string) (clean : bool) (w : World) : list Op :=
  resetSteps clean
  ++ positionSteps (info (slotOf w name)) (afterReset clean (git w))
  ++ archiveSteps name (slotOf w name)
  ++ stagedSteps name (slotOf w name)
  ++ unstagedSteps name (slotOf w name).

(** The errors a failing file-level step raises. *)
Definition restoreError (e : Error) : Prop :=
  e = ShellError "tar -xzf" ∨ e = ShellError "git apply --cached"
  ∨ e = ShellError "git apply".

(** Everything but the repository and the diagnostic log is as before. *)
Definition Framed (w w' : World) : Prop :=
  slots w' = slots w ∧ stateFile w' = stateFile w ∧ lockFile w' = lockFile w
  ∧ config w' = config w ∧ now w' = now w ∧ children w' = children w
  ∧ stdout w' = stdout w.

(** The world [restoreEnv] starts from once the optional reset is done. *)
Definition resetWorld (clean : bool) (w : World) : World :=
  if clean then setGit w (gitClean (resetHard (git w))) else w.

(** The run of the position step of [restoreEnv], which is skipped when
    the bundle has no [info.json]. *)
Definition positionRun (name : string) (w : World) : Run unit :=
  if slotHas (slotOf w name) InfoJson then run (restorePosition name) w
  else mkRun [] w (Returned tt).

(** The bundle [dumpEnv] leaves in a slot that held [old]. *)
Definition dumped (g : Git) (t : Z) (old : Slot) : Slot :=
  mkSlot (Some (Parsed (mkInfo (revParseHead g) (abbrevRef g) t)))
         (Some (diffCached g)) (Some (diffWork g))
         (if (0 <? length (untrackedFiltered (untrackedPaths g)))%nat
          then Some (tarCreate (untrackedFiltered (untrackedPaths g)) g).1
          else None)
         (if (0 <? length (untrackedFiltered (untrackedPaths g)))%nat
          then None else untrackedList old).

(** The revision names the commit HEAD is at: the branch HEAD is attached
    to, or the commit id of HEAD. *)
Definition currentRev (g : Git) (r : Rev) : Prop :=
  match r with
  | Branch b => ∃ c, head g = OnBranch b c
  | CommitId c => c = revParseHead g
  end.

(** The two repositories hold the same files: HEAD tree, index, working
    tree and ignore rules. *)
Definition sameFiles (g g' : Git) : Prop :=
  headTree g' = headTree g ∧ index g' = index g ∧ work g' = work g
  ∧ ignored g' = ignored g.

(** The first operation of [exitEnv]. *)
Definition exitStarted (o : Op) : bool :=
  match o with
  | AppendLog (LogText msg) => String.eqb msg "exitEnv() requesting lock"
  | _ => false
  end.

Definition isSpawn (o : Op) : bool :=
  match o with
  | Spawn _ _ => true
  | _ => false
  end.

(** What the [run] case makes of the runs of [enterEnv], of the child and
    of [exitEnv]: the cleanup runs [exitEnv] exactly when [enterEnv]
    reported a swap. *)
Definition wrapped (fuel : nat) (ctx : Ctx) (env : string) (command : list string)
    (w : World) : Run Z :=
  let e := run (enterEnv fuel ctx env) w in
  match outcome e with
  | Returned true =>
      let child := perform (Spawn env command) (final e) in
      let x := run (exitEnv fuel ctx true) child.1 in
      match outcome x with
      | Returned _ =>
          mkRun (trace e ++ Spawn env command :: trace x) (final x) (Returned child.2)
      | Thrown error =>
          mkRun (trace e ++ Spawn env command :: trace x ++ [ConsoleError error])
                (final x) (Returned 1%Z)
      | Diverged =>
          mkRun (trace e ++ Spawn env command :: trace x) (final x) Diverged
      end
  | Returned false =>
      let child := perform (Spawn env command) (final e) in
      mkRun (trace e ++ [Spawn env command]) child.1 (Returned child.2)
  | Thrown error =>
      mkRun (trace e ++ [ConsoleError error]) (final e) (Returned 1%Z)
  | Diverged => mkRun (trace e) (final e) Diverged
  end.

(** What [listEnvs] prints. *)
Definition listing (w : World) : list string :=
  let envs := List.filter listed (elements (dom (slots w))) in
  match envs with
  | [] => ["No environments found."]
  | _ => map (listLine (occupant w)) envs
  end.

(** ** The command line of the child *)

(** [arg.replace(/'/g, "'\\''")]: every single quote becomes the four
    characters quote, backslash, quote, quote. *)
Fixpoint replaceQuotes (arg : string) : string :=
  match arg with
  | EmptyString => EmptyString
  | String c rest =>
      if Ascii.eqb c "'"%char
      then String "'" (String "\" (String "'" (String "'" (replaceQuotes rest))))
      else String c (replaceQuotes rest)
  end.

Definition escapeShellArg (arg : string) : string :=
  "'" +:+ replaceQuotes arg +:+ "'".

(** [command.map(escapeShellArg).join(" ")], the script [runCommand] hands
    to [bash -c]. *)
Definition scriptOf (command : list string) : string :=
  String.concat " " (map escapeShellArg command).

(** How the shell splits a script into words, for scripts made of blanks,
    single-quoted text, backslash-escaped characters and plain characters;
    any other character outside quotes has a meaning of its own in the
    shell and is outside this reading ([None]), as is an unterminated
    quote. *)
Definition plainChar (c : ascii) : bool :=
  let n := nat_of_ascii c in
  ((48 <=? n) && (n <=? 57) || (65 <=? n) && (n <=? 90) || (97 <=? n) && (n <=? 122)
   || (n =? 95) || (n =? 45) || (n =? 46) || (n =? 47) || (n =? 44) || (n =? 58)
   || (n =? 43) || (n =? 64) || (n =? 37))%nat.

Definition blankChar (c : ascii) : bool :=
  Ascii.eqb c " "%char || Ascii.eqb c "009"%char.

Definition pushChar (word : option string) (c : ascii) : option string :=
  Some (default EmptyString word +:+ String c EmptyString).

Definition endWord (word : option string) (rest : option (list string))
    : option (list string) :=
  match word with
  | Some w => cons w <$> rest
  | None => rest
  end.

Fixpoint shellWords (s : string) (quoted : bool) (word : option string)
    : option (list string) :=
  match s with
  | EmptyString => if quoted then None else endWord word (Some [])
  | String c rest =>
      if quoted then
        if Ascii.eqb c "'"%char then shellWords rest false word
        else shellWords rest true (pushChar word c)
      else if Ascii.eqb c "'"%char then
        shellWords rest true (Some (default EmptyString word))
      else if Ascii.eqb c "\"%char then
        match rest with
        | String d rest' =>
            if Ascii.eqb d "010"%char then shellWords rest' false word
            else shellWords rest' false (pushChar word d)
        | EmptyString => None
        end
      else if blankChar c then endWord word (shellWords rest false None)
      else if plainChar c then shellWords rest false (pushChar word c)
      else None
  end.

(** ** Footprints *)

(** Every operation the program can ever issue, whatever the operations
    hand back, satisfies [P]. *)
Fixpoint only {A : Type} (P : Op -> Prop) (p : Prog A) : Prop :=
  match p with
  | Act o k => P o ∧ ∀ r, only P (k r)
  | _ => True
  end.

(** The operations on the lock marker. *)
Definition touchesLock (o : Op) : bool :=
  match o with
  | OpenWx | WriteLock _ | ReadLock | Rm LOCK_FILE => true
  | _ => false
  end.

(** The operations that write below [.ccenv/envs]. *)
Definition writesSlots (o : Op) : bool :=
  match o with
  | Mkdir _ | Rm (EnvDir _) | Rm (EnvFile _ _) | RmRecursiveForce _
  | WriteInfoJson _ _ | WriteEmptyPatch _ _ | WriteList _ _ | TarCreate _
  | GitDiffCached _ | GitDiff _ => true
  | _ => false
  end.

(** The operations that can change the repository. *)
Definition writesGit (o : Op) : bool :=
  match o with
  | GitResetHard | GitClean | GitCheckout _ | TarExtract _
  | GitApplyCached _ _ | GitApply _ _ | Spawn _ _ => true
  | _ => false
  end.

(** The operations of the environment store: [create], [list] and
    [delete] read the clock, the repository position and the occupancy
    record, and write the configuration, the bundles and the terminal. *)
Definition storeOp (o : Op) : bool :=
  negb (touchesLock o) && negb (stateOp o) && negb (writesGit o)
  && negb (isSleep o).

(** A run that stayed within the environment store: no operation on the
    repository, the lock or the occupancy record, no sleep, and the
    repository, the lock and the occupancy record are as before. *)
Definition StoreOnly {A : Type} (w : World) (r : Run A) : Prop :=
  Forall (fun o => storeOp o = true) (trace r)
  ∧ git (final r) = git w
  ∧ lockFile (final r) = lockFile w
  ∧ stateFile (final r) = stateFile w.

(** The operations of [applyEnv]: probes of the bundle, the restore steps
    and the diagnostic log. *)
Definition applyOp (o : Op) : bool :=
  negb (touchesLock o) && negb (stateOp o) && negb (writesSlots o)
  && negb (resetOp o) && negb (isSleep o)
  && match o with
     | ReadState | Spawn _ _ => false
     | _ => true
     end.

(** The program has no loop that was cut off by its fuel. *)
Fixpoint halts {A : Type} (p : Prog A) : Prop :=
  match p with
  | Spin => False
  | Act o k => ∀ r, halts (k r)
  | _ => True
  end.

(** HEAD is attached to a branch with an ordinary name, or detached: no
    branch is called [HEAD] or has the empty name. *)
Definition plainHead (g : Git) : Prop :=
  match head g with
  | OnBranch b _ => b ≠ "" ∧ b ≠ "HEAD"
  | Detached _ => True
  end.

(** ** More concrete worlds *)

Module Sample.

(** [Demo.fresh] after [ccenv create x]. *)
Definition withX : World := final (run (createEnv "x" true) Demo.fresh).

(** What a child leaves: a tracked file edited, a new file staged, an
    untracked file written; HEAD where it was. *)
Definition edited : Git :=
  mkGit {["c0" := Demo.tree0]} ∅ (OnBranch "main" "c0")
        (<["new.txt" := "n"]> Demo.tree0)
        (<["notes.txt" := "draft"]> (<["new.txt" := "n"]> {["file.txt" := "changed"]}))
        (fun _ => false).

(** [withX] with one child run queued, which leaves [edited] and exits
    with status 7. *)
Definition withChild : World := setChildren withX [mkChild edited 7].

(** The host has an unstaged edit of [file.txt]. *)
Definition hostEdited : Git :=
  mkGit {["c0" := Demo.tree0]} ∅ (OnBranch "main" "c0")
        Demo.tree0 {["file.txt" := "edited"]} (fun _ => false).

(** What a child leaves that commits another content of [file.txt]:
    [main] is at the new commit, nothing is modified. *)
Definition committed : Git :=
  mkGit (<["c1" := {["file.txt" := "other"]}]> {["c0" := Demo.tree0]}) ∅
        (OnBranch "main" "c1")
        {["file.txt" := "other"]} {["file.txt" := "other"]} (fun _ => false).

(** The environment [x] exists on the edited host, and one child run is
    queued, which leaves [committed] and exits with status 0. *)
Definition withCommit : World :=
  setChildren
    (final (run (createEnv "x" true)
                (mkWorld hostEdited 0 None None None ∅ [] [] [])))
    [mkChild committed 0].

(** An untracked file with a backslash in its name lies beside the
    tracked one. *)
Definition quoted : World :=
  mkWorld (mkGit {["c0" := Demo.tree0]} ∅ (OnBranch "main" "c0") Demo.tree0
                 (<["a\b" := "u"]> Demo.tree0) (fun _ => false))
          0 None None None ∅ [] [] [].

End Sample.

(** ** Ordinary names, paths and repositories

    The engine hands the names and paths it is given to [path.join], to
    git and to tar without looking at them.  The model keys a bundle by its
    name and a file by its path, and keeps the control directory apart
    from the working tree; this is what the code does on the names, paths
    and repositories described here. *)

(** A name that is one directory entry of [.ccenv/envs] and that git prints
    as it is: not empty, not [.] or [..], at most 255 bytes, without a
    slash, a control character, a double quote, a backslash or a byte above
    126.  For such a name [path.join(ENVS_DIR, name)] is the directory
    [name] of [.ccenv/envs], and different names are different
    directories (on a file system that tells upper case from lower
    case). *)
Definition plainName (name : string) : bool :=
  negb (String.eqb name "") && negb (String.eqb name ".") && negb (String.eqb name "..")
  && (String.length name <=? 255)%nat
  && forallb (fun c => negb (quotedByGit c) && negb (Ascii.eqb c "/"%char))
             (list_ascii_of_string name).

(** A relative path of the working tree: no component is empty, [.], [..]
    or [.git] (so no file lies in a nested repository). *)
Definition validPath (path : string) : bool :=
  forallb (fun c => negb (String.eqb c "") && negb (String.eqb c ".")
                    && negb (String.eqb c "..") && negb (String.eqb c ".git"))
          (components path).

Definition firstChar (s : string) : option ascii :=
  match s with
  | EmptyString => None
  | String c _ => Some c
  end.

Fixpoint lastChar (s : string) : option ascii :=
  match s with
  | EmptyString => None
  | String c EmptyString => Some c
  | String _ rest => lastChar rest
  end.

(** A path that reaches tar as git lists it: git prints it unquoted, the
    [trim] of the listing cannot eat a blank at either end, and tar does
    not take it for an option. *)
Definition plainPath (path : string) : bool :=
  validPath path
  && forallb (fun c => negb (quotedByGit c)) (list_ascii_of_string path)
  && negb (bool_decide (firstChar path = Some "-"%char))
  && negb (bool_decide (firstChar path = Some " "%char))
  && negb (bool_decide (lastChar path = Some " "%char)).

(** The paths git knows or finds on disk. *)
Definition pathsOf (g : Git) : list string :=
  elements (dom (work g) ∪ dom (index g) ∪ dom (headTree g)).

(** [path] names a [.gitignore] file. *)
Definition isGitignore (path : string) : bool :=
  bool_decide (last (components path) = Some ".gitignore").

Definition keysOutsideControl {V : Type} (m : gmap string V) : bool :=
  forallb outsideControl (elements (dom m)).

(** An ordinary repository:
    - HEAD is at a commit the repository has (there is a first commit);
    - every path is a valid relative path, and no path is a directory on
      the way to another;
    - the untracked files that git lists have plain paths;
    - nothing below [.ccenv] is tracked, staged or committed, and the files
      of the model's working tree are the files outside [.ccenv];
    - every [.gitignore] file is on disk and in the index as HEAD has it,
      so that resetting the tree leaves the ignore rules as they are. *)
Definition ordinary (g : Git) : bool :=
  bool_decide (is_Some (commits g !! revParseHead g))
  && forallb validPath (pathsOf g)
  && forallb (fun p => forallb (fun q => negb (String.prefix (p +:+ "/") q)) (pathsOf g))
             (pathsOf g)
  && forallb plainPath (untrackedPaths g)
  && forallb outsideControl (pathsOf g)
  && forallb (fun ct => keysOutsideControl ct.2) (map_to_list (commits g))
  && forallb (fun p => negb (isGitignore p)
                       || bool_decide (work g !! p = headTree g !! p
                                       ∧ index g !! p = headTree g !! p))
             (pathsOf g).

(** A bundle whose patches and archive stay outside the control directory
    and name valid paths. *)
Definition keysApart {V : Type} (m : option (gmap string V)) : bool :=
  match m with
  | Some m' => forallb (fun p => validPath p && outsideControl p) (elements (dom m'))
  | None => true
  end.

Definition apart (s : Slot) : bool :=
  keysApart (staged s) && keysApart (unstaged s) && keysApart (untracked s).

(** A tidy store: every environment has a plain name, and every bundle
    stays outside the control directory. *)
Definition tidy (w : World) : bool :=
  forallb (fun ns => plainName ns.1 && apart ns.2) (map_to_list (slots w)).

(** ** What a bundle holds *)

(** The untracked files [dumpEnv] archives: those outside the control
    directory. *)
Definition archiveOf (g : Git) : Archive :=
  filter (fun kv => outsideControl kv.1 = true) (untrackedFiles g).

(** The bundle holds a snapshot of [g]: the staged diff, the unstaged diff,
    the archive of the untracked files (no archive when there is none) and
    the commit HEAD is at. *)
Definition snapshotOf (g : Git) (s : Slot) : Prop :=
  staged s = Some (diffCached g)
  ∧ unstaged s = Some (diffWork g)
  ∧ untracked s = (if decide (archiveOf g = ∅) then None else Some (archiveOf g))
  ∧ ∃ i, info s = Some (Parsed i) ∧ headHash i = revParseHead g.

(** The bundle is as [createEnv] writes it: two empty patches, no archive,
    and the commit HEAD is at. *)
Definition emptySnapshot (g : Git) (s : Slot) : Prop :=
  staged s = Some ∅ ∧ unstaged s = Some ∅ ∧ untracked s = None
  ∧ ∃ i, info s = Some (Parsed i) ∧ headHash i = revParseHead g.

(** ** Every way a program can go *)

(** An operation together with what it handed back. *)
Inductive Answered :=
| answered (o : Op) (r : Result o).

(** [tr] is one way the program can go: the operations it issues, each with
    an answer, and how it ends.  Any answer is allowed: this relation knows
    nothing of git, of tar or of the file system. *)
Fixpoint Path {A : Type} (p : Prog A) (tr : list Answered) (out : Outcome A) : Prop :=
  match p with
  | Ret a => tr = [] ∧ out = Returned a
  | Throw e => tr = [] ∧ out = Thrown e
  | Spin => tr = [] ∧ out = Diverged
  | Act o k => ∃ r tr', tr = answered o r :: tr' ∧ Path (k r) tr' out
  end.

(** The way a run goes: its operations with the answers of the world. *)
Fixpoint answers {A : Type} (p : Prog A) (w : World) : list Answered :=
  match p with
  | Act o k => answered o (perform o w).2 :: answers (k (perform o w).2) (perform o w).1
  | _ => []
  end.

(** Every error the program can raise, whatever the operations hand back,
    satisfies [P]. *)
Fixpoint raises {A : Type} (P : Error -> Prop) (p : Prog A) : Prop :=
  match p with
  | Throw e => P e
  | Act o k => ∀ r, raises P (k r)
  | _ => True
  end.

(** The error of the identity check of [exitEnv]. *)
Definition identityError (e : Error) : bool :=
  match e with
  | CannotExit _ _ => true
  | _ => false
  end.

(** ** The steps of a restore, as the design lists them *)

Definition warning (e : Error) : Answered :=
  answered (AppendLog (LogError "restoreEnv warning: failed to restore git state" e)) tt.

(** How a step of the restore ends: the restore goes on, or stops with an
    error. *)
Inductive Verdict :=
| GoesOn
| Stops (e : Error).

(** First, the reset when it is asked for. *)
Definition resetPhase (clean : bool) (tr : list Answered) (v : Verdict) : Prop :=
  tr = (if clean then [answered GitResetHard tt; answered GitClean tt] else [])
  ∧ v = GoesOn.

Definition branchRecorded (i : EnvInfo) : bool :=
  truthy (branch i) && negb (String.eqb (branch i) "HEAD").

(** The checkout of the recorded commit; its failure is a warning. *)
Definition commitAttempt (i : EnvInfo) (ok : bool) : list Answered :=
  answered (GitCheckout (CommitId (headHash i))) ok
  :: (if ok then [] else [warning (ShellError "git checkout")]).

(** The checkout of the recorded branch, and of the recorded commit when
    that fails or when no branch is recorded. *)
Inductive checkoutAttempt (i : EnvInfo) : list Answered -> Prop :=
| attempt_branch :
    branchRecorded i = true ->
    checkoutAttempt i [answered (GitCheckout (Branch (branch i))) true]
| attempt_fallback ok :
    branchRecorded i = true -> truthy (headHash i) = true ->
    checkoutAttempt i
      (answered (GitCheckout (Branch (branch i))) false :: commitAttempt i ok)
| attempt_branch_only :
    branchRecorded i = true -> truthy (headHash i) = false ->
    checkoutAttempt i [answered (GitCheckout (Branch (branch i))) false]
| attempt_commit ok :
    branchRecorded i = false -> truthy (headHash i) = true ->
    checkoutAttempt i (commitAttempt i ok)
| attempt_nothing :
    branchRecorded i = false -> truthy (headHash i) = false ->
    checkoutAttempt i [].

(** Second, the position: skipped without [info.json]; a warning when
    [info.json] cannot be read; a checkout attempt otherwise.  Whatever
    happens here, the restore goes on. *)
Inductive positionSteps' (name : string) : list Answered -> Prop :=
| position_none :
    positionSteps' name [answered (Access (EnvFile name InfoJson)) false]
| position_missing :
    positionSteps' name
      [answered (Access (EnvFile name InfoJson)) true;
       answered (ReadInfo name) None;
       warning (ENOENT (EnvFile name InfoJson))]
| position_unreadable raw :
    positionSteps' name
      [answered (Access (EnvFile name InfoJson)) true;
       answered (ReadInfo name) (Some (Unparsable raw));
       warning (SyntaxError (EnvFile name InfoJson))]
| position_recorded i tr :
    checkoutAttempt i tr ->
    positionSteps' name
      (answered (Access (EnvFile name InfoJson)) true
       :: answered (ReadInfo name) (Some (Parsed i)) :: tr).

Definition positionPhase (name : string) (tr : list Answered) (v : Verdict) : Prop :=
  positionSteps' name tr ∧ v = GoesOn.

(** Third, the archive of untracked files, when the bundle has one. *)
Definition archivePhase (name : string) (tr : list Answered) (v : Verdict) : Prop :=
  (tr = [answered (Access (EnvFile name UntrackedTar)) false] ∧ v = GoesOn)
  ∨ (tr = [answered (Access (EnvFile name UntrackedTar)) true;
           answered (TarExtract name) true] ∧ v = GoesOn)
  ∨ (tr = [answered (Access (EnvFile name UntrackedTar)) true;
           answered (TarExtract name) false] ∧ v = Stops (ShellError "tar -xzf")).

(** Fourth, the staged patch when it is not empty: on the index, then on
    the tree. *)
Definition stagedPhase (name : string) (tr : list Answered) (v : Verdict) : Prop :=
  (tr = [answered (StatNotEmpty name StagedPatch) false] ∧ v = GoesOn)
  ∨ (tr = [answered (StatNotEmpty name StagedPatch) true;
           answered (GitApplyCached name StagedPatch) true;
           answered (GitApply name StagedPatch) true] ∧ v = GoesOn)
  ∨ (tr = [answered (StatNotEmpty name StagedPatch) true;
           answered (GitApplyCached name StagedPatch) false]
     ∧ v = Stops (ShellError "git apply --cached"))
  ∨ (tr = [answered (StatNotEmpty name StagedPatch) true;
           answered (GitApplyCached name StagedPatch) true;
           answered (GitApply name StagedPatch) false]
     ∧ v = Stops (ShellError "git apply")).

(** Fifth, the unstaged patch when it is not empty: on the tree. *)
Definition unstagedPhase (name : string) (tr : list Answered) (v : Verdict) : Prop :=
  (tr = [answered (StatNotEmpty name UnstagedPatch) false] ∧ v = GoesOn)
  ∨ (tr = [answered (StatNotEmpty name UnstagedPatch) true;
           answered (GitApply name UnstagedPatch) true] ∧ v = GoesOn)
  ∨ (tr = [answered (StatNotEmpty name UnstagedPatch) true;
           answered (GitApply name UnstagedPatch) false]
     ∧ v = Stops (ShellError "git apply")).

(** Phases one after the other: the first that stops ends the whole with
    its error, and nothing is done after it. *)
Fixpoint inOrder (phases : list (list Answered -> Verdict -> Prop))
    (tr : list Answered) (out : Outcome unit) : Prop :=
  match phases with
  | [] => tr = [] ∧ out = Returned tt
  | phase :: rest =>
      ∃ tr1 tr2 v, tr = tr1 ++ tr2 ∧ phase tr1 v
        ∧ match v with
          | GoesOn => inOrder rest tr2 out
          | Stops e => tr2 = [] ∧ out = Thrown e
          end
  end.

Definition RestoreOrder (name : string) (clean : bool)
    (tr : list Answered) (out : Outcome unit) : Prop :=
  inOrder [resetPhase clean; positionPhase name; archivePhase name;
           stagedPhase name; unstagedPhase name] tr out.

(** Two programs that can go the same ways. *)
Definition sameWays {A : Type} (p q : Prog A) : Prop :=
  ∀ tr out, Path p tr out <-> Path q tr out.

(** The program goes the ways the phase describes: it returns where the
    phase goes on, and throws the error the phase stops with. *)
Definition Realises (p : Prog unit) (phase : list Answered -> Verdict -> Prop) : Prop :=
  ∀ tr out, Path p tr out <->
    (phase tr GoesOn ∧ out = Returned tt) ∨ (∃ e, phase tr (Stops e) ∧ out = Thrown e).

(** Programs one after the other. *)
Fixpoint chain (ps : list (Prog unit)) : Prog unit :=
  match ps with
  | [] => Ret tt
  | p :: rest => bind p (fun _ => chain rest)
  end.

(** The five phases of [restoreEnv], as the source has them one after the
    other. *)
Definition resetProg (clean : bool) : Prog unit :=
  if clean then cleanWorkspace else Ret tt.

Definition positionProg (name : string) : Prog unit :=
  hasInfo ← fileExists (EnvFile name InfoJson);
  if hasInfo : bool then restorePosition name else Ret tt.

Definition archiveProg (name : string) : Prog unit :=
  hasTar ← fileExists (EnvFile name UntrackedTar);
  if hasTar : bool then
    ok ← act (TarExtract name);
    shell "tar -xzf" ok
  else Ret tt.

Definition stagedProg (name : string) : Prog unit :=
  hasStaged ← fileNotEmpty name StagedPatch;
  if hasStaged : bool then
    ok ← act (GitApplyCached name StagedPatch);
    shell "git apply --cached" ok;;
    ok' ← act (GitApply name StagedPatch);
    shell "git apply" ok'
  else Ret tt.

Definition unstagedProg (name : string) : Prog unit :=
  hasUnstaged ← fileNotEmpty name UnstagedPatch;
  if hasUnstaged : bool then
    ok ← act (GitApply name UnstagedPatch);
    shell "git apply" ok
  else Ret tt.

(** ** The command line of [ccenv run] *)

(** What [ccenv run [--env <name>] [--] <command...>] asks for: the
    environment named after [--env], or else the ambient one, and the words
    of the command. *)
Definition commandWords (args : list string) : list string :=
  match args with
  | "--" :: words => words
  | _ => args
  end.

Definition ambient (ctx : Ctx) : Error + string :=
  match CCENV_ACTIVE ctx with
  | Some name => if truthy name then inr name else inl EnvNameRequired
  | None => inl EnvNameRequired
  end.

Definition runTarget (ctx : Ctx) (rest : list string) : Error + (string * list string) :=
  let (named, args) :=
    match rest with
    | "--env" :: name :: args => (Some name, args)
    | "--env" :: [] => (None, [])
    | _ => (None, rest)
    end in
  match commandWords args with
  | [] => inl MissingCommand
  | words =>
      match (match named with
             | Some name => if truthy name then inr name else ambient ctx
             | None => ambient ctx
             end) with
      | inl e => inl e
      | inr env => inr (env, words)
      end
  end.

(** What the [run] case does for a command line: it prints the error of a
    rejected command line and exits with 1, or wraps the command. *)
Definition session (fuel : nat) (ctx : Ctx) (rest : list string) (w : World) : Run Z :=
  match runTarget ctx rest with
  | inl e => mkRun [ConsoleError e] w (Returned 1%Z)
  | inr (env, words) => wrapped fuel ctx env words w
  end.

(** What an interruption comes to when the tree was entered: the forced
    exit, whose error is dropped, then the end of the process with the
    code of the signal. *)
Definition interrupted (fuel : nat) (ctx : Ctx) (code : Z) (w : World) : Run (option Z) :=
  let x := run (exitEnv fuel ctx true) w in
  mkRun (trace x) (final x)
        (match outcome x with
         | Diverged => Diverged
         | _ => Returned (Some code)
         end).

(** * Runs of composed programs *)

Section Runs.

Lemma run_bind {A B : Type} (p : Prog A) (k : A -> Prog B) w :
  run (bind p k) w = andThen (run p w) (fun a w' => run (k a) w').
Proof.
  revert w. induction p as [a|e| |o c IH]; intros w; cbn.
  - unfold andThen; cbn. by destruct (run (k a) w).
  - reflexivity.
  - reflexivity.
  - rewrite IH. unfold andThen; cbn.
    destruct (run (c (perform o w).2) (perform o w).1) as [tr fw [a|e|]]; reflexivity.
Qed.

Section RunLemmas.
Context {A : Type}.

Lemma run_tryCatch (p : Prog A) (h : Error -> Prog A) w :
  run (tryCatch p h) w = orElse (run p w) (fun e w' => run (h e) w').
Proof.
  revert w. induction p as [a|e| |o c IH]; intros w; cbn.
  - reflexivity.
  - unfold orElse; cbn. by destruct (run (h e) w).
  - reflexivity.
  - rewrite IH. unfold orElse; cbn.
    destruct (run (c (perform o w).2) (perform o w).1) as [tr fw [a|e|]]; reflexivity.
Qed.

Lemma run_tryFinally (p : Prog A) (f : Prog unit) w :
  run (tryFinally p f) w = andFinally (run p w) (fun w' => run f w').
Proof.
  revert w. induction p as [a|e| |o c IH]; intros w; cbn [tryFinally].
  - rewrite run_bind. unfold andThen, andFinally; cbn.
    destruct (run f w) as [tr fw [[]|e|]]; cbn; rewrite ?app_nil_r; reflexivity.
  - rewrite run_bind. unfold andThen, andFinally; cbn.
    destruct (run f w) as [tr fw [[]|e'|]]; cbn; rewrite ?app_nil_r; reflexivity.
  - reflexivity.
  - cbn. rewrite IH. unfold andFinally; cbn.
    destruct (run (c (perform o w).2) (perform o w).1) as [tr fw [a|e|]]; reflexivity.
Qed.
End RunLemmas.

Lemma run_mbind {A B : Type} (p : Prog A) (k : A -> Prog B) w :
  run (p ≫= k) w = andThen (run p w) (fun a w' => run (k a) w').
Proof. apply run_bind. Qed.

Lemma run_act (o : Op) w :
  run (act o) w = mkRun [o] (perform o w).1 (Returned (perform o w).2).
Proof. reflexivity. Qed.

End Runs.

(** * Footprints and frames *)

Lemma only_run {A : Type} (P : Op -> Prop) (p : Prog A) :
  only P p -> forall w, Forall P (trace (run p w)).
Proof.
  induction p as [a|e| |o k IH]; cbn; intros H w; try constructor.
  - apply H.
  - apply IH, H.
Qed.

Lemma only_weaken {A : Type} (P Q : Op -> Prop) (p : Prog A) :
  (forall o, P o -> Q o) -> only P p -> only Q p.
Proof.
  intros HPQ. induction p as [a|e| |o k IH]; cbn; try done.
  intros [Ho Hk]. split; [by apply HPQ|]. intros r. by apply IH.
Qed.

Lemma only_bind {A B : Type} (P : Op -> Prop) (p : Prog A) (k : A -> Prog B) :
  only P p -> (forall a, only P (k a)) -> only P (bind p k).
Proof.
  intros Hp Hk. induction p as [a|e| |o c IH]; cbn; try done.
  destruct Hp as [Ho Hc]. split; [done|]. intros r. by apply IH.
Qed.

Lemma only_mbind {A B : Type} (P : Op -> Prop) (p : Prog A) (k : A -> Prog B) :
  only P p -> (forall a, only P (k a)) -> only P (p ≫= k).
Proof. apply only_bind. Qed.

Lemma only_tryCatch {A : Type} (P : Op -> Prop) (p : Prog A) (h : Error -> Prog A) :
  only P p -> (forall e, only P (h e)) -> only P (tryCatch p h).
Proof.
  intros Hp Hh. induction p as [a|e| |o c IH]; cbn; try done.
  destruct Hp as [Ho Hc]. split; [done|]. intros r. by apply IH.
Qed.

Lemma only_tryFinally {A : Type} (P : Op -> Prop) (p : Prog A) (f : Prog unit) :
  only P p -> only P f -> only P (tryFinally p f).
Proof.
  intros Hp Hf. induction p as [a|e| |o c IH]; cbn [tryFinally]; try done.
  - by apply only_bind.
  - by apply only_bind.
  - destruct Hp as [Ho Hc]. split; [done|]. intros r. by apply IH.
Qed.

(** A part of the world that no operation of a class changes is left as
    it is by every program made of such operations. *)
Lemma only_preserves {A B : Type} (f : World -> B) (P : Op -> Prop) :
  (forall o w, P o -> f (perform o w).1 = f w) ->
  forall (p : Prog A), only P p -> forall w, f (final (run p w)) = f w.
Proof.
  intros HP p. induction p as [a|e| |o k IH]; cbn; intros H w; try done.
  destruct H as [Ho Hk]. rewrite IH by apply Hk. by apply HP.
Qed.

Ltac frame_op :=
  let H := fresh "H" in
  intros H; unfold perform, applyFrom, remove;
  repeat match goal with
         | |- context [match ?x with _ => _ end] => destruct x eqn:?
         | |- context [if ?b then _ else _] => destruct b eqn:?
         end;
  cbn in *; try reflexivity; try discriminate.

Lemma git_frame o w : writesGit o = false -> git (perform o w).1 = git w.
Proof. destruct o; frame_op. Qed.

Lemma lock_frame o w : touchesLock o = false -> lockFile (perform o w).1 = lockFile w.
Proof. destruct o; frame_op. Qed.

Lemma state_frame o w : stateOp o = false -> stateFile (perform o w).1 = stateFile w.
Proof. destruct o; frame_op. Qed.

Lemma slots_frame o w : writesSlots o = false -> slots (perform o w).1 = slots w.
Proof. destruct o; frame_op. Qed.

Lemma children_frame o w : isSpawn o = false -> children (perform o w).1 = children w.
Proof. destruct o; frame_op. Qed.

Lemma now_frame o w : isSleep o = false -> now (perform o w).1 = now w.
Proof. destruct o; frame_op. Qed.

Lemma halts_run {A : Type} (p : Prog A) :
  halts p -> forall w, outcome (run p w) ≠ Diverged.
Proof.
  induction p as [a|e| |o k IH]; cbn; intros H w; try done.
  by apply IH.
Qed.

Lemma halts_bind {A B : Type} (p : Prog A) (k : A -> Prog B) :
  halts p -> (forall a, halts (k a)) -> halts (bind p k).
Proof.
  intros Hp Hk. induction p as [a|e| |o c IH]; cbn; try done.
  intros r. by apply IH.
Qed.

Lemma halts_mbind {A B : Type} (p : Prog A) (k : A -> Prog B) :
  halts p -> (forall a, halts (k a)) -> halts (p ≫= k).
Proof. apply halts_bind. Qed.

Lemma halts_tryCatch {A : Type} (p : Prog A) (h : Error -> Prog A) :
  halts p -> (forall e, halts (h e)) -> halts (tryCatch p h).
Proof.
  intros Hp Hh. induction p as [a|e| |o c IH]; cbn; try done.
  intros r. by apply IH.
Qed.

Lemma halts_tryFinally {A : Type} (p : Prog A) (f : Prog unit) :
  halts p -> halts f -> halts (tryFinally p f).
Proof.
  intros Hp Hf. induction p as [a|e| |o c IH]; cbn [tryFinally]; try done.
  - by apply halts_bind.
  - by apply halts_bind.
  - intros r. by apply IH.
Qed.

Ltac footprint :=
  repeat first
    [ exact I
    | reflexivity
    | split
    | intro
    | progress cbn
    | progress unfold shell, rm
    | match goal with
      | |- context [if ?b then _ else _] => destruct b
      | |- context [match ?x with _ => _ end] => destruct x
      end ].

Lemma raises_run {A : Type} (P : Error -> Prop) (p : Prog A) :
  raises P p -> forall w e, outcome (run p w) = Thrown e -> P e.
Proof.
  induction p as [a|e'| |o k IH]; cbn; intros H w e; try done.
  - by intros [= <-].
  - by apply IH.
Qed.

Lemma raises_bind {A B : Type} (P : Error -> Prop) (p : Prog A) (k : A -> Prog B) :
  raises P p -> (forall a, raises P (k a)) -> raises P (bind p k).
Proof.
  intros Hp Hk. induction p as [a|e| |o c IH]; cbn; try done.
  intros r. by apply IH.
Qed.

Lemma raises_mbind {A B : Type} (P : Error -> Prop) (p : Prog A) (k : A -> Prog B) :
  raises P p -> (forall a, raises P (k a)) -> raises P (p ≫= k).
Proof. apply raises_bind. Qed.

Lemma raises_tryCatch {A : Type} (P : Error -> Prop) (p : Prog A) (h : Error -> Prog A) :
  raises P p -> (forall e, P e -> raises P (h e)) -> raises P (tryCatch p h).
Proof.
  intros Hp Hh. induction p as [a|e| |o c IH]; cbn; try done.
  - by apply Hh.
  - intros r. by apply IH.
Qed.

Lemma raises_tryFinally {A : Type} (P : Error -> Prop) (p : Prog A) (f : Prog unit) :
  raises P p -> raises P f -> raises P (tryFinally p f).
Proof.
  intros Hp Hf. induction p as [a|e| |o c IH]; cbn [tryFinally]; try done.
  - by apply raises_bind.
  - by apply raises_bind.
  - intros r. by apply IH.
Qed.

(** A sequence that returns: its first part returned, and the rest
    returned from where the first part ended. *)
Lemma bind_returned {A B : Type} (p : Prog A) (k : A -> Prog B) w b :
  outcome (run (bind p k) w) = Returned b ->
  ∃ a, outcome (run p w) = Returned a
       ∧ outcome (run (k a) (final (run p w))) = Returned b
       ∧ final (run (bind p k) w) = final (run (k a) (final (run p w))).
Proof.
  rewrite run_bind. unfold andThen.
  destruct (run p w) as [tr fw [a|e|]]; cbn [trace final outcome]; try done.
  intros H. by exists a.
Qed.

Lemma mbind_returned {A B : Type} (p : Prog A) (k : A -> Prog B) w b :
  outcome (run (p ≫= k) w) = Returned b ->
  ∃ a, outcome (run p w) = Returned a
       ∧ outcome (run (k a) (final (run p w))) = Returned b
       ∧ final (run (p ≫= k) w) = final (run (k a) (final (run p w))).
Proof. apply bind_returned. Qed.

(** * The lock *)

Section Locking.

Lemma setNow_same w : setNow w (now w) = w.
Proof. by destruct w. Qed.

Lemma acquireLock_loop_free fuel ctx timeoutMs start w :
  lockFile w = None ->
  run (acquireLock_loop (S fuel) ctx timeoutMs start) w =
    mkRun [OpenWx; DateNow; WriteLock (mkLock (procPid ctx) (procHost ctx) (now w))]
          (setLock w (Some (Some (mkLock (procPid ctx) (procHost ctx) (now w)))))
          (Returned tt).
Proof. intros H. cbn. rewrite H. reflexivity. Qed.

Lemma acquireLock_loop_held (k : nat) : forall fuel ctx timeoutMs start w content,
  lockFile w = Some content ->
  (k < fuel)%nat ->
  (timeoutMs - (now w - start) < 100 * Z.of_nat k)%Z ->
  (k = 0%nat ∨ 100 * (Z.of_nat k - 1) <= timeoutMs - (now w - start))%Z ->
  run (acquireLock_loop fuel ctx timeoutMs start) w =
    mkRun (polls k ++ [OpenWx; DateNow; ReadLock])
          (setNow w (now w + 100 * Z.of_nat k)%Z)
          (Thrown (LockTimeout timeoutMs (HeldBy content))).
Proof.
  induction k as [|k IH]; intros fuel ctx timeoutMs start w content Hl Hf Hlt Hge.
  - destruct fuel as [|fuel]; [lia|]. cbn. rewrite Hl. cbn.
    destruct (Z.gtb_spec (now w - start) timeoutMs) as [_|Hle]; [|lia].
    cbn. rewrite Hl. rewrite Z.add_0_r, setNow_same. reflexivity.
  - destruct fuel as [|fuel]; [lia|]. cbn [acquireLock_loop].
    cbn. rewrite Hl. cbn.
    destruct (Z.gtb_spec (now w - start) timeoutMs) as [Hgt|Hle]; [lia|].
    cbn.
    rewrite (IH fuel ctx timeoutMs start (setNow w (now w + 100)%Z) content);
      cbn; try done; try lia.
    f_equal. f_equal. lia.
Qed.

Lemma lockOp_not_destructive o : lockOp o = true -> destructive o = false.
Proof. destruct o; try discriminate; reflexivity. Qed.

(** Whatever the marker, [acquireLock] touches nothing but the marker and
    the clock, and when it returns the marker carries the caller's payload. *)
Lemma acquireLock_loop_quiet fuel : forall ctx timeoutMs start w,
  let r := run (acquireLock_loop fuel ctx timeoutMs start) w in
  Untouched w (final r)
  ∧ Forall (fun o => lockOp o = true) (trace r)
  ∧ config (final r) = config w
  ∧ internalLog (final r) = internalLog w
  ∧ (outcome r = Returned tt -> ∃ t, lockFile (final r) = Some (Some (mkLock (procPid ctx) (procHost ctx) t)))
  ∧ (forall e, outcome r = Thrown e -> ∃ d, e = LockTimeout timeoutMs d).
Proof.
  induction fuel as [|fuel IH]; intros ctx timeoutMs start w; cbn zeta.
  - cbn. repeat split; try done. 
  - cbn [acquireLock_loop]. cbn.
    destruct (lockFile w) as [c|] eqn:Hl; cbn.
    + destruct (now w - start >? timeoutMs)%Z; cbn.
      * rewrite Hl. repeat split; try done.
        -- repeat constructor.
        -- intros e [= <-]. eauto.
      * specialize (IH ctx timeoutMs start (setNow w (now w + 100)%Z)). cbn zeta in IH.
        destruct IH as (Hu & Ht & Hc & Hg & Hr & He).
        repeat split; try apply Hu; try done.
        repeat constructor. done.
    + repeat split; try done.
      * repeat constructor.
      * intros _. eauto.
Qed.

Lemma acquireLock_quiet fuel ctx timeoutMs w :
  let r := run (acquireLock fuel ctx timeoutMs) w in
  Untouched w (final r)
  ∧ Forall (fun o => lockOp o = true) (trace r)
  ∧ config (final r) = config w
  ∧ internalLog (final r) = internalLog w
  ∧ (outcome r = Returned tt -> ∃ t, lockFile (final r) = Some (Some (mkLock (procPid ctx) (procHost ctx) t)))
  ∧ (forall e, outcome r = Thrown e -> ∃ d, e = LockTimeout timeoutMs d).
Proof.
  cbn zeta. unfold acquireLock. cbn.
  destruct (acquireLock_loop_quiet fuel ctx timeoutMs (now w) w) as (Hu & Ht & Hc & Hg & Hr & He).
  repeat split; try apply Hu; try done.
  constructor; done.
Qed.

Lemma acquireLock_free fuel ctx timeoutMs w :
  lockFile w = None ->
  run (acquireLock (S fuel) ctx timeoutMs) w =
    mkRun [DateNow; OpenWx; DateNow; WriteLock (mkLock (procPid ctx) (procHost ctx) (now w))]
          (setLock w (Some (Some (mkLock (procPid ctx) (procHost ctx) (now w)))))
          (Returned tt).
Proof. intros H. unfold acquireLock. cbn. rewrite H. reflexivity. Qed.

Lemma run_releaseLock w :
  run releaseLock w = mkRun [Rm LOCK_FILE] (setLock w None) (Returned tt).
Proof.
  unfold releaseLock. cbn. unfold exists_.
  destruct (lockFile w) eqn:Hl; cbn; [reflexivity|].
  destruct w; cbn in *; subst; reflexivity.
Qed.

Lemma openWx_exclusive w :
  perform OpenWx w =
    match lockFile w with
    | Some _ => (w, false)
    | None => (setLock w (Some None), true)
    end.
Proof. cbn. by destruct (lockFile w). Qed.

Lemma acquireLock_held k fuel ctx timeoutMs w content :
  lockFile w = Some content ->
  (k < fuel)%nat ->
  (timeoutMs < 100 * Z.of_nat k)%Z ->
  (k = 0%nat ∨ 100 * (Z.of_nat k - 1) <= timeoutMs)%Z ->
  run (acquireLock fuel ctx timeoutMs) w =
    mkRun (DateNow :: polls k ++ [OpenWx; DateNow; ReadLock])
          (setNow w (now w + 100 * Z.of_nat k)%Z)
          (Thrown (LockTimeout timeoutMs (HeldBy content))).
Proof.
  intros Hl Hf Hlt Hge. unfold acquireLock.
  rewrite run_mbind. unfold andThen.
  change (run (act DateNow) w) with (mkRun [DateNow] w (Returned (now w))).
  cbn [outcome final trace].
  rewrite (acquireLock_loop_held k fuel ctx timeoutMs (now w) w content); try done; try lia.
Qed.

(** C6. [acquireLock] on a free marker creates it exclusively and writes the
    caller's identity; on a held marker it polls every 100 ms and, once the
    clock is past the deadline, throws a timeout naming what the holder
    recorded; [releaseLock] removes the marker and returns normally whether
    or not there was one. *)
Theorem lock_protocol k fuel ctx timeoutMs w content :
  (k < fuel)%nat ->
  (100 * (Z.of_nat k - 1) <= timeoutMs < 100 * Z.of_nat k)%Z ->
  (perform OpenWx w).2 = bool_decide (lockFile w = None)
  ∧ (lockFile w = None ->
     run (acquireLock fuel ctx timeoutMs) w =
       mkRun [DateNow; OpenWx; DateNow; WriteLock (mkLock (procPid ctx) (procHost ctx) (now w))]
             (setLock w (Some (Some (mkLock (procPid ctx) (procHost ctx) (now w)))))
             (Returned tt))
  ∧ (lockFile w = Some content ->
     run (acquireLock fuel ctx timeoutMs) w =
       mkRun (DateNow :: polls k ++ [OpenWx; DateNow; ReadLock])
             (setNow w (now w + 100 * Z.of_nat k)%Z)
             (Thrown (LockTimeout timeoutMs (HeldBy content))))
  ∧ run releaseLock w = mkRun [Rm LOCK_FILE] (setLock w None) (Returned tt)
  ∧ lockFile (final (run releaseLock w)) = None.
Proof.
  intros Hf Ht. split_and!.
  - rewrite openWx_exclusive. by destruct (lockFile w).
  - intros Hl. destruct fuel as [|fuel]; [lia|]. by apply acquireLock_free.
  - intros Hl. apply acquireLock_held; try done; lia.
  - apply run_releaseLock.
  - by rewrite run_releaseLock.
Qed.

Lemma lock_protocol_witness :
  (301 < 302)%nat
  ∧ (100 * (Z.of_nat 301 - 1) <= LOCK_TIMEOUT_MS < 100 * Z.of_nat 301)%Z
  ∧ outcome (run (acquireLock 302 (Demo.me 9 None) LOCK_TIMEOUT_MS) Demo.held)
    = Thrown (LockTimeout LOCK_TIMEOUT_MS (HeldBy (Some (mkLock 7 "elsewhere" 0)))).
Proof.
  split; [lia|]. split; [unfold LOCK_TIMEOUT_MS; lia|].
  destruct (lock_protocol 301 302 (Demo.me 9 None) LOCK_TIMEOUT_MS Demo.held
              (Some (mkLock 7 "elsewhere" 0))) as (_ & _ & H & _);
    [lia|unfold LOCK_TIMEOUT_MS; lia|].
  rewrite H; reflexivity.
Defined.

End Locking.

(** * Entering the environment that is active *)

Section Reentrancy.

#[local] Arguments acquireLock : simpl never.
#[local] Arguments enterEnv_loop : simpl never.

Lemma lockOp_quiet o : lockOp o = true -> quietOp o = true.
Proof. destruct o; try discriminate; try reflexivity. cbn. done. Qed.

Lemma lockOps_quiet tr :
  Forall (fun o => lockOp o = true) tr -> Forall (fun o => quietOp o = true) tr.
Proof. intros H. eapply Forall_impl; [exact H|]. apply lockOp_quiet. Qed.

(** One round of [enterEnv] on a tree that [name] occupies, once the lock
    is taken. *)
Lemma enterRound_active name w st :
  stateFile w = Some (Parsed st) -> activeEnv st = name ->
  run (enterRound name) w =
    mkRun [ReadState;
           AppendLog (LogText ("enterEnv(" +:+ name +:+ ") already active, skipping"));
           Rm LOCK_FILE]
          (setLock (setLog w (internalLog w ++
             [LogText ("enterEnv(" +:+ name +:+ ") already active, skipping")])) None)
          (Returned (Return false)).
Proof.
  intros Hst Hname. unfold enterRound, enterAttempt. cbn. rewrite Hst. cbn.
  rewrite Hname, String.eqb_refl. cbn.
  destruct (lockFile w) eqn:Hl; cbn; [reflexivity|].
  destruct w; cbn in *; subst; reflexivity.
Qed.

#[local] Arguments enterRound : simpl never.

Lemma enterEnv_loop_S fuel lockFuel ctx name start :
  enterEnv_loop (S fuel) lockFuel ctx name start =
    Act DateNow (fun t =>
      if (t - start >? ENTER_TIMEOUT_MS)%Z then Throw EnterTimeout
      else bind (acquireLock lockFuel ctx LOCK_TIMEOUT_MS) (fun _ =>
           bind (enterRound name) (fun r =>
             match r with
             | Continue => enterEnv_loop fuel lockFuel ctx name start
             | Return swapped => Ret swapped
             end))).
Proof. reflexivity. Qed.

Lemma enterEnv_loop_active fuel lockFuel ctx name start w st :
  stateFile w = Some (Parsed st) -> activeEnv st = name ->
  let r := run (enterEnv_loop fuel lockFuel ctx name start) w in
  Untouched w (final r)
  ∧ Forall (fun o => quietOp o = true) (trace r)
  ∧ outcome r ≠ Returned true
  ∧ (lockFile w = None -> fuel ≠ 0%nat -> lockFuel ≠ 0%nat -> now w = start ->
     outcome r = Returned false
     ∧ lockFile (final r) = None
     ∧ Forall (fun o => isSleep o = false) (trace r)).
Proof.
  intros Hst Hname. cbn zeta.
  destruct fuel as [|fuel].
  { cbn. split_and!; try done. }
  remember (run (enterEnv_loop (S fuel) lockFuel ctx name start) w) as r eqn:Hr.
  rewrite enterEnv_loop_S in Hr. cbn in Hr.
  destruct (now w - start >? ENTER_TIMEOUT_MS)%Z eqn:Ht.
  { cbn in Hr. subst r. cbn. split_and!; try done.
    - repeat constructor.
    - intros _ _ _ Hn. rewrite Hn, Z.sub_diag in Ht. discriminate. }
  rewrite run_bind in Hr.
  pose proof (acquireLock_quiet lockFuel ctx LOCK_TIMEOUT_MS w) as Hq. cbn zeta in Hq.
  destruct Hq as ((Hg & Hs & Hsf) & Htr & Hc & Hlog & Hret & Hthr).
  assert (Hfree : lockFile w = None -> lockFuel ≠ 0%nat ->
            run (acquireLock lockFuel ctx LOCK_TIMEOUT_MS) w =
            mkRun [DateNow; OpenWx; DateNow;
                   WriteLock (mkLock (procPid ctx) (procHost ctx) (now w))]
              (setLock w (Some (Some (mkLock (procPid ctx) (procHost ctx) (now w)))))
              (Returned tt)).
  { intros Hl Hf. destruct lockFuel; [done|]. by apply acquireLock_free. }
  destruct (run (acquireLock lockFuel ctx LOCK_TIMEOUT_MS) w) as [tr fw [[]|e|]];
    cbn in *; unfold andThen in Hr; cbn in Hr.
  - rewrite run_bind, (enterRound_active name fw st) in Hr by congruence.
    unfold andThen in Hr. cbn in Hr.
    subst r. cbn. split_and!; try done.
    + constructor; [done|]. apply Forall_app. split; [by apply lockOps_quiet|].
      repeat constructor.
    + intros Hl _ Hf _. specialize (Hfree Hl Hf). injection Hfree as -> ->.
      split_and!; try done. repeat constructor.
  - subst r. cbn. split_and!; try done.
    + constructor; [done|]. by apply lockOps_quiet.
    + intros Hl _ Hf _. specialize (Hfree Hl Hf). discriminate.
  - subst r. cbn. split_and!; try done.
    + constructor; [done|]. by apply lockOps_quiet.
    + intros Hl _ Hf _. specialize (Hfree Hl Hf). discriminate.
Qed.

(** C4. While [name] occupies the tree, [enter name] performs no snapshot,
    reset or restore and never waits for the environment; the tree, the
    bundles and the occupancy record stay as they are, and it never reports
    a swap.  With the slot in place and the lock free it returns [false]
    without sleeping at all. *)
Theorem enter_active_is_noop fuel ctx name w st :
  stateFile w = Some (Parsed st) -> activeEnv st = name ->
  let r := run (enterEnv fuel ctx name) w in
  Untouched w (final r)
  ∧ Forall (fun o => quietOp o = true) (trace r)
  ∧ outcome r ≠ Returned true
  ∧ (is_Some (slots w !! name) -> lockFile w = None -> fuel ≠ 0%nat ->
     outcome r = Returned false
     ∧ lockFile (final r) = None
     ∧ Forall (fun o => isSleep o = false) (trace r)).
Proof.
  intros Hst Hname. cbn zeta.
  remember (run (enterEnv fuel ctx name) w) as r eqn:Hr.
  unfold enterEnv in Hr. cbn in Hr.
  set (w1 := setLog w (internalLog w ++ [LogText ("enterEnv(" +:+ name +:+ ") start")])) in *.
  assert (H1 : forall w2, Untouched w w2 -> lockFile w2 = lockFile w -> now w2 = now w ->
     let r2 := run (enterEnv_loop fuel fuel ctx name (now w)) w2 in
     Untouched w (final r2)
     ∧ Forall (fun o => quietOp o = true) (trace r2)
     ∧ outcome r2 ≠ Returned true
     ∧ (lockFile w = None -> fuel ≠ 0%nat ->
        outcome r2 = Returned false ∧ lockFile (final r2) = None
        ∧ Forall (fun o => isSleep o = false) (trace r2))).
  { intros w2 (Hg & Hs & Hsf) Hl Hn. cbn zeta.
    destruct (enterEnv_loop_active fuel fuel ctx name (now w) w2 st)
      as ((Hg' & Hs' & Hsf') & Hq & Ho & Hfree); [congruence|done|].
    split; [|split; [|split]]; try done.
    - unfold Untouched. split_and!; congruence.
    - intros Hl' Hf. apply Hfree; congruence. }
  assert (H2 : forall (pre : list Op) (r2 : Run bool),
     Forall (fun o => quietOp o = true) pre ->
     Forall (fun o => isSleep o = false) pre ->
     Untouched w (final r2)
     ∧ Forall (fun o => quietOp o = true) (trace r2)
     ∧ outcome r2 ≠ Returned true
     ∧ (lockFile w = None -> fuel ≠ 0%nat ->
        outcome r2 = Returned false ∧ lockFile (final r2) = None
        ∧ Forall (fun o => isSleep o = false) (trace r2)) ->
     Untouched w (final r2)
     ∧ Forall (fun o => quietOp o = true) (pre ++ trace r2)
     ∧ outcome r2 ≠ Returned true
     ∧ (is_Some (slots w !! name) -> lockFile w = None -> fuel ≠ 0%nat ->
        outcome r2 = Returned false ∧ lockFile (final r2) = None
        ∧ Forall (fun o => isSleep o = false) (pre ++ trace r2))).
  { intros pre r2 Hp1 Hp2 (Hu & Hq & Ho & Hfree).
    split; [|split; [|split]]; try done.
    - apply Forall_app; done.
    - intros _ Hl Hf. destruct (Hfree Hl Hf) as (? & ? & ?).
      split; [|split]; try done. apply Forall_app; done. }
  assert (H3 : forall tr w2, Forall (fun o => quietOp o = true) tr -> Untouched w w2 ->
     slots w !! name = None ->
     let r2 := mkRun tr w2 (Thrown (EnvironmentNotFound name)) in
     Untouched w (final r2)
     ∧ Forall (fun o => quietOp o = true) (trace r2)
     ∧ outcome r2 ≠ Returned true
     ∧ (is_Some (slots w !! name) -> lockFile w = None -> fuel ≠ 0%nat ->
        outcome r2 = Returned false ∧ lockFile (final r2) = None
        ∧ Forall (fun o => isSleep o = false) (trace r2))).
  { intros tr w2 Hq Hu Hn. cbn. split; [|split; [|split]]; try done.
    rewrite Hn. intros [? ?]. done. }
  destruct (config w) as [c|] eqn:Hc; cbn in Hr;
    destruct (slots w !! name) as [s|] eqn:Hslot; cbn in Hr; subst r.
  - apply (H2 [AppendLog (LogText ("enterEnv(" +:+ name +:+ ") start")); MkdirEnvs;
               Access CONFIG_FILE; Access (EnvDir name); DateNow]
              (run (enterEnv_loop fuel fuel ctx name (now w)) w1)).
    + repeat constructor.
    + repeat constructor.
    + apply H1; done.
  - apply H3; [repeat constructor|done|done].
  - apply (H2 [AppendLog (LogText ("enterEnv(" +:+ name +:+ ") start")); MkdirEnvs;
               Access CONFIG_FILE; WriteConfig ("{}" +:+ nl); Access (EnvDir name); DateNow]
              (run (enterEnv_loop fuel fuel ctx name (now w))
                   (setConfig w1 (Some ("{}" +:+ nl))))).
    + repeat constructor.
    + repeat constructor.
    + apply H1; done.
  - apply H3; [repeat constructor|done|done].
Qed.

End Reentrancy.

(** * Creating an environment *)

Section Creation.

Lemma createEnv_paths_equal name : createEnv name true = createEnv name false.
Proof. reflexivity. Qed.

Lemma exists_EnvDir w name : exists_ w (EnvDir name) = bool_decide (is_Some (slots w !! name)).
Proof. reflexivity. Qed.

Lemma emptyBundle_emptySnapshot g t : emptySnapshot g (emptyBundle g t).
Proof. unfold emptySnapshot, emptyBundle. cbn. split_and!; try done. by eexists. Qed.

Lemma createEnv_fresh name empty w :
  slots w !! name = None ->
  outcome (run (createEnv name empty) w) = Returned tt
  ∧ slots (final (run (createEnv name empty) w))
    = <[name := emptyBundle (git w) (now w)]> (slots w).
Proof.
  intros E. destruct empty; cbn.
  all: destruct (config w); cbn; rewrite E; cbn.
  all: repeat (progress (unfold slotOf, updSlot; cbn; rewrite ?lookup_insert_eq, ?insert_insert_eq, ?E)).
  all: done.
Qed.


End Creation.

(** * Patches, archives and the reset, on repositories *)

Section Patches.

Lemma lookup_diffTrees (a b : Tree) p :
  diffTrees a b !! p = if decide (a !! p = b !! p) then None else Some (a !! p, b !! p).
Proof.
  unfold diffTrees. rewrite lookup_merge.
  destruct (a !! p) eqn:Ea, (b !! p) eqn:Eb; simpl; repeat case_decide; congruence.
Qed.

Lemma lookup_patched (q : Patch) (t : Tree) p :
  patched q t !! p = match q !! p with Some (_, new) => new | None => t !! p end.
Proof.
  unfold patched. rewrite lookup_merge.
  destruct (q !! p) as [[o n]|] eqn:Eq, (t !! p) eqn:Et; simpl; reflexivity.
Qed.

Lemma patched_empty (t : Tree) : patched ∅ t = t.
Proof. apply map_eq; intros p. rewrite lookup_patched, lookup_empty. done. Qed.

Lemma applyPatch_empty (t : Tree) : applyPatch ∅ t = Some t.
Proof.
  unfold applyPatch. case_decide as H.
  - by rewrite patched_empty.
  - destruct H. apply map_Forall_empty.
Qed.

Lemma diffTrees_empty_eq (a b : Tree) : diffTrees a b = ∅ -> a = b.
Proof.
  intros H. apply map_eq; intros p.
  assert (E := lookup_diffTrees a b p). rewrite H, lookup_empty in E.
  case_decide; congruence.
Qed.

Lemma applyPatch_diffTrees (a b : Tree) : applyPatch (diffTrees a b) a = Some b.
Proof.
  unfold applyPatch. case_decide as H.
  - f_equal. apply map_eq; intros p. rewrite lookup_patched, lookup_diffTrees.
    case_decide; done.
  - destruct H. intros p e. rewrite lookup_diffTrees. case_decide; [done|].
    intros [= <-]. done.
Qed.

Lemma lookup_diffWork g p :
  diffWork g !! p =
    match index g !! p with
    | None => None
    | Some i => if decide (Some i = work g !! p) then None else Some (Some i, work g !! p)
    end.
Proof.
  unfold diffWork. rewrite lookup_merge.
  destruct (index g !! p) eqn:Ei, (work g !! p) eqn:Ew; simpl; repeat case_decide; congruence.
Qed.

Lemma elem_of_untrackedPaths g p :
  p ∈ untrackedPaths g <-> is_Some (work g !! p) ∧ index g !! p = None ∧ ignored g p = false.
Proof.
  unfold untrackedPaths. rewrite elem_of_elements, elem_of_dom.
  split.
  - intros [c Hc]. apply map_lookup_filter_Some in Hc as [Hw [Hi Hg]]. simpl in *. eauto.
  - intros [[c Hc] [Hi Hg]]. exists c. apply map_lookup_filter_Some. simpl. eauto.
Qed.

Lemma elem_of_untrackedFiltered l p :
  p ∈ untrackedFiltered l <-> p ∈ l ∧ p ≠ "" ∧ outsideControl p = true.
Proof.
  unfold untrackedFiltered. rewrite !list_elem_of_In, !filter_In, negb_true_iff, String.eqb_neq.
  tauto.
Qed.

Lemma components_nonempty s : components s ≠ [].
Proof. destruct s as [|c s]; simpl; [done|]. destruct (Ascii.eqb c "/"); [done|]. destruct (components s); done. Qed.

Lemma outsideControl_false_excluded p : outsideControl p = false -> cleanExcluded p = true.
Proof.
  unfold outsideControl, cleanExcluded, CCENV_DIR. intros H.
  apply bool_decide_eq_true.
  apply andb_false_iff in H as [H|H]; apply negb_false_iff in H.
  - apply String.eqb_eq in H. subst p. vm_compute. apply list_elem_of_here.
  - do 7 (destruct p as [|? p]; simpl in H; try discriminate;
          match type of H with
          | (if ?d then _ else _) = true => destruct d as [<-|]; try discriminate
          end).
    simpl. pose proof (components_nonempty p). destruct (components p); [done|].
    simpl. apply list_elem_of_here.
Qed.

Lemma lookup_tarCreate paths g p :
  (tarCreate paths g).1 !! p = if decide (p ∈ paths) then work g !! p else None.
Proof.
  unfold tarCreate; simpl.
  destruct (filter _ (work g) !! p) eqn:E.
  - apply map_lookup_filter_Some in E as [E1 E2]. simpl in E2. case_decide; done.
  - apply map_lookup_filter_None in E. case_decide as Hin; [|done].
    destruct E as [E|E]; [done|]. destruct (work g !! p) eqn:Ew; [|done].
    exfalso. by apply (E s).
Qed.

Lemma tarCreate_ok g : (tarCreate (untrackedFiltered (untrackedPaths g)) g).2 = true.
Proof.
  unfold tarCreate; simpl. apply forallb_forall. intros p Hp.
  apply list_elem_of_In, elem_of_untrackedFiltered in Hp as [Hp _].
  apply elem_of_untrackedPaths in Hp as [Hp _]. by apply bool_decide_eq_true.
Qed.

Lemma lookup_reset_clean_work g p :
  work (gitClean (resetHard g)) !! p =
    match headTree g !! p with
    | Some c => Some c
    | None => match index g !! p with
              | Some _ => None
              | None => if decide (ignored g p = true ∨ cleanExcluded p = true)
                        then work g !! p else None
              end
    end.
Proof.
  unfold gitClean, resetHard; simpl.
  destruct (headTree g !! p) as [c|] eqn:Eh.
  - apply map_lookup_filter_Some. simpl. split.
    + apply lookup_union_Some_l. done.
    + left. eauto.
  - destruct (index g !! p) as [i|] eqn:Ei.
    + apply map_lookup_filter_None. left.
      apply lookup_union_None. split; [done|].
      apply map_lookup_filter_None. right. simpl. intros x _. congruence.
    + case_decide as Hk.
      * destruct (work g !! p) as [c|] eqn:Ew.
        -- apply map_lookup_filter_Some. simpl. split.
           ++ rewrite lookup_union_r by done. apply map_lookup_filter_Some. done.
           ++ right. done.
        -- apply map_lookup_filter_None. left. apply lookup_union_None. split; [done|].
           apply map_lookup_filter_None. left. done.
      * apply map_lookup_filter_None. right. simpl. intros x _ [[? H]|H]; [congruence|]. done.
Qed.

Section RoundTrip.
Variable g : Git.
Hypothesis Hcf : clashFree g.

(** The archive of the snapshot, and the working tree after the reset
    and the extraction of that archive. *)
Let arch : Archive := (tarCreate (untrackedFiltered (untrackedPaths g)) g).1.
Let extracted : Tree := arch ∪ work (gitClean (resetHard g)).

Lemma lookup_arch p :
  arch !! p = if decide (index g !! p = None ∧ ignored g p = false ∧ outsideControl p = true)
              then work g !! p else None.
Proof.
  destruct Hcf as [Hne _].
  unfold arch. rewrite lookup_tarCreate.
  case_decide as Hin.
  - apply elem_of_untrackedFiltered in Hin as [Hin [Hn Ho]].
    apply elem_of_untrackedPaths in Hin as [Hw [Hi Hg]]. rewrite decide_True; done.
  - case_decide as Hc; [|done]. destruct Hc as [Hi [Hg Ho]].
    destruct (work g !! p) as [c|] eqn:Ew; [|done]. destruct Hin.
    apply elem_of_untrackedFiltered. split_and!; [|congruence|done].
    apply elem_of_untrackedPaths. eauto.
Qed.

Lemma lookup_extracted p :
  extracted !! p =
    match headTree g !! p with
    | Some c => Some c
    | None => match index g !! p with
              | Some _ => None
              | None => work g !! p
              end
    end.
Proof.
  destruct Hcf as [Hne Hcl]. unfold extracted.
  destruct (arch !! p) as [c|] eqn:Ea.
  - rewrite (lookup_union_Some_l _ _ _ _ Ea).
    rewrite lookup_arch in Ea. case_decide as Hc; [|done]. destruct Hc as [Hi [Hg Ho]].
    rewrite Hi. destruct (headTree g !! p) eqn:Eh; [|done].
    rewrite Hcl in Ea; [done|eauto|done].
  - rewrite lookup_union_r by done. rewrite lookup_reset_clean_work.
    destruct (headTree g !! p) eqn:Eh; [done|].
    destruct (index g !! p) eqn:Ei; [done|].
    case_decide as Hk; [done|].
    rewrite lookup_arch in Ea. rewrite decide_True in Ea; [done|].
    split_and!; [done| |].
    + destruct (ignored g p) eqn:?; [|done]. destruct Hk. by left.
    + destruct (outsideControl p) eqn:Ho; [done|].
      destruct Hk. right. by apply outsideControl_false_excluded.
Qed.

Lemma staged_fits_extracted : patchFits (diffCached g) extracted.
Proof.
  destruct Hcf as [Hne Hcl].
  intros p e. unfold diffCached. rewrite lookup_diffTrees.
  case_decide as Hd; [done|]. intros [= <-]. simpl.
  rewrite lookup_extracted. destruct (headTree g !! p) eqn:Eh; [done|].
  destruct (index g !! p) eqn:Ei; done.
Qed.

Lemma lookup_staged_extracted p :
  patched (diffCached g) extracted !! p =
    match index g !! p with
    | Some i => Some i
    | None => match headTree g !! p with Some _ => None | None => work g !! p end
    end.
Proof.
  rewrite lookup_patched. unfold diffCached. rewrite lookup_diffTrees.
  case_decide as Hd.
  - rewrite lookup_extracted, Hd. destruct (index g !! p) eqn:Ei; done.
  - destruct (index g !! p) eqn:Ei; [done|]. destruct (headTree g !! p); done.
Qed.

Lemma unstaged_fits_staged : patchFits (diffWork g) (patched (diffCached g) extracted).
Proof.
  intros p e. rewrite lookup_diffWork.
  destruct (index g !! p) as [i|] eqn:Ei; [|done].
  case_decide; [done|]. intros [= <-]. simpl.
  rewrite lookup_staged_extracted, Ei. done.
Qed.

Lemma unstaged_staged_extracted :
  patched (diffWork g) (patched (diffCached g) extracted) = work g.
Proof.
  destruct Hcf as [Hne Hcl].
  apply map_eq; intros p. rewrite lookup_patched, lookup_diffWork, lookup_staged_extracted.
  destruct (index g !! p) as [i|] eqn:Ei.
  - case_decide; done.
  - destruct (headTree g !! p) eqn:Eh; [|done]. symmetry. apply Hcl; eauto.
Qed.
End RoundTrip.

(** Git prints a plain path as it is. *)
Lemma cQuote_plain p : plainPath p = true -> cQuote p = p.
Proof.
  unfold plainPath, cQuote. intros H.
  repeat (apply andb_true_iff in H as [H ?]).
  destruct (existsb quotedByGit (list_ascii_of_string p)) eqn:E; [|done].
  apply existsb_exists in E as (c & Hin & Hq).
  match goal with
  | F : forallb _ (list_ascii_of_string p) = true |- _ =>
      rewrite forallb_forall in F; specialize (F c Hin)
  end.
  by rewrite Hq in *.
Qed.

Lemma lsOthers_plain g :
  forallb plainPath (untrackedPaths g) = true -> lsOthers g = untrackedPaths g.
Proof.
  unfold lsOthers. intros H. rewrite forallb_forall in H.
  induction (untrackedPaths g) as [|p l IH]; [done|]. cbn.
  rewrite cQuote_plain by (apply H; left; done).
  f_equal. apply IH. intros q Hq. apply H. by right.
Qed.

Lemma ordinary_listed g : ordinary g = true -> lsOthers g = untrackedPaths g.
Proof.
  unfold ordinary. intros H. repeat (apply andb_true_iff in H as [H ?]).
  by apply lsOthers_plain.
Qed.

Lemma tarCreate_nil g : (tarCreate [] g).1 = ∅.
Proof.
  unfold tarCreate; simpl. apply map_eq; intros p. rewrite lookup_empty.
  apply map_lookup_filter_None. right. intros c _ H. simpl in H. by apply not_elem_of_nil in H.
Qed.

Lemma applyPatch_fits (p : Patch) (t : Tree) : patchFits p t -> applyPatch p t = Some (patched p t).
Proof. intros H. unfold applyPatch. by rewrite decide_True. Qed.

(** ** What the bundle of a snapshot holds *)

Lemma ordinary_valid g p :
  ordinary g = true -> p ∈ pathsOf g -> validPath p = true ∧ outsideControl p = true.
Proof.
  unfold ordinary. intros H Hp. repeat (apply andb_true_iff in H as [H ?]).
  repeat match goal with
         | F : forallb _ (pathsOf g) = true |- _ => rewrite forallb_forall in F
         end.
  apply list_elem_of_In in Hp. split; auto.
Qed.

Lemma elem_of_pathsOf_work g p : is_Some (work g !! p) -> p ∈ pathsOf g.
Proof.
  intros H. unfold pathsOf. rewrite elem_of_elements, !elem_of_union, !elem_of_dom. auto.
Qed.

Lemma ordinary_noEmpty g : ordinary g = true -> work g !! "" = None.
Proof.
  intros H. destruct (work g !! "") eqn:E; [|done].
  destruct (ordinary_valid g "" H) as [Hv _]; [apply elem_of_pathsOf_work; eauto|done].
Qed.

Lemma lookup_archiveOf g p :
  archiveOf g !! p
  = if decide (index g !! p = None ∧ ignored g p = false ∧ outsideControl p = true)
    then work g !! p else None.
Proof.
  unfold archiveOf, untrackedFiles. apply option_eq; intros c.
  rewrite map_lookup_filter_Some, map_lookup_filter_Some. cbn.
  case_decide as Hd; [tauto|]. split; [tauto|done].
Qed.

Lemma archive_archiveOf g :
  work g !! "" = None ->
  (tarCreate (untrackedFiltered (untrackedPaths g)) g).1 = archiveOf g.
Proof.
  intros Hne. apply map_eq; intros p. rewrite lookup_archiveOf, lookup_tarCreate.
  case_decide as Hin.
  - apply elem_of_untrackedFiltered in Hin as [Hin [Hn Ho]].
    apply elem_of_untrackedPaths in Hin as [Hw [Hi Hg]]. rewrite decide_True; done.
  - case_decide as Hc; [|done]. destruct Hc as [Hi [Hg Ho]].
    destruct (work g !! p) as [c|] eqn:Ew; [|done]. destruct Hin.
    apply elem_of_untrackedFiltered. split_and!; [|congruence|done].
    apply elem_of_untrackedPaths. eauto.
Qed.

Lemma archive_listed g :
  work g !! "" = None ->
  (0 <? length (untrackedFiltered (untrackedPaths g)))%nat
  = negb (bool_decide (archiveOf g = ∅)).
Proof.
  intros Hne. rewrite <- (archive_archiveOf g Hne).
  destruct (untrackedFiltered (untrackedPaths g)) as [|p l] eqn:El.
  - rewrite tarCreate_nil. by rewrite bool_decide_eq_true_2.
  - cbn [length]. rewrite bool_decide_eq_false_2; [done|].
    intros He.
    assert (Hp : p ∈ untrackedFiltered (untrackedPaths g)) by (rewrite El; left).
    pose proof Hp as Hq.
    apply elem_of_untrackedFiltered in Hp as [Hp _].
    apply elem_of_untrackedPaths in Hp as [[c Hw] _].
    assert (E := lookup_tarCreate (p :: l) g p).
    rewrite He, lookup_empty, decide_True, Hw in E by left. done.
Qed.

(** The bundle [dumpEnv] writes holds a snapshot of the repository. *)
Lemma dumped_snapshotOf g t old : work g !! "" = None -> snapshotOf g (dumped g t old).
Proof.
  intros Hne. unfold snapshotOf, dumped. cbn [staged unstaged untracked info].
  split_and!; try done.
  - rewrite archive_listed, archive_archiveOf by done.
    case_decide as He.
    + by rewrite bool_decide_eq_true_2.
    + by rewrite bool_decide_eq_false_2.
  - by eexists.
Qed.

End Patches.

(** * The steps of a restore *)

Ltac exec Hs :=
  repeat (progress (unfold slotOf, applyFrom, notEmpty, exists_, patchFile, slotHas;
                    cbn; rewrite ?Hs; cbn)).

Ltac unit_answer r :=
  cbn in r;
  lazymatch type of r with
  | unit => destruct r
  | _ => idtac
  end.

(** Follow a path through a program, answer by answer. *)
Ltac follow H :=
  repeat (cbn in H;
          lazymatch type of H with
          | _ = _ ∧ _ = _ =>
              let E := fresh in let E' := fresh in destruct H as [E E']; subst
          | ∃ _ _, _ =>
              let r := fresh "r" in
              destruct H as (r & ? & -> & H); unit_answer r
          | context [match ?x with _ => _ end] =>
              first [ is_var x; destruct x | destruct x eqn:? ]
          end).

(** Walk a given path. *)
Ltac walk :=
  repeat (cbn;
          first [ split; reflexivity
                | eexists _, _; split; [reflexivity|]
                | match goal with
                  | E : ?c = _ |- context [?c] => rewrite E
                  end ]).

Section RestoreOrder.

Lemma Framed_refl w : Framed w w.
Proof. by repeat split. Qed.

Lemma Framed_trans w1 w2 w3 : Framed w1 w2 -> Framed w2 w3 -> Framed w1 w3.
Proof. unfold Framed. intros (?&?&?&?&?&?&?) (?&?&?&?&?&?&?). split_and!; congruence. Qed.

Lemma restoreFiles_steps name w :
  let r := run (restoreFiles name) w in
  stepsOf (trace r) `prefix_of`
    (archiveSteps name (slotOf w name) ++ stagedSteps name (slotOf w name)
     ++ unstagedSteps name (slotOf w name))
  ∧ (outcome r = Returned tt ->
     stepsOf (trace r) =
       archiveSteps name (slotOf w name) ++ stagedSteps name (slotOf w name)
       ++ unstagedSteps name (slotOf w name))
  ∧ Access (EnvFile name UntrackedTar) ∈ trace r
  ∧ (forall e, outcome r = Thrown e -> restoreError e)
  ∧ outcome r ≠ Diverged
  ∧ Framed w (final r).
Proof.
  cbn zeta. unfold restoreFiles, archiveSteps, stagedSteps, unstagedSteps, nonEmptyPatch, stepsOf, restoreError.
  destruct (slots w !! name) as [[i [p|] [q|] [a|] ul]|] eqn:Hs; exec Hs.
  all: repeat (match goal with
       | |- context [match applyWork ?q ?g with _ => _ end] =>
           destruct (applyWork q g) eqn:?
       | |- context [match applyCached ?q ?g with _ => _ end] =>
           destruct (applyCached q g) eqn:?
       | |- context [bool_decide (?p = ∅)] => destruct (bool_decide (p = ∅)) eqn:?
       end; exec Hs).
  all: split_and!; try done; try apply list_elem_of_here; try (by eexists);
       try (intros ? [= <-]; auto).
Qed.

Lemma restorePosition_steps name w :
  let r := run (restorePosition name) w in
  outcome r = Returned tt
  ∧ stepsOf (trace r) = positionSteps (info (slotOf w name)) (git w)
  ∧ Framed w (final r).
Proof.
  cbn zeta. unfold restorePosition, positionSteps, stepsOf, gitCheckout.
  destruct (slots w !! name) as [[[[raw|i]|] st us ut ul]|] eqn:Hs;
    rewrite run_tryCatch; unfold orElse; exec Hs; try done.
  destruct (truthy (branch i) && negb (branch i =? "HEAD")) eqn:Hb; exec Hs.
  - destruct (checkout (Branch (branch i)) (git w)) as [g|] eqn:Hc; exec Hs; [done|].
    destruct (truthy (headHash i)) eqn:Hh; exec Hs; [|done].
    destruct (checkout (CommitId (headHash i)) (git w)) as [g|] eqn:Hc'; exec Hs; done.
  - destruct (truthy (headHash i)) eqn:Hh; exec Hs; [|done].
    destruct (checkout (CommitId (headHash i)) (git w)) as [g|] eqn:Hc'; exec Hs; done.
Qed.

#[local] Arguments restorePosition : simpl never.
#[local] Arguments restoreFiles : simpl never.
#[local] Arguments exists_ : simpl never.

Lemma stepsOf_app l1 l2 : stepsOf (l1 ++ l2) = stepsOf l1 ++ stepsOf l2.
Proof. unfold stepsOf. apply List.filter_app. Qed.

Lemma slotOf_Framed w w' name : Framed w w' -> slotOf w' name = slotOf w name.
Proof. intros (Hs & _). unfold slotOf. by rewrite Hs. Qed.

(** The run of [restoreEnv], phase by phase: the optional reset, the
    position step, the file-level restoration. *)
Lemma restoreEnv_run name clean w :
  let rP := positionRun name (resetWorld clean w) in
  let rF := run (restoreFiles name) (final rP) in
  outcome rP = Returned tt
  ∧ Framed w (final rP)
  ∧ stepsOf (trace rP) = positionSteps (info (slotOf w name)) (afterReset clean (git w))
  ∧ run (restoreEnv name clean) w =
      mkRun (resetSteps clean ++ Access (EnvFile name InfoJson) :: trace rP ++ trace rF)
            (final rF) (outcome rF).
Proof.
  cbn zeta. unfold restoreEnv, positionRun.
  set (w0 := resetWorld clean w).
  assert (Hw0 : run (if clean then cleanWorkspace else Ret tt) w =
                mkRun (resetSteps clean) w0 (Returned tt)).
  { subst w0. destruct clean; reflexivity. }
  assert (Hf0 : Framed w w0) by (subst w0; destruct clean; by repeat split).
  assert (Hg0 : git w0 = afterReset clean (git w)) by (subst w0; by destruct clean).
  rewrite run_mbind, Hw0. unfold andThen. cbn.
  assert (Hsl : slotOf w0 name = slotOf w name) by (by apply slotOf_Framed).
  assert (Hex : exists_ w0 (EnvFile name InfoJson) = slotHas (slotOf w0 name) InfoJson).
  { unfold exists_, slotOf. by destruct (slots w0 !! name). }
  rewrite Hex. unfold slotHas.
  destruct (info (slotOf w0 name)) as [i|] eqn:Hi.
  - rewrite bool_decide_eq_true_2 by eauto. rewrite run_mbind.
    pose proof (restorePosition_steps name w0) as HP. cbn zeta in HP.
    destruct (run (restorePosition name) w0) as [trP wP oP].
    cbn [trace final outcome] in HP.
    destruct HP as (-> & HPs & HPf). unfold andThen. cbn [trace final outcome].
    split_and!; try done.
    + by eapply Framed_trans.
    + by rewrite HPs, Hi, <- Hsl, Hi, Hg0.
  - rewrite bool_decide_eq_false_2 by (intros [? ?]; done).
    cbn. split_and!; try done.
    by rewrite <- Hsl, Hi.
Qed.

Lemma run_Path {A : Type} (p : Prog A) w : Path p (answers p w) (outcome (run p w)).
Proof.
  revert w. induction p as [a|e| |o k IH]; intros w; cbn; try done.
  eexists _, _. split; [reflexivity|]. apply IH.
Qed.

Lemma Path_bind {A B : Type} (p : Prog A) (k : A -> Prog B) tr out :
  Path (bind p k) tr out <->
    (∃ a tr1 tr2, Path p tr1 (Returned a) ∧ Path (k a) tr2 out ∧ tr = tr1 ++ tr2)
    ∨ (∃ e, Path p tr (Thrown e) ∧ out = Thrown e)
    ∨ (Path p tr Diverged ∧ out = Diverged).
Proof.
  revert tr. induction p as [a|e| |o c IH]; intros tr; cbn.
  - split.
    + intros H. left. by exists a, [], tr.
    + intros [(a' & tr1 & tr2 & [-> Ha] & Hk & ->)|[(e & [_ ?] & _)|[[_ ?] _]]]; try done.
      by injection Ha as <-.
  - split.
    + intros [-> ->]. right. left. by exists e.
    + intros [(a' & tr1 & tr2 & [_ ?] & _)|[(e' & [-> He] & ->)|[[_ ?] _]]]; try done.
      by injection He as <-.
  - split.
    + intros [-> ->]. right. right. done.
    + intros [(a' & tr1 & tr2 & [_ ?] & _)|[(e' & [_ ?] & _)|[[-> _] ->]]]; done.
  - split.
    + intros (r & tr' & -> & H). apply IH in H
        as [(a & tr1 & tr2 & H1 & H2 & ->)|[(e & H1 & ->)|[H1 ->]]].
      * left. exists a, (answered o r :: tr1), tr2. split_and!; [|done|done]. by exists r, tr1.
      * right. left. exists e. split; [|done]. by exists r, tr'.
      * right. right. split; [|done]. by exists r, tr'.
    + intros [(a & tr1 & tr2 & (r & tr' & -> & H1) & H2 & ->)
             |[(e & (r & tr' & -> & H1) & ->)|[(r & tr' & -> & H1) ->]]];
        exists r; eexists; (split; [reflexivity|]); apply IH.
      * left. by exists a, tr', tr2.
      * right. left. by exists e.
      * right. right. done.
Qed.

Lemma sameWays_trans {A : Type} (p q r : Prog A) :
  sameWays p q -> sameWays q r -> sameWays p r.
Proof. intros H1 H2 tr out. rewrite (H1 tr out). apply H2. Qed.

Lemma sameWays_bind {A B : Type} (p : Prog A) (k k' : A -> Prog B) :
  (∀ a, sameWays (k a) (k' a)) -> sameWays (bind p k) (bind p k').
Proof.
  intros Hk tr out. rewrite !Path_bind.
  split; (intros [(a & tr1 & tr2 & H1 & H2 & ->)|H]; [left|by right]);
    exists a, tr1, tr2; split_and!; try done; by apply Hk.
Qed.

Lemma sameWays_assoc {A B C : Type} (p : Prog A) (k : A -> Prog B) (h : B -> Prog C) :
  sameWays (bind (bind p k) h) (bind p (fun a => bind (k a) h)).
Proof.
  induction p as [a|e| |o c IH]; intros tr out; cbn; try done.
  split; intros (r & tr' & -> & H); exists r, tr'; (split; [done|]); by apply IH.
Qed.

Lemma sameWays_ret (p : Prog unit) : sameWays (bind p (fun _ => Ret tt)) p.
Proof.
  induction p as [[]|e| |o c IH]; intros tr out; cbn; try done.
  split; intros (r & tr' & -> & H); exists r, tr'; (split; [done|]); by apply IH.
Qed.

Lemma chain_inOrder ps phases :
  Forall2 Realises ps phases ->
  ∀ tr out, Path (chain ps) tr out <-> inOrder phases tr out.
Proof.
  induction 1 as [|p phase ps phases Hp _ IH]; intros tr out; cbn; [done|].
  rewrite Path_bind. split.
  - intros [(a & tr1 & tr2 & H1 & H2 & ->)|[(e & H1 & ->)|[H1 ->]]].
    + apply Hp in H1 as [[H1 _]|(e & _ & ?)]; [|done].
      exists tr1, tr2, GoesOn. split; [done|]. split; [done|]. by apply IH.
    + apply Hp in H1 as [[_ ?]|(e' & H1 & [= <-])]; [done|].
      exists tr, [], (Stops e). split; [by rewrite app_nil_r|]. split; done.
    + apply Hp in H1 as [[_ ?]|(e' & _ & ?)]; done.
  - intros (tr1 & tr2 & v & -> & Hph & Hv). destruct v as [|e].
    + left. exists tt, tr1, tr2. split; [|split; [by apply IH|done]].
      apply Hp. by left.
    + destruct Hv as [-> ->]. right. left. exists e. split; [|done].
      rewrite app_nil_r. apply Hp. right. by exists e.
Qed.

Lemma reset_realises clean : Realises (resetProg clean) (resetPhase clean).
Proof.
  intros tr out. unfold resetProg, resetPhase. split.
  - intros H. destruct clean; follow H; by left.
  - intros [[[-> _] ->]|(e & [_ ?] & _)]; [|done]. destruct clean; walk.
Qed.

Lemma position_realises name : Realises (positionProg name) (positionPhase name).
Proof.
  intros tr out. unfold positionProg, positionPhase, restorePosition, fileExists,
    gitCheckout, shell, logInternalError, act. split.
  - intros H. follow H; left; (split; [split; [|done]|done]).
    all: first [ apply position_none | apply position_missing | apply position_unreadable
               | apply position_recorded;
                 first [ by apply attempt_branch
                       | by apply (attempt_fallback _ true)
                       | by apply (attempt_fallback _ false)
                       | by apply attempt_branch_only
                       | by apply (attempt_commit _ true)
                       | by apply (attempt_commit _ false)
                       | by apply attempt_nothing ] ].
  - intros [[[Hp _] ->]|(e & [_ ?] & _)]; [|done].
    destruct Hp as [| |raw|i tr' Ha]; [walk..|].
    destruct Ha as [Hb|[] Hb Hh|Hb Hh|[] Hb Hh|Hb Hh]; unfold branchRecorded in Hb; walk.
Qed.

Lemma archive_realises name : Realises (archiveProg name) (archivePhase name).
Proof.
  intros tr out. unfold archiveProg, archivePhase, fileExists, shell, act. split.
  - intros H. follow H; [left|right; eexists|left]; (split; [|done]); auto.
  - intros [[[[-> _]|[[-> _]|[_ ?]]] ->]|(e & [[_ ?]|[[_ ?]|[-> [= <-]]]] & ->)];
      try done; walk.
Qed.

Lemma staged_realises name : Realises (stagedProg name) (stagedPhase name).
Proof.
  intros tr out. unfold stagedProg, stagedPhase, fileNotEmpty, shell, act. split.
  - intros H. follow H; [left|right; eexists|right; eexists|left]; (split; [|done]); auto.
  - intros [[[[-> _]|[[-> _]|[[_ ?]|[_ ?]]]] ->]
           |(e & [[_ ?]|[[_ ?]|[[-> [= <-]]|[-> [= <-]]]]] & ->)];
      try done; walk.
Qed.

Lemma unstaged_realises name : Realises (unstagedProg name) (unstagedPhase name).
Proof.
  intros tr out. unfold unstagedProg, unstagedPhase, fileNotEmpty, shell, act. split.
  - intros H. follow H; [left|right; eexists|left]; (split; [|done]); auto.
  - intros [[[[-> _]|[[-> _]|[_ ?]]] ->]|(e & [[_ ?]|[[_ ?]|[-> [= <-]]]] & ->)];
      try done; walk.
Qed.

(** [restoreEnv] is its five phases one after the other. *)
Lemma restoreEnv_chain name clean :
  sameWays (restoreEnv name clean)
    (chain [resetProg clean; positionProg name; archiveProg name;
            stagedProg name; unstagedProg name]).
Proof.
  unfold restoreEnv, restoreFiles, chain.
  apply sameWays_bind. intros _.
  eapply sameWays_trans; [|intros tr out; symmetry; apply sameWays_assoc].
  apply sameWays_bind. intros hasInfo.
  apply sameWays_bind. intros _.
  eapply sameWays_trans; [|intros tr out; symmetry; apply sameWays_assoc].
  apply sameWays_bind. intros hasTar.
  apply sameWays_bind. intros _.
  eapply sameWays_trans; [|intros tr out; symmetry; apply sameWays_assoc].
  apply sameWays_bind. intros hasStaged.
  apply sameWays_bind. intros _.
  intros tr out. symmetry. apply (sameWays_ret (unstagedProg name)).
Qed.

(** C8. Whatever git, tar and the file system answer, [restoreEnv] goes
    through its steps in this order and in no other way: the reset when it
    is asked for; the checkout of the recorded branch, then of the recorded
    commit when the branch cannot be checked out, a failure here being
    logged as a warning and nothing more; the extraction of the untracked
    archive when the bundle has one; the staged patch, when it is not
    empty, on the index and then on the tree; the unstaged patch, when it
    is not empty, on the tree.  The first file-level step that fails ends
    the restore with its error and no later step is made; otherwise every
    step that is due is made and the restore returns.  Every run in a
    world is such a way. *)
Theorem restore_steps_in_order name clean :
  (∀ tr out, Path (restoreEnv name clean) tr out <-> RestoreOrder name clean tr out)
  ∧ ∀ w, RestoreOrder name clean (answers (restoreEnv name clean) w)
                      (outcome (run (restoreEnv name clean) w)).
Proof.
  assert (H : ∀ tr out,
            Path (restoreEnv name clean) tr out <-> RestoreOrder name clean tr out).
  { intros tr out. rewrite (restoreEnv_chain name clean tr out).
    apply chain_inOrder.
    repeat (apply List.Forall2_cons);
      first [ apply reset_realises | apply position_realises | apply archive_realises
            | apply staged_realises | apply unstaged_realises | apply List.Forall2_nil ]. }
  split; [exact H|]. intros w. apply H, run_Path.
Qed.

End RestoreOrder.

(** * The snapshot *)

Ltac inlist :=
  solve [ assumption
        | apply list_elem_of_here
        | apply list_elem_of_further; inlist
        | apply elem_of_app; left; inlist
        | apply elem_of_app; right; inlist ].

Section Snapshot.

#[local] Arguments tarCreate : simpl never.
#[local] Arguments untrackedFiltered : simpl never.
#[local] Arguments Nat.ltb : simpl never.

Lemma dumpEnv_run name w :
  lsOthers (git w) = untrackedPaths (git w) ->
  ∃ tr,
    run (dumpEnv name) w =
      mkRun tr (setSlots w (<[name := dumped (git w) (now w) (slotOf w name)]> (slots w)))
            (Returned tt)
    ∧ Forall (fun o => resetOp o = false ∧ restoreOp o = false ∧ stateOp o = false
                       ∧ isSleep o = false) tr
    ∧ GitDiffCached name ∈ tr.
Proof.
  intros Hls. unfold dumpEnv, dumped.
  destruct (slots w !! name) as [[i st us [a|] ul]|] eqn:Hs;
    destruct (0 <? length (untrackedFiltered (untrackedPaths (git w))))%nat eqn:Hn.
  all: repeat (progress (unfold slotOf, updSlot, setSlots; cbn;
                 rewrite ?Hls, ?Hs, ?Hn, ?lookup_insert_eq, ?insert_insert_eq, ?alter_insert_eq,
                         ?tarCreate_ok; cbn)).
  all: eexists; split; [reflexivity|]; split; [repeat constructor|inlist].
Qed.

End Snapshot.

(** * Snapshot, reset, restore *)

Section RoundTripRun.

Lemma diffTrees_same (t : Tree) : diffTrees t t = ∅.
Proof.
  apply map_eq; intros p. rewrite lookup_diffTrees, lookup_empty. by rewrite decide_True.
Qed.

Lemma sameFiles_refl g : sameFiles g g.
Proof. by repeat split. Qed.

Lemma sameFiles_trans g1 g2 g3 : sameFiles g1 g2 -> sameFiles g2 g3 -> sameFiles g1 g3.
Proof. unfold sameFiles. intros (?&?&?&?) (?&?&?&?). split_and!; congruence. Qed.

(** Checking out the revision HEAD is already at changes no file. *)
Lemma checkout_currentRev r g g' :
  currentRev g r -> checkout r g = Some g' -> sameFiles g g'.
Proof.
  intros Hcur. unfold checkout.
  destruct (resolveRev g r) as [h'|] eqn:Hr; [|done].
  case_decide as Hh; [intros [= <-]; apply sameFiles_refl|].
  assert (Hc : headCommit h' = revParseHead g).
  { destruct r as [b|c]; cbn in Hcur, Hr.
    - destruct Hcur as [c Hc]. unfold branchTip in Hr. rewrite Hc in Hr.
      rewrite decide_True in Hr by done. injection Hr as <-. destruct Hh. done.
    - destruct (commits g !! c); [|done]. injection Hr as <-. done. }
  rewrite Hc. fold (headTree g). rewrite diffTrees_same.
  case_decide; [|done]. intros [= <-].
  unfold sameFiles, headTree, treeOf; cbn. rewrite !patched_empty.
  split_and!; try done.
  destruct h'; cbn in *; by rewrite Hc.
Qed.

Lemma setGit_sameFiles w g g' : sameFiles g' (git w) -> sameFiles g g' -> sameFiles g (git w).
Proof. intros. by eapply sameFiles_trans. Qed.

(** The position step of a bundle taken at the current position changes
    no file. *)
Lemma restorePosition_same name w t :
  info (slotOf w name) =
    Some (Parsed (mkInfo (revParseHead (git w)) (abbrevRef (git w)) t)) ->
  sameFiles (git w) (git (final (run (restorePosition name) w))).
Proof.
  intros Hi. unfold restorePosition, gitCheckout.
  rewrite run_tryCatch. unfold orElse. cbn. rewrite Hi. cbn.
  assert (Hb : forall g', checkout (Branch (abbrevRef (git w))) (git w) = Some g' ->
            negb (abbrevRef (git w) =? "HEAD") = true -> sameFiles (git w) g').
  { intros g' Hc Hn. eapply checkout_currentRev; [|done]. cbn.
    unfold abbrevRef in *. destruct (head (git w)); [eauto|]. done. }
  assert (Hc : forall g', checkout (CommitId (revParseHead (git w))) (git w) = Some g' ->
            sameFiles (git w) g').
  { intros g' Hc. eapply checkout_currentRev; [|done]. done. }
  destruct (truthy (abbrevRef (git w)) && negb (abbrevRef (git w) =? "HEAD")) eqn:Hcond; cbn.
  - apply andb_true_iff in Hcond as [_ Hn].
    destruct (checkout (Branch (abbrevRef (git w))) (git w)) as [g1|] eqn:H1; cbn.
    + by apply Hb.
    + destruct (truthy (revParseHead (git w))); cbn; [|apply sameFiles_refl].
      destruct (checkout (CommitId (revParseHead (git w))) (git w)) as [g2|] eqn:H2; cbn.
      * by apply Hc.
      * apply sameFiles_refl.
  - destruct (truthy (revParseHead (git w))); cbn; [|apply sameFiles_refl].
    destruct (checkout (CommitId (revParseHead (git w))) (git w)) as [g2|] eqn:H2; cbn.
    + by apply Hc.
    + apply sameFiles_refl.
Qed.

#[local] Arguments tarCreate : simpl never.
#[local] Arguments untrackedFiltered : simpl never.
#[local] Arguments Nat.ltb : simpl never.
#[local] Arguments diffCached : simpl never.
#[local] Arguments diffWork : simpl never.
#[local] Arguments gitClean : simpl never.
#[local] Arguments resetHard : simpl never.
#[local] Arguments applyPatch : simpl never.

Lemma headTree_withFiles g i w : headTree (withFiles g i w) = headTree g.
Proof. reflexivity. Qed.

(** The file-level restoration of the bundle that [dumpEnv] took of [g],
    onto the reset tree, gives back the index and the working tree of [g]. *)
Lemma restoreFiles_dumped name wP g t old :
  clashFree g ->
  slots wP !! name = Some (dumped g t old) ->
  index (git wP) = headTree g ->
  work (git wP) = work (gitClean (resetHard g)) ->
  let r := run (restoreFiles name) wP in
  outcome r = Returned tt
  ∧ index (git (final r)) = index g
  ∧ work (git (final r)) = work g
  ∧ headTree (git (final r)) = headTree (git wP)
  ∧ ignored (git (final r)) = ignored (git wP).
Proof.
  intros Hcf Hs Hi Hw. cbn zeta.
  pose proof (staged_fits_extracted g Hcf) as Hfit1.
  pose proof (unstaged_fits_staged g Hcf) as Hfit2.
  pose proof (unstaged_staged_extracted g Hcf) as Hfin.
  set (arch := (tarCreate (untrackedFiltered (untrackedPaths g)) g).1) in *.
  set (extracted := arch ∪ work (gitClean (resetHard g))) in *.
  (* the working tree once the archive, if any, is extracted *)
  assert (Hx : (if (0 <? length (untrackedFiltered (untrackedPaths g)))%nat
                then arch ∪ work (git wP) else work (git wP)) = extracted).
  { rewrite Hw. destruct (0 <? length (untrackedFiltered (untrackedPaths g)))%nat eqn:Hn; [done|].
    subst extracted arch.
    destruct (untrackedFiltered (untrackedPaths g)) eqn:Hl; [|done].
    rewrite tarCreate_nil. by rewrite (left_id_L ∅ (∪)). }
  assert (E1 : applyPatch (diffCached g) (headTree g) = Some (index g)).
  { unfold diffCached. apply applyPatch_diffTrees. }
  assert (E2 : applyPatch (diffCached g) extracted = Some (patched (diffCached g) extracted)).
  { by apply applyPatch_fits. }
  assert (E3 : applyPatch (diffWork g) (patched (diffCached g) extracted) = Some (work g)).
  { rewrite applyPatch_fits by done. by rewrite Hfin. }
  assert (E4 : diffCached g = ∅ -> headTree g = index g ∧ patched (diffCached g) extracted = extracted).
  { intros He. split; [by apply diffTrees_empty_eq|]. rewrite He. apply patched_empty. }
  assert (E5 : diffWork g = ∅ -> patched (diffCached g) extracted = work g).
  { intros He. rewrite He, patched_empty in Hfin. done. }
  clear Hfit1 Hfit2 Hfin.
  unfold restoreFiles, dumped in *.
  destruct (0 <? length (untrackedFiltered (untrackedPaths g)))%nat eqn:Hn;
    (destruct (bool_decide (diffCached g = ∅)) eqn:Hc;
     [apply bool_decide_eq_true in Hc; destruct (E4 Hc) as [E6 E7]; rewrite E7 in *|]);
    (destruct (bool_decide (diffWork g = ∅)) eqn:Hd;
     [apply bool_decide_eq_true in Hd; specialize (E5 Hd)|]).
  all: repeat (progress (unfold slotOf, applyFrom, notEmpty, exists_, patchFile, slotHas,
                           applyCached, applyWork;
                         cbn; fold arch;
                         rewrite ?Hs, ?Hx, ?Hi, ?E1, ?E2, ?E3, ?Hc, ?Hd,
                                 ?bool_decide_eq_true_2 by done; cbn)).
  all: split_and!; try done; try congruence.
Qed.

Lemma sameFiles_Reproduces g g' : sameFiles g g' -> Reproduces g g'.
Proof.
  intros (Hh & Hi & Hw & Hg). unfold Reproduces, diffCached, diffWork, untrackedFiles.
  rewrite Hh, Hi, Hw, Hg. done.
Qed.


End RoundTripRun.

(** * The session wrapper *)

Section RunWrapper.

#[local] Arguments enterEnv : simpl never.
#[local] Arguments exitEnv : simpl never.
#[local] Arguments attempt : simpl never.
#[local] Arguments truthy : simpl never.
#[local] Arguments perform : simpl never.

Lemma run_attempt {A : Type} (p : Prog A) w :
  run (attempt p) w =
    mkRun (trace (run p w)) (final (run p w))
          (match outcome (run p w) with
           | Returned a => Returned (inr a)
           | Thrown e => Returned (inl e)
           | Diverged => Diverged
           end).
Proof.
  unfold attempt. rewrite run_tryCatch, run_bind. unfold orElse, andThen.
  destruct (run p w) as [tr fw [a|e|]]; cbn; rewrite ?app_nil_r; reflexivity.
Qed.

Lemma env_flag {A : Type} (c : string) (a b : A) :
  match c with "--env" => a | _ => b end = if decide (c = "--env") then a else b.
Proof.
  case_decide as H; [by subst|].
  repeat (destruct c as [|[[] [] [] [] [] [] [] []] c]; try reflexivity).
  by destruct H.
Qed.

Lemma separator {A : Type} (c : string) (a b : A) :
  match c with "--" => a | _ => b end = if decide (c = "--") then a else b.
Proof.
  case_decide as H; [by subst|].
  repeat (destruct c as [|[[] [] [] [] [] [] [] []] c]; try reflexivity).
  by destruct H.
Qed.

Lemma commandWords_cons c l :
  commandWords (c :: l) = if decide (c = "--") then l else c :: l.
Proof. unfold commandWords. apply (separator c l (c :: l)). Qed.

Lemma runTarget_cons ctx c l :
  runTarget ctx (c :: l) =
    let (named, args) :=
      if decide (c = "--env")
      then match l with
           | name :: args => (Some name, args)
           | [] => (None, [])
           end
      else (None, c :: l) in
    match commandWords args with
    | [] => inl MissingCommand
    | words =>
        match (match named with
               | Some name => if truthy name then inr name else ambient ctx
               | None => ambient ctx
               end) with
        | inl e => inl e
        | inr env => inr (env, words)
        end
    end.
Proof.
  unfold runTarget.
  change (match c :: l with
          | "--env" :: name :: args => (Some name, args)
          | ["--env"] => (None, [])
          | _ => (None, c :: l)
          end)
    with (match c with
          | "--env" => match l with
                       | name :: args => (Some name, args)
                       | [] => (None, [])
                       end
          | _ => (None, c :: l)
          end).
  rewrite env_flag. reflexivity.
Qed.

Lemma truthy_ambient ctx env : ambient ctx = inr env -> truthy env = true.
Proof.
  unfold ambient. destruct (CCENV_ACTIVE ctx) as [n|]; [|done].
  destruct (truthy n) eqn:E; [|done]. by intros [= <-].
Qed.

Lemma resolveEnvName_ambient ctx :
  resolveEnvName ctx None =
    match ambient ctx with
    | inl e => Throw e
    | inr env => Ret env
    end.
Proof.
  unfold resolveEnvName, ambient.
  destruct (CCENV_ACTIVE ctx) as [n|]; [|done]. by destruct (truthy n).
Qed.

Lemma resolveEnvName_named ctx name :
  resolveEnvName ctx (Some name) =
    if truthy name then Ret name else resolveEnvName ctx None.
Proof. unfold resolveEnvName. by destruct (truthy name). Qed.

(** The [run] case on a command line that names the environment and
    separates the command. *)
Lemma runCase_canonical fuel ctx env c cs :
  truthy env = true ->
  runCase fuel ctx ("--env" :: env :: "--" :: c :: cs) =
    r ← attempt (enterEnv fuel ctx env);
    match r with
    | inl error => Throw error
    | inr entered =>
        x ← attempt (runCommand env (c :: cs));
        runCleanup fuel ctx entered false;;
        match x with
        | inl error => Throw error
        | inr exitCode => Ret exitCode
        end
    end.
Proof.
  intros Ht. unfold runCase. cbn [lookup drop length Nat.eqb].
  cbn. rewrite Ht. reflexivity.
Qed.

(** Every command line the [run] case accepts is handled as the canonical
    one with the same environment and command; the others are rejected. *)
Lemma runCase_target fuel ctx rest :
  match runTarget ctx rest with
  | inl e => runCase fuel ctx rest = Throw e
  | inr (env, words) =>
      truthy env = true
      ∧ ∃ c cs, words = c :: cs
        ∧ runCase fuel ctx rest = runCase fuel ctx ("--env" :: env :: "--" :: c :: cs)
  end.
Proof.
  destruct rest as [|c l]; [reflexivity|].
  rewrite runTarget_cons.
  assert (Hcase : runCase fuel ctx (c :: l) =
    let envName := if decide (c = "--env") then l !! 0%nat else None in
    let args := if decide (c = "--env") then drop 1 l else c :: l in
    let words := commandWords args in
    if (length words =? 0)%nat then Throw MissingCommand
    else
      resolvedEnv ← resolveEnvName ctx envName;
      r ← attempt (enterEnv fuel ctx resolvedEnv);
      match r with
      | inl error => Throw error
      | inr entered =>
          x ← attempt (runCommand resolvedEnv words);
          runCleanup fuel ctx entered false;;
          match x with
          | inl error => Throw error
          | inr exitCode => Ret exitCode
          end
      end).
  { unfold runCase.
    change (match c :: l with "--env" :: _ => (c :: l) !! 1%nat | _ => None end)
      with (match c with "--env" => l !! 0%nat | _ => None end).
    change (match c :: l with "--env" :: _ => 2%nat | _ => 0%nat end)
      with (match c with "--env" => 2%nat | _ => 0%nat end).
    rewrite !env_flag. case_decide; reflexivity. }
  rewrite Hcase. clear Hcase. cbn zeta.
  assert (Hgo : ∀ (named : option string) (words : list string),
    match
      match words with
      | [] => inl MissingCommand
      | w0 :: ws =>
          match (match named with
                 | Some name => if truthy name then inr name else ambient ctx
                 | None => ambient ctx
                 end) with
          | inl e => inl e
          | inr env => inr (env, w0 :: ws)
          end
      end
    with
    | inl e =>
        (if (length words =? 0)%nat then Throw MissingCommand
         else
           resolvedEnv ← resolveEnvName ctx named;
           r ← attempt (enterEnv fuel ctx resolvedEnv);
           match r with
           | inl error => Throw error
           | inr entered =>
               x ← attempt (runCommand resolvedEnv words);
               runCleanup fuel ctx entered false;;
               match x with
               | inl error => Throw error
               | inr exitCode => Ret exitCode
               end
           end) = Throw e
    | inr (env, words') =>
        truthy env = true
        ∧ ∃ c' cs, words' = c' :: cs
          ∧ (if (length words =? 0)%nat then Throw MissingCommand
             else
               resolvedEnv ← resolveEnvName ctx named;
               r ← attempt (enterEnv fuel ctx resolvedEnv);
               match r with
               | inl error => Throw error
               | inr entered =>
                   x ← attempt (runCommand resolvedEnv words);
                   runCleanup fuel ctx entered false;;
                   match x with
                   | inl error => Throw error
                   | inr exitCode => Ret exitCode
                   end
               end) = runCase fuel ctx ("--env" :: env :: "--" :: c' :: cs)
    end).
  { intros named [|c' cs]; [reflexivity|]. cbn [length Nat.eqb].
    assert (Ha : match ambient ctx with
                 | inl e =>
                     (resolvedEnv ← resolveEnvName ctx None;
                      r ← attempt (enterEnv fuel ctx resolvedEnv);
                      match r with
                      | inl error => Throw error
                      | inr entered =>
                          x ← attempt (runCommand resolvedEnv (c' :: cs));
                          runCleanup fuel ctx entered false;;
                          match x with
                          | inl error => Throw error
                          | inr exitCode => Ret exitCode
                          end
                      end) = Throw e
                 | inr env =>
                     truthy env = true
                     ∧ (resolvedEnv ← resolveEnvName ctx None;
                        r ← attempt (enterEnv fuel ctx resolvedEnv);
                        match r with
                        | inl error => Throw error
                        | inr entered =>
                            x ← attempt (runCommand resolvedEnv (c' :: cs));
                            runCleanup fuel ctx entered false;;
                            match x with
                            | inl error => Throw error
                            | inr exitCode => Ret exitCode
                            end
                        end) = runCase fuel ctx ("--env" :: env :: "--" :: c' :: cs)
                 end).
    { rewrite resolveEnvName_ambient.
      destruct (ambient ctx) as [e|env] eqn:Hamb; [reflexivity|].
      pose proof (truthy_ambient _ _ Hamb) as Ht. split; [done|].
      by rewrite runCase_canonical. }
    destruct named as [name|].
    - rewrite resolveEnvName_named. destruct (truthy name) eqn:Ht.
      + split; [done|]. exists c', cs. split; [done|]. by rewrite runCase_canonical.
      + destruct (ambient ctx) as [e|env]; [done|].
        destruct Ha as [? Ha]. split; [done|]. by exists c', cs.
    - destruct (ambient ctx) as [e|env]; [done|].
      destruct Ha as [? Ha]. split; [done|]. by exists c', cs. }
  case_decide as Hc.
  - destruct l as [|name args]; [reflexivity|].
    exact (Hgo (Some name) (commandWords args)).
  - exact (Hgo None (commandWords (c :: l))).
Qed.

Lemma mainRun_wrapped fuel ctx env c cs w :
  truthy env = true ->
  run (mainRun fuel ctx ("--env" :: env :: "--" :: c :: cs)) w
  = wrapped fuel ctx env (c :: cs) w.
Proof.
  intros Ht. unfold mainRun. rewrite runCase_canonical by done. unfold wrapped.
  rewrite run_tryCatch, run_mbind, run_attempt. unfold orElse, andThen.
  cbn [trace final outcome].
  destruct (run (enterEnv fuel ctx env) w) as [tr fw [[|]|e|]]; cbn [trace final outcome].
  - rewrite run_mbind, run_attempt. unfold runCommand, andThen. cbn [run act trace final outcome].
    rewrite run_mbind. unfold andThen. cbn.
    set (x := run (exitEnv fuel ctx true) _). clearbody x.
    destruct x as [trx fwx [[]|e|]]; cbn; rewrite ?app_nil_r; try reflexivity.
    unfold perform. cbn. rewrite <- !app_assoc. reflexivity.
  - rewrite run_mbind, run_attempt. unfold runCommand, andThen. cbn.
    rewrite ?app_nil_r. reflexivity.
  - cbn. rewrite ?app_nil_r. reflexivity.
  - reflexivity.
Qed.

Lemma mainRun_session fuel ctx rest w :
  run (mainRun fuel ctx rest) w = session fuel ctx rest w.
Proof.
  unfold session. pose proof (runCase_target fuel ctx rest) as H.
  destruct (runTarget ctx rest) as [e|[env words]].
  - unfold mainRun. rewrite H. reflexivity.
  - destruct H as (Ht & c & cs & -> & H).
    rewrite <- (mainRun_wrapped fuel ctx env c cs w Ht).
    unfold mainRun. by rewrite H.
Qed.

Lemma onSignal_entered fuel ctx code w :
  run (onSignal fuel ctx false true code) w = interrupted fuel ctx code w.
Proof.
  unfold onSignal, interrupted. rewrite run_mbind, run_tryCatch.
  unfold andThen, orElse.
  destruct (run (exitEnv fuel ctx true) w) as [tr fw [[]|e|]]; cbn; by rewrite ?app_nil_r.
Qed.


End RunWrapper.

(** * Leaving an environment *)

Ltac rbind := first [rewrite run_mbind | rewrite run_bind].

(** Going along a run that returned, one step at a time. *)
Ltac returned_step :=
  lazymatch goal with
  | |- outcome (run (Act (Rm STATE_FILE) _) _) = Returned _ -> _ =>
      fail
  | |- outcome (run (Act _ _) _) = Returned _ -> _ =>
      cbn [run outcome final trace]
  | |- outcome (run (bind _ _) _) = Returned _ -> _ =>
      let H := fresh in
      intros H; apply bind_returned in H as (? & _ & H & ->); revert H
  | |- outcome (run (_ ≫= _) _) = Returned _ -> _ =>
      let H := fresh in
      intros H; apply mbind_returned in H as (? & _ & H & ->); revert H
  | |- outcome (run (if ?b then _ else _) _) = Returned _ -> _ =>
      destruct b
  | |- outcome (run (Throw _) _) = Returned _ -> _ =>
      intros H; discriminate H
  end.

Section ExitIdentity.

#[local] Arguments acquireLock : simpl never.
#[local] Arguments exitAttempt : simpl never.
#[local] Arguments dumpEnv : simpl never.
#[local] Arguments restoreEnv : simpl never.

(** [exitEnv], phase by phase: the lock, the [try] block with its
    [catch], the [finally] block. *)
Lemma exitEnv_run fuel ctx force w :
  run (exitEnv fuel ctx force) w =
    let w1 := setLog w (internalLog w ++ [LogText "exitEnv() requesting lock"]) in
    andThen (mkRun [AppendLog (LogText "exitEnv() requesting lock")] w1 (Returned tt))
      (fun _ _ =>
         andThen (run (acquireLock fuel ctx LOCK_TIMEOUT_MS) w1)
           (fun _ w2 =>
              andFinally
                (orElse (run (exitAttempt ctx force) w2)
                   (fun error w3 =>
                      mkRun [AppendLog (LogError "exitEnv() error" error)]
                            (setLog w3 (internalLog w3 ++ [LogError "exitEnv() error" error]))
                            (Thrown error)))
                (fun w4 => run releaseLock w4))).
Proof.
  unfold exitEnv. rewrite run_mbind.
  change (run (logInternal "exitEnv() requesting lock") w) with
    (mkRun [AppendLog (LogText "exitEnv() requesting lock")]
           (setLog w (internalLog w ++ [LogText "exitEnv() requesting lock"])) (Returned tt)).
  cbn zeta. unfold andThen at 1 3. cbn [trace final outcome].
  rewrite run_mbind. unfold andThen.
  destruct (run (acquireLock fuel ctx LOCK_TIMEOUT_MS) _) as [tr fw [[]|e|]];
    cbn [trace final outcome]; try reflexivity.
  rewrite run_tryFinally, run_tryCatch. reflexivity.
Qed.

Lemma acquireLock_loop_same_identity fuel ctx active timeoutMs start : forall w,
  run (acquireLock_loop fuel (mkCtx (procPid ctx) (procHost ctx) active) timeoutMs start) w
  = run (acquireLock_loop fuel ctx timeoutMs start) w.
Proof.
  induction fuel as [|fuel IH]; intros w; [reflexivity|].
  cbn. destruct (lockFile w); cbn; try reflexivity.
  destruct (now w - start >? timeoutMs)%Z; cbn; try reflexivity.
  by rewrite IH.
Qed.

Lemma acquireLock_same_identity fuel ctx active timeoutMs w :
  run (acquireLock fuel (mkCtx (procPid ctx) (procHost ctx) active) timeoutMs) w
  = run (acquireLock fuel ctx timeoutMs) w.
Proof.
  unfold acquireLock. cbn. by rewrite acquireLock_loop_same_identity.
Qed.

Lemma exitAttempt_mismatch ctx w st :
  stateFile w = Some (Parsed st) -> CCENV_ACTIVE ctx ≠ Some (activeEnv st) ->
  run (exitAttempt ctx false) w =
    mkRun [ReadState] w (Thrown (CannotExit (activeEnv st) (CCENV_ACTIVE ctx))).
Proof.
  intros Hst Hne. unfold exitAttempt. cbn. rewrite Hst. cbn.
  rewrite bool_decide_eq_false_2 by done. reflexivity.
Qed.

Lemma exitAttempt_force ctx w st :
  stateFile w = Some (Parsed st) ->
  run (exitAttempt ctx true) w =
  run (exitAttempt (mkCtx (procPid ctx) (procHost ctx) (Some (activeEnv st))) false) w.
Proof.
  intros Hst. unfold exitAttempt. cbn. rewrite Hst. cbn.
  rewrite bool_decide_eq_true_2 by done. reflexivity.
Qed.

Lemma exitAttempt_free ctx force w :
  occupant w = None -> (forall st, stateFile w ≠ Some (Parsed st)) ->
  run (exitAttempt ctx force) w =
    mkRun [ReadState; AppendLog (LogText "exitEnv() no state found, already exited?")]
          (setLog w (internalLog w ++ [LogText "exitEnv() no state found, already exited?"]))
          (Returned tt).
Proof.
  intros _ Hno. unfold exitAttempt. cbn.
  destruct (stateFile w) as [[raw|st]|] eqn:Hs; cbn; try reflexivity.
  by destruct (Hno st).
Qed.

#[local] Arguments exists_ : simpl never.
#[local] Arguments restoreFiles : simpl never.
#[local] Arguments restorePosition : simpl never.

Lemma raises_acquireLock fuel ctx timeoutMs :
  raises (fun e => identityError e = false) (acquireLock fuel ctx timeoutMs).
Proof.
  unfold acquireLock. cbn. intros start. revert start.
  induction fuel as [|fuel IH]; intros start; cbn; [done|].
  intros []; cbn; [footprint|]. intros t. destruct (t - start >? timeoutMs)%Z; cbn.
  - intros []; reflexivity.
  - intros _. apply IH.
Qed.

(** Once the identity check is passed, no later step raises its error. *)
Lemma raises_exitAttempt_force ctx :
  raises (fun e => identityError e = false) (exitAttempt ctx true).
Proof.
  unfold exitAttempt, readState, ensureEnvDir, logInternal, dumpEnv, writeInfo,
    fileExists, cleanWorkspace, restoreEnv, restorePosition, restoreFiles, gitCheckout,
    fileNotEmpty, logInternalError.
  footprint.
Qed.

Lemma raises_exitEnv_force fuel ctx :
  raises (fun e => identityError e = false) (exitEnv fuel ctx true).
Proof.
  unfold exitEnv. apply raises_mbind; [unfold logInternal; footprint|]. intros _.
  apply raises_mbind; [apply raises_acquireLock|]. intros _.
  apply raises_tryFinally; [|unfold releaseLock; footprint].
  apply raises_tryCatch; [apply raises_exitAttempt_force|].
  intros e He. unfold logInternalError. cbn. intros _. exact He.
Qed.

Lemma rm_state_returned msg w :
  outcome (run (rm STATE_FILE;; logInternal msg) w) = Returned tt ->
  stateFile (final (run (rm STATE_FILE;; logInternal msg) w)) = None.
Proof.
  unfold rm, logInternal. cbn. unfold exists_.
  destruct (stateFile w); cbn; done.
Qed.

(** The [try] block of [exitEnv] returns on an occupied tree only once it
    has removed the occupancy record. *)
Lemma exitAttempt_returned ctx force w st :
  stateFile w = Some (Parsed st) ->
  outcome (run (exitAttempt ctx force) w) = Returned tt ->
  stateFile (final (run (exitAttempt ctx force) w)) = None.
Proof.
  intros Hst. unfold exitAttempt. cbn. rewrite Hst. cbn.
  repeat returned_step.
  match goal with |- outcome (run _ ?W) = _ -> _ => generalize W end.
  intros W. apply (rm_state_returned "exitEnv() state removed" W).
Qed.

(** C3 (amended). On a tree that [activeEnv st] occupies: an exit without
    force whose claimed identity differs fails and performs no snapshot,
    reset or restore, the tree, the bundles and the occupancy record
    staying as they are.  An exit with force is never rejected for its
    identity: it runs exactly as an exit whose claimed identity matches,
    never raises the error of the identity check, and when it returns the
    tree is no longer occupied and the lock is released.  It can still
    fail further on, as it does when the slot of the host is missing. *)
Theorem exit_identity_check fuel ctx w st :
  stateFile w = Some (Parsed st) ->
  (CCENV_ACTIVE ctx ≠ Some (activeEnv st) ->
   let r := run (exitEnv fuel ctx false) w in
   outcome r ≠ Returned tt
   ∧ Untouched w (final r)
   ∧ Forall (fun o => quietOp o = true) (trace r)
   ∧ (lockFile w = None -> fuel ≠ 0%nat ->
      outcome r = Thrown (CannotExit (activeEnv st) (CCENV_ACTIVE ctx))
      ∧ lockFile (final r) = None))
  ∧ run (exitEnv fuel ctx true) w
    = run (exitEnv fuel (mkCtx (procPid ctx) (procHost ctx) (Some (activeEnv st))) false) w
  ∧ (forall e, outcome (run (exitEnv fuel ctx true) w) = Thrown e ->
       identityError e = false)
  ∧ (outcome (run (exitEnv fuel ctx true) w) = Returned tt ->
       occupant (final (run (exitEnv fuel ctx true) w)) = None
       ∧ lockFile (final (run (exitEnv fuel ctx true) w)) = None).
Proof.
  intros Hst.
  set (w1 := setLog w (internalLog w ++ [LogText "exitEnv() requesting lock"])).
  pose proof (acquireLock_quiet fuel ctx LOCK_TIMEOUT_MS w1) as Hq. cbn zeta in Hq.
  destruct Hq as ((Hg & Hs & Hsf) & Htr & Hc & Hlog & Hret & Hthr).
  change (git w1) with (git w) in Hg. change (slots w1) with (slots w) in Hs.
  change (stateFile w1) with (stateFile w) in Hsf.
  assert (Hfree : lockFile w = None -> fuel ≠ 0%nat ->
            run (acquireLock fuel ctx LOCK_TIMEOUT_MS) w1 =
            mkRun [DateNow; OpenWx; DateNow;
                   WriteLock (mkLock (procPid ctx) (procHost ctx) (now w))]
              (setLock w1 (Some (Some (mkLock (procPid ctx) (procHost ctx) (now w)))))
              (Returned tt)).
  { intros Hl Hf. destruct fuel; [done|]. rewrite acquireLock_free by done. reflexivity. }
  split; [|split; [|split]].
  - intros Hne. cbn zeta. rewrite exitEnv_run. cbn zeta. fold w1.
    unfold andThen at 1. cbn [trace final outcome]. unfold andThen.
    destruct (run (acquireLock fuel ctx LOCK_TIMEOUT_MS) w1) as [tr fw [[]|e|]];
      cbn [trace final outcome] in *.
    + rewrite (exitAttempt_mismatch ctx fw st) by congruence.
      unfold orElse, andFinally. cbn [trace final outcome]. rewrite run_releaseLock.
      cbn. split_and!; try done.
      constructor; [done|]. apply Forall_app. split; [by apply lockOps_quiet|].
      repeat constructor.
    + split_and!; try done.
      * constructor; [done|]. by apply lockOps_quiet.
      * intros Hl Hf. specialize (Hfree Hl Hf). discriminate.
    + split_and!; try done.
      * constructor; [done|]. by apply lockOps_quiet.
      * intros Hl Hf. specialize (Hfree Hl Hf). discriminate.
  - rewrite !exitEnv_run. cbn zeta. fold w1.
    unfold andThen at 1 3. cbn [trace final outcome].
    rewrite acquireLock_same_identity. unfold andThen.
    destruct (run (acquireLock fuel ctx LOCK_TIMEOUT_MS) w1) as [tr fw [[]|e|]];
      cbn [trace final outcome] in *; try reflexivity.
    rewrite (exitAttempt_force ctx fw st) by congruence. reflexivity.
  - intros e. apply (raises_run _ _ (raises_exitEnv_force fuel ctx)).
  - rewrite exitEnv_run. cbn zeta. fold w1.
    unfold andThen at 1. cbn [trace final outcome]. unfold andThen.
    destruct (run (acquireLock fuel ctx LOCK_TIMEOUT_MS) w1) as [tr fw [[]|e'|]];
      cbn [trace final outcome] in *; try done.
    pose proof (exitAttempt_returned ctx true fw st) as Hok.
    unfold orElse, andFinally.
    destruct (run (exitAttempt ctx true) fw) as [tra wa [[]|ea|]];
      cbn [trace final outcome] in *; rewrite ?run_releaseLock; cbn; try done.
    intros _. unfold occupant. cbn. rewrite Hok; [done|congruence|done].
Qed.

End ExitIdentity.

(** * An occupancy record that cannot be read *)

Section CorruptState.

#[local] Arguments acquireLock : simpl never.
#[local] Arguments enterEnv_loop : simpl never.
#[local] Arguments enterRound : simpl never.
#[local] Arguments enterAttempt : simpl never.
#[local] Arguments exitAttempt : simpl never.
#[local] Arguments dumpEnv : simpl never.
#[local] Arguments restoreEnv : simpl never.
#[local] Arguments restoreFiles : simpl never.
#[local] Arguments restorePosition : simpl never.
#[local] Arguments exists_ : simpl never.

(** [readState] gives [null] exactly when the occupancy record is missing
    or does not parse. *)
Lemma run_readState w :
  run readState w = mkRun [ReadState] w (Returned (match stateFile w with
                                                   | Some (Parsed st) => Some st
                                                   | _ => None
                                                   end)).
Proof. unfold readState. cbn. by destruct (stateFile w) as [[?|?]|]. Qed.

(** The [try] block of [enterEnv] on a tree without a readable occupancy
    record: the host is snapshot, the tree reset, the bundle restored and
    the record written. *)
Lemma enterAttempt_free name w :
  lsOthers (git w) = untrackedPaths (git w) ->
  occupant w = None ->
  let r := run (enterAttempt name) w in
  outcome r ≠ Diverged
  ∧ (forall e, outcome r = Thrown e -> restoreError e)
  ∧ (forall x, outcome r = Returned x -> x = Return true ∧ occupant (final r) = Some name)
  ∧ GitDiffCached DEFAULT_HOST_ENV ∈ trace r
  ∧ GitResetHard ∈ trace r
  ∧ Access (EnvFile name UntrackedTar) ∈ trace r.
Proof.
  intros Hls Hocc. cbn zeta. unfold enterAttempt. rbind. rewrite run_readState.
  assert (Hnone : match stateFile w with Some (Parsed st) => Some st | _ => None end = None).
  { unfold occupant in Hocc. by destruct (stateFile w) as [[?|?]|]. }
  rewrite Hnone. unfold andThen. cbn [trace final outcome]. cbn.
  rbind.
  match goal with |- context [run (dumpEnv ?n) ?w0] =>
    destruct (dumpEnv_run n w0 Hls) as (trD & -> & _ & HinD) end.
  unfold andThen. cbn.
  rbind.
  match goal with |- context [run (restoreEnv ?n ?c) ?w0] =>
    destruct (restoreEnv_run n c w0) as (_ & HfP & _ & ->) end.
  match goal with |- context [positionRun ?n (resetWorld ?c ?w0)] =>
    set (rP := positionRun n (resetWorld c w0)) in *; clearbody rP end.
  abstract (
    destruct (restoreFiles_steps name (final rP)) as (_ & _ & Hin & Herr & Hdiv & HfF);
    unfold andThen; cbn [trace final outcome];
    destruct (run (restoreFiles name) (final rP)) as [trF wF [[]|e|]];
      cbn [trace final outcome] in *;
    [ cbn; split_and!; try done; try inlist;
      intros x Hx; injection Hx as <-; split; reflexivity
    | split_and!; try done; try inlist;
      intros e' [= <-]; by apply Herr
    | done ]).
Qed.

Lemma enterRound_run name w :
  run (enterRound name) w =
    andFinally
      (orElse (run (enterAttempt name) w)
         (fun error w3 =>
            mkRun [AppendLog (LogError ("enterEnv(" +:+ name +:+ ") error") error)]
                  (setLog w3 (internalLog w3
                     ++ [LogError ("enterEnv(" +:+ name +:+ ") error") error]))
                  (Thrown error)))
      (fun w4 => run releaseLock w4).
Proof. unfold enterRound. rewrite run_tryFinally, run_tryCatch. reflexivity. Qed.

(** One round of [enterEnv] on a tree without a readable occupancy record. *)
Lemma enterRound_free name w :
  lsOthers (git w) = untrackedPaths (git w) ->
  occupant w = None ->
  let r := run (enterRound name) w in
  outcome r ≠ Diverged
  ∧ (forall e, outcome r = Thrown e -> restoreError e)
  ∧ (forall x, outcome r = Returned x -> x = Return true ∧ occupant (final r) = Some name)
  ∧ GitDiffCached DEFAULT_HOST_ENV ∈ trace r
  ∧ GitResetHard ∈ trace r
  ∧ Access (EnvFile name UntrackedTar) ∈ trace r
  ∧ lockFile (final r) = None.
Proof.
  intros Hls Hocc. cbn zeta. rewrite enterRound_run.
  destruct (enterAttempt_free name w Hls Hocc) as (Hdiv & Herr & Hret & H1 & H2 & H3).
  unfold orElse, andFinally.
  destruct (run (enterAttempt name) w) as [tr fw [x|e|]]; cbn [trace final outcome] in *;
    rewrite ?run_releaseLock; cbn [trace final outcome].
  - split_and!; try done; try inlist.
  - cbn. split_and!; try done; try inlist; try (intros e' [= <-]; by apply Herr).
  - done.
Qed.


End CorruptState.

(** * Deleting and listing environments *)

Section DeleteAndList.

Lemma run_printEach lines w :
  run (printEach lines) w =
    mkRun (map ConsoleLog lines) (setStdout w (stdout w ++ lines)) (Returned tt).
Proof.
  revert w. induction lines as [|l ls IH]; intros w.
  - cbn. rewrite app_nil_r. by destruct w.
  - cbn -[app]. rewrite IH. cbn -[app]. rewrite <- app_assoc. reflexivity.
Qed.

Lemma listLine_not_default active env :
  listed env = true ->
  listLine active env ≠ "* default" ∧ listLine active env ≠ "  default".
Proof.
  unfold listed, listLine. intros H.
  apply andb_true_iff in H as [H _]. apply negb_true_iff, String.eqb_neq in H.
  unfold DEFAULT_HOST_ENV in H.
  destruct (bool_decide (Some env = active)); cbn; split; intros E;
    try discriminate; injection E as E; by destruct H.
Qed.

Lemma occupant_fmap w :
  occupant w = activeEnv <$> (match stateFile w with Some (Parsed st) => Some st | _ => None end).
Proof. unfold occupant. by destruct (stateFile w) as [[|]|]. Qed.

Lemma listEnvs_stdout w :
  stdout (final (run listEnvs w)) = stdout w ++ listing w.
Proof.
  unfold listEnvs, listing. rewrite occupant_fmap.
  assert (Hp : forall w0 (k : option StateFile -> Prog unit),
    stateFile w0 = stateFile w ->
    final (run (readState ≫= k) w0) =
    final (run (k (match stateFile w with Some (Parsed st) => Some st | _ => None end)) w0)).
  { intros w0 k E. rewrite run_mbind, run_readState, E. reflexivity. }
  set (st := match stateFile w with Some (Parsed st) => Some st | _ => None end) in *.
  cbn -[readState app].
  destruct (config w) eqn:Hc; cbn -[readState app]; rewrite Hp by done.
  all: destruct (List.filter listed (elements (dom (slots w)))) as [|e es] eqn:Hf;
    cbn -[app printEach map]; try reflexivity.
  all: rewrite run_printEach; cbn -[app map]; rewrite <- ?app_assoc; reflexivity.
Qed.

Lemma listing_hides_default w :
  ("* default" ∉ listing w) ∧ ("  default" ∉ listing w).
Proof.
  unfold listing.
  destruct (List.filter listed (elements (dom (slots w)))) as [|e es] eqn:Hf.
  - split; intros H; apply list_elem_of_singleton in H; discriminate.
  - rewrite <- Hf. clear Hf.
    split; intros H; apply list_elem_of_fmap in H as (env & E & Hin);
      apply list_elem_of_In, filter_In in Hin as [_ Hl];
      destruct (listLine_not_default (occupant w) env Hl); congruence.
Qed.

(** C10. For a plain name, [deleteEnv] fails exactly when the slot is
    missing or is the current occupant, and otherwise removes the slot: the
    host slot [default] gets no protection, although [listEnvs] never
    prints it. *)
Theorem delete_fails_exactly name w :
  plainName name = true ->
  let r := run (deleteEnv name) w in
  outcome r =
    match slots w !! name with
    | None => Thrown (EnvironmentNotFound name)
    | Some _ =>
        if bool_decide (occupant w = Some name)
        then Thrown (CannotDeleteActive name)
        else Returned tt
    end
  ∧ slots (final r) =
    match outcome r with
    | Returned _ => delete name (slots w)
    | _ => slots w
    end
  ∧ deleteEnv DEFAULT_HOST_ENV = deleteEnv "default"
  ∧ stdout (final (run listEnvs w)) = stdout w ++ listing w
  ∧ ("* default" ∉ listing w) ∧ ("  default" ∉ listing w).
Proof.
  intros _. cbn zeta. split; [|split; [|split; [reflexivity|split; [apply listEnvs_stdout|apply listing_hides_default]]]].
  - unfold deleteEnv. cbn.
    destruct (config w); cbn; destruct (slots w !! name) as [sl|] eqn:Hs; cbn; try done.
    all: unfold occupant; destruct (stateFile w) as [[raw|st]|]; cbn; try done.
    all: destruct (bool_decide (Some (activeEnv st) = Some name)); done.
  - unfold deleteEnv. cbn.
    destruct (config w); cbn; destruct (slots w !! name) as [sl|] eqn:Hs; cbn; try done.
    all: destruct (stateFile w) as [[raw|st]|]; cbn; try done.
    all: destruct (bool_decide (Some (activeEnv st) = Some name)); done.
Qed.

End DeleteAndList.

(** * Interleaved invocations *)

Section Race.

Lemma returnedb_sound c i d : Interleaving.returnedb c i d = true -> Interleaving.returned c i = Some d.
Proof.
  unfold Interleaving.returnedb. destruct (Interleaving.returned c i) as [d'|]; [|discriminate].
  destruct d' as [[]|], d as [[]|]; cbn; congruence.
Qed.

Lemma destroysUnderb_sound c i name :
  Interleaving.destroysUnderb c i name = true -> Interleaving.destroysUnder c i name.
Proof.
  unfold Interleaving.destroysUnderb, Interleaving.destroysUnder. rewrite existsb_exists.
  intros (ev & Hin & H). apply andb_true_iff in H as [H H3].
  apply andb_true_iff in H as [H1 H2].
  exists ev. split_and!; try done.
  - by apply list_elem_of_In.
  - by apply Nat.eqb_eq.
  - by apply bool_decide_eq_true_1 in H3.
Qed.

Lemma deletesLockOfb_sound c i owner :
  Interleaving.deletesLockOfb c i owner = true -> Interleaving.deletesLockOf c i owner.
Proof.
  unfold Interleaving.deletesLockOfb, Interleaving.deletesLockOf. rewrite existsb_exists.
  intros (ev & Hin & H). apply andb_true_iff in H as [H1 H2].
  destruct (Interleaving.what ev) eqn:Hw; try discriminate.
  match type of Hw with _ = Rm ?p => destruct p; try discriminate end.
  destruct (Interleaving.lockBefore ev) as [[payload|]|] eqn:Hl; try discriminate.
  exists ev, payload. split_and!; try done.
  - by apply list_elem_of_In.
  - by apply Nat.eqb_eq.
  - by apply Z.eqb_eq.
Qed.

Lemma raceChecked_true : Demo.raceChecked = true.
Proof. vm_compute. reflexivity. Qed.

(** C2. One schedule of a forced exit and two enters on a tree that [x]
    occupies: the enter of [a] finds the tree busy, releases the lock and
    sleeps; when it wakes up, the [finally] block of its round deletes the
    lock marker again, which by then belongs to the enter of [c]; both
    enters then run their swaps and both report success, the enter of [a]
    resetting the tree while the record names [c]. *)
Theorem enter_race_breaks_exclusion :
  ∃ c, Interleaving.steps Demo.race Demo.contenders = Some c
       ∧ Interleaving.returned c 0 = Some Interleaving.Exited
       ∧ Interleaving.returned c 1 = Some (Interleaving.Entered true)
       ∧ Interleaving.returned c 2 = Some (Interleaving.Entered true)
       ∧ Interleaving.deletesLockOf c 1 102
       ∧ Interleaving.destroysUnder c 1 "c"
       ∧ occupant (Interleaving.world c) = Some "a".
Proof.
  pose proof raceChecked_true as H. unfold Demo.raceChecked in H.
  destruct (Interleaving.steps Demo.race Demo.contenders) as [c|]; [|discriminate].
  exists c. split; [reflexivity|].
  unfold Demo.raceOutcome in H.
  repeat (apply andb_true_iff in H as [H ?]).
  split_and!.
  - by apply returnedb_sound.
  - by apply returnedb_sound.
  - by apply returnedb_sound.
  - by apply deletesLockOfb_sound.
  - by apply destroysUnderb_sound.
  - by eapply bool_decide_eq_true_1.
Qed.

End Race.

(** * Concrete runs *)

Section Examples.

(** C1. The round trip does not reproduce every tree state.  After
    [git rm --cached file.txt], on an ordinary repository, the deletion is
    staged and the file is on disk, untracked; snapshot, reset and restore
    return normally and the file is gone from the disk: the restore
    extracts it from the archive and then applies the staged deletion to
    the tree. *)
Theorem roundtrip_loses_untracked :
  let r := run (roundTrip "s") Demo.rmCached in
  ordinary (git Demo.rmCached) = true
  ∧ outcome r = Returned tt
  ∧ untrackedFiles (git Demo.rmCached) !! "file.txt" = Some "base"
  ∧ work (git (final r)) !! "file.txt" = None
  ∧ ¬ Reproduces (git Demo.rmCached) (git (final r)).
Proof.
  cbn zeta. split_and!.
  - vm_compute. reflexivity.
  - vm_compute. reflexivity.
  - vm_compute. reflexivity.
  - vm_compute. reflexivity.
  - intros (_ & _ & H).
    apply (f_equal (fun m : Tree => m !! "file.txt")) in H.
    vm_compute in H. discriminate.
Qed.

(** With the host slot deleted, a forced exit from the occupied tree
    throws. *)
Lemma forced_exit_fails :
  occupant Demo.hostDeleted = Some "x"
  ∧ outcome (run (exitEnv 5 (Demo.me 9 None) true) Demo.hostDeleted)
    = Thrown (HostSnapshotNotFound "default").
Proof. split; vm_compute; reflexivity. Qed.


Lemma clashFree_mixed : clashFree (git Demo.mixed).
Proof.
  split; [reflexivity|]. intros p [v Hv] Hi.
  assert (Ht : headTree (git Demo.mixed) = Demo.tree0) by (vm_compute; reflexivity).
  rewrite Ht in Hv. unfold Demo.tree0 in Hv.
  apply lookup_singleton_Some in Hv as [<- _]. vm_compute in Hi. discriminate.
Qed.


Lemma exit_identity_check_witness :
  stateFile Demo.occupiedByX = Some (Parsed (mkState "x" "default" 0))
  ∧ outcome (run (exitEnv 5 (Demo.me 9 (Some "y")) false) Demo.occupiedByX)
    = Thrown (CannotExit "x" (Some "y")).
Proof.
  split; [vm_compute; reflexivity|].
  destruct (exit_identity_check 5 (Demo.me 9 (Some "y")) Demo.occupiedByX
              (mkState "x" "default" 0)) as (H & _); [vm_compute; reflexivity|].
  apply H; [discriminate|vm_compute; reflexivity|discriminate].
Defined.

Lemma enter_active_is_noop_witness :
  stateFile Demo.occupiedByX = Some (Parsed (mkState "x" "default" 0))
  ∧ outcome (run (enterEnv 5 (Demo.me 9 None) "x") Demo.occupiedByX) = Returned false.
Proof.
  split; [vm_compute; reflexivity|].
  destruct (enter_active_is_noop 5 (Demo.me 9 None) "x" Demo.occupiedByX
              (mkState "x" "default" 0)) as (_ & _ & _ & H);
    [vm_compute; reflexivity|reflexivity|].
  apply H; [vm_compute; eauto|vm_compute; reflexivity|discriminate].
Defined.



Lemma delete_fails_exactly_witness :
  plainName "default" = true
  ∧ occupant Sample.withX = None
  ∧ outcome (run (deleteEnv "default") Demo.occupiedByX) = Returned tt.
Proof.
  split; [reflexivity|]. split; [reflexivity|].
  destruct (delete_fails_exactly "default" Demo.occupiedByX) as [H _]; [reflexivity|].
  rewrite H. vm_compute. reflexivity.
Defined.

End Examples.

(** * The command line of the child *)

Section ShellWords.

#[local] Arguments String.append !s1 s2 : simpl nomatch.

Lemma append_empty_r (s : string) : s +:+ "" = s.
Proof. induction s as [|c s IH]; cbn; [reflexivity|by rewrite IH]. Qed.

Lemma append_assoc (a b c : string) : (a +:+ b) +:+ c = a +:+ (b +:+ c).
Proof. induction a as [|x a IH]; cbn; [reflexivity|by rewrite IH]. Qed.

(** Inside the quotes the shell reads the argument back, character by
    character, up to the closing quote. *)
Lemma shellWords_quoted arg : forall rest w,
  shellWords (replaceQuotes arg +:+ String "'" rest) true (Some w)
  = shellWords rest false (Some (w +:+ arg)).
Proof.
  induction arg as [|c arg IH]; intros rest w.
  - cbn. by rewrite append_empty_r.
  - cbn [replaceQuotes]. destruct (Ascii.eqb c "'") eqn:Hc.
    + apply Ascii.eqb_eq in Hc as ->. cbn. rewrite IH.
      by rewrite append_assoc.
    + cbn. rewrite Hc. unfold pushChar. cbn [default]. rewrite IH.
      by rewrite append_assoc.
Qed.

Lemma shellWords_escaped arg rest :
  shellWords (escapeShellArg arg +:+ rest) false None
  = shellWords rest false (Some arg).
Proof.
  unfold escapeShellArg. rewrite !append_assoc. cbn.
  apply (shellWords_quoted arg rest "").
Qed.

Lemma scriptOf_cons a l :
  scriptOf (a :: l)
  = escapeShellArg a +:+ match l with [] => "" | _ => " " +:+ scriptOf l end.
Proof. unfold scriptOf. destruct l; cbn; [by rewrite append_empty_r|reflexivity]. Qed.

(** X1. The shell splits the script [runCommand] builds into exactly the
    words of the command: whatever characters an argument holds, it comes
    back as one word, unchanged. *)
Theorem script_reads_back (command : list string) :
  shellWords (scriptOf command) false None = Some command.
Proof.
  induction command as [|a l IH]; [reflexivity|].
  rewrite scriptOf_cons, shellWords_escaped.
  destruct l as [|b l]; [reflexivity|].
  change (shellWords (" " +:+ scriptOf (b :: l)) false (Some a))
    with (endWord (Some a) (shellWords (scriptOf (b :: l)) false None)).
  by rewrite IH.
Qed.

End ShellWords.

(** * The environment store *)

Section Store.

Lemma storeOp_inv o :
  storeOp o = true ->
  touchesLock o = false ∧ stateOp o = false ∧ writesGit o = false ∧ isSleep o = false.
Proof.
  unfold storeOp. intros H.
  repeat (apply andb_true_iff in H as [H ?]).
  by repeat split; apply negb_true_iff.
Qed.

Lemma only_StoreOnly {A : Type} (p : Prog A) w :
  only (fun o => storeOp o = true) p -> StoreOnly w (run p w).
Proof.
  intros H. unfold StoreOnly. split; [by apply only_run|].
  split_and!.
  - apply (only_preserves git (fun o => storeOp o = true)); [|done].
    intros o w' Ho. apply git_frame. by apply storeOp_inv.
  - apply (only_preserves lockFile (fun o => storeOp o = true)); [|done].
    intros o w' Ho. apply lock_frame. by apply storeOp_inv.
  - apply (only_preserves stateFile (fun o => storeOp o = true)); [|done].
    intros o w' Ho. apply state_frame. by apply storeOp_inv.
Qed.

Lemma only_printEach P lines :
  (forall l, P (ConsoleLog l)) -> only P (printEach lines).
Proof. intros H. induction lines; cbn; [done|]. split; [apply H|]. by intros []. Qed.

(** X2. For a plain name, [createEnv], [listEnvs] and [deleteEnv] stay
    within the environment store: whatever the state of the control
    directory, they perform no operation on the working tree, the index,
    the lock or the occupancy record, which are left as they are, and they
    never sleep. *)
Theorem store_commands_stay_in_store name empty w :
  plainName name = true ->
  StoreOnly w (run (createEnv name empty) w)
  ∧ StoreOnly w (run listEnvs w)
  ∧ StoreOnly w (run (deleteEnv name) w).
Proof.
  intros _. split_and!; apply only_StoreOnly.
  - unfold createEnv. footprint.
  - unfold listEnvs. footprint; apply only_printEach; reflexivity.
  - unfold deleteEnv. footprint.
Qed.

End Store.

(** * Applying a bundle *)

Section Apply.

Lemma applyOp_inv o :
  applyOp o = true ->
  touchesLock o = false ∧ stateOp o = false ∧ writesSlots o = false.
Proof.
  unfold applyOp. intros H.
  repeat (apply andb_true_iff in H as [H ?]).
  by repeat split; apply negb_true_iff.
Qed.

Lemma only_restoreEnv name clean P :
  (forall o, applyOp o = true -> P o) ->
  (clean = true -> P GitResetHard ∧ P GitClean) ->
  only P (restoreEnv name clean).
Proof.
  intros HP Hc. unfold restoreEnv, restorePosition, restoreFiles, gitCheckout.
  destruct clean.
  - destruct Hc as [? ?]; [done|]. footprint; try done; try (apply HP; reflexivity).
  - footprint; try (apply HP; reflexivity).
Qed.

Lemma only_applyEnv name : only (fun o => applyOp o = true) (applyEnv name).
Proof.
  unfold applyEnv, ensureCcenvDirs, fileExists.
  footprint; apply only_restoreEnv; done.
Qed.

(** X3. For a plain name, on an ordinary repository with a tidy store,
    [applyEnv] is unguarded: it never takes or reads the lock, never reads
    or writes the occupancy record, never resets the tree and never writes
    a bundle, and leaves the lock, the record and the bundles as they are;
    it fails with [Environment not found] exactly when the slot is
    missing, and then leaves the tree as it is; otherwise it can fail in
    the file-level restoration only. *)
Theorem apply_is_unguarded name w :
  plainName name = true -> ordinary (git w) = true -> tidy w = true ->
  let r := run (applyEnv name) w in
  Forall (fun o => applyOp o = true) (trace r)
  ∧ slots (final r) = slots w
  ∧ stateFile (final r) = stateFile w
  ∧ lockFile (final r) = lockFile w
  ∧ outcome r ≠ Diverged
  ∧ (outcome r = Thrown (EnvironmentNotFound name) <-> slots w !! name = None)
  ∧ (slots w !! name = None -> git (final r) = git w)
  ∧ (forall e, outcome r = Thrown e -> e = EnvironmentNotFound name ∨ restoreError e).
Proof.
  intros _ _ _.
  cbn zeta. pose proof (only_applyEnv name) as Ho.
  split; [by apply only_run|].
  split; [|split; [|split]].
  - apply (only_preserves slots (fun o => applyOp o = true)); [|done].
    intros o w' H. apply slots_frame. by apply applyOp_inv.
  - apply (only_preserves stateFile (fun o => applyOp o = true)); [|done].
    intros o w' H. apply state_frame. by apply applyOp_inv.
  - apply (only_preserves lockFile (fun o => applyOp o = true)); [|done].
    intros o w' H. apply lock_frame. by apply applyOp_inv.
  - clear Ho. unfold applyEnv.
    assert (He : exists w0, git w0 = git w ∧ slots w0 = slots w
       ∧ run (ensureCcenvDirs ≫= (fun _ => fileExists (EnvDir name) ≫= (fun found =>
               if negb found then Throw (EnvironmentNotFound name)
               else restoreEnv name false))) w
         = let r := run (if negb (bool_decide (is_Some (slots w !! name)))
                         then Throw (EnvironmentNotFound name)
                         else restoreEnv name false) w0 in
           mkRun (MkdirEnvs :: Access CONFIG_FILE ::
                  (if bool_decide (is_Some (config w)) then [] else [WriteConfig ("{}" +:+ nl)])
                  ++ Access (EnvDir name) :: trace r) (final r) (outcome r)).
    { unfold ensureCcenvDirs, fileExists. cbn.
      destruct (config w) eqn:Hc; cbn.
      - exists w. split_and!; done.
      - exists (setConfig w (Some ("{}" +:+ nl))). done. }
    destruct He as (w0 & Hg & Hs & ->). cbn zeta.
    destruct (slots w !! name) as [sl|] eqn:Hsl.
    + rewrite (bool_decide_eq_true_2 (is_Some (Some sl))) by (by eexists). cbn [negb].
      destruct (restoreEnv_run name false w0) as (_ & HfP & _ & ->).
      set (rP := positionRun name (resetWorld false w0)) in *. clearbody rP.
      destruct (restoreFiles_steps name (final rP)) as (_ & _ & _ & Herr & Hdiv & _).
      cbn [trace final outcome].
      split_and!; try done.
      * split; [|done]. intros H. apply Herr in H. by destruct H as [|[|]].
      * intros e H. right. by apply Herr.
    + rewrite (bool_decide_eq_false_2 (is_Some (@None Slot))) by (by intros [? ?]). cbn.
      split_and!; try done. intros e [= <-]. by left.
Qed.

End Apply.

(** * A marker nobody removes *)

Section StaleLock.

Lemma acquireLock_loop_respects fuel : forall ctx timeoutMs start w content,
  lockFile w = Some content ->
  let r := run (acquireLock_loop fuel ctx timeoutMs start) w in
  outcome r ≠ Returned tt
  ∧ lockFile (final r) = Some content
  ∧ Untouched w (final r)
  ∧ (forall e, outcome r = Thrown e ->
       e = LockTimeout timeoutMs (HeldBy content)
       ∧ (timeoutMs < now (final r) - start)%Z)
  ∧ Forall (fun o => o = OpenWx ∨ o = DateNow ∨ o = Sleep 100 ∨ o = ReadLock) (trace r).
Proof.
  induction fuel as [|fuel IH]; intros ctx timeoutMs start w content Hl; cbn zeta.
  - cbn. split_and!; done.
  - cbn. rewrite Hl. cbn.
    destruct (Z.gtb_spec (now w - start) timeoutMs) as [Hgt|Hle]; cbn.
    + rewrite Hl. split_and!; try done; try (by repeat split).
      all: try (intros e [= <-]; split; [done|lia]).
      all: repeat (apply Forall_cons; split; [solve [auto 6]|]); try apply Forall_nil; try done.
    + specialize (IH ctx timeoutMs start (setNow w (now w + 100)%Z) content Hl).
      cbn zeta in IH. destruct IH as (Hr & Hk & Hu & He & Ht).
      split_and!; try done; try apply Hu.
      all: repeat (apply Forall_cons; split; [solve [auto 6]|]); try apply Forall_nil; try done.
Qed.

(** X4. A marker that nobody removes is never broken: as long as it is
    there [acquireLock] does not return, it neither deletes nor rewrites
    the marker, and when it gives up, later than the deadline, the error
    names what the marker holds.  There is no recovery from the marker of
    a process that died. *)
Theorem held_lock_is_never_broken fuel ctx timeoutMs w content :
  lockFile w = Some content ->
  let r := run (acquireLock fuel ctx timeoutMs) w in
  outcome r ≠ Returned tt
  ∧ lockFile (final r) = Some content
  ∧ Untouched w (final r)
  ∧ (forall e, outcome r = Thrown e ->
       e = LockTimeout timeoutMs (HeldBy content)
       ∧ (timeoutMs < now (final r) - now w)%Z)
  ∧ Forall (fun o => o = OpenWx ∨ o = DateNow ∨ o = Sleep 100 ∨ o = ReadLock) (trace r).
Proof.
  intros Hl. cbn zeta. unfold acquireLock. cbn.
  destruct (acquireLock_loop_respects fuel ctx timeoutMs (now w) w content Hl)
    as (Hr & Hk & Hu & He & Ht).
  split_and!; try done. apply Forall_cons; split; [auto 6|done].
Qed.

End StaleLock.

(** * Releasing the lock *)

Section LockLeak.

Lemma only_dumpEnv name P :
  (forall o, touchesLock o = false -> stateOp o = false -> writesGit o = false ->
             isSleep o = false -> P o) ->
  only P (dumpEnv name).
Proof.
  intros HP. unfold dumpEnv, writeInfo, fileExists.
  footprint; apply HP; reflexivity.
Qed.

Lemma halts_dumpEnv name : halts (dumpEnv name).
Proof. unfold dumpEnv, writeInfo, fileExists. footprint. Qed.

Lemma halts_restoreEnv name clean : halts (restoreEnv name clean).
Proof.
  unfold restoreEnv, restorePosition, restoreFiles, gitCheckout, cleanWorkspace.
  footprint.
Qed.

Lemma halts_exitAttempt ctx force : halts (exitAttempt ctx force).
Proof.
  unfold exitAttempt, readState, ensureEnvDir, logInternal, dumpEnv, writeInfo,
    fileExists, cleanWorkspace, restoreEnv, restorePosition, restoreFiles, gitCheckout,
    fileNotEmpty, logInternalError.
  footprint.
Qed.

Lemma only_exitAttempt ctx force :
  only (fun o => touchesLock o = false) (exitAttempt ctx force).
Proof.
  unfold exitAttempt, readState, ensureEnvDir, logInternal, dumpEnv, writeInfo,
    fileExists, cleanWorkspace, restoreEnv, restorePosition, restoreFiles, gitCheckout,
    fileNotEmpty, logInternalError.
  footprint.
Qed.

Lemma lock_exitAttempt ctx force w :
  lockFile (final (run (exitAttempt ctx force) w)) = lockFile w.
Proof.
  apply (only_preserves lockFile (fun o => touchesLock o = false)).
  { intros o w'. apply lock_frame. }
  apply only_exitAttempt.
Qed.

Lemma exitEnv_completes fuel ctx force w :
  lockFile w = None -> fuel ≠ 0%nat ->
  let r := run (exitEnv fuel ctx force) w in
  outcome r ≠ Diverged ∧ lockFile (final r) = None.
Proof.
  intros Hl Hf. cbn zeta. rewrite exitEnv_run. cbn zeta.
  destruct fuel as [|fuel]; [done|].
  unfold andThen at 1. cbn [trace final outcome].
  rewrite acquireLock_free by done.
  unfold andThen. cbn [trace final outcome].
  match goal with |- context [run (exitAttempt ctx force) ?w2] =>
    pose proof (halts_run _ (halts_exitAttempt ctx force) w2) as Hh;
    destruct (run (exitAttempt ctx force) w2) as [tr fw [[]|e|]]
  end; [| |done].
  - unfold orElse, andFinally. cbn [trace final outcome].
    rewrite run_releaseLock. cbn [trace final outcome]. by split.
  - unfold orElse, andFinally. cbn [trace final outcome].
    rewrite run_releaseLock. cbn [trace final outcome]. by split.
Qed.

Lemma enterEnv_loop_releases fuel : forall lockFuel ctx name start w,
  lockFile w = None ->
  let r := run (enterEnv_loop fuel lockFuel ctx name start) w in
  outcome r ≠ Diverged -> lockFile (final r) = None.
Proof.
  induction fuel as [|fuel IH]; intros lockFuel ctx name start w Hl; cbn zeta.
  - cbn. done.
  - rewrite enterEnv_loop_S. cbn [run perform fst snd trace final outcome].
    destruct (now w - start >? ENTER_TIMEOUT_MS)%Z.
    { cbn. intros _. exact Hl. }
    rewrite run_bind. destruct lockFuel as [|lockFuel].
    { cbn. intros H. by destruct H. }
    rewrite acquireLock_free by done.
    unfold andThen. cbn [trace final outcome].
    rewrite run_bind, enterRound_run.
    match goal with |- context [run (enterAttempt name) ?w2] =>
      destruct (run (enterAttempt name) w2) as [tr fw [x|e|]]
    end; unfold orElse, andFinally, andThen; cbn [trace final outcome];
      rewrite ?run_releaseLock; cbn [trace final outcome];
      try (intros H; by destruct H); try (intros _; reflexivity).
    destruct x as [|b]; cbn [trace final outcome]; [|intros _; reflexivity].
    apply IH. reflexivity.
Qed.

(** X5. Neither [exitEnv] nor [enterEnv], running alone, leaves the lock
    behind: started with the lock free, [exitEnv] always completes, and
    whenever either completes, with a result or with an error, the lock is
    free again. *)
Theorem lock_is_never_leaked fuel ctx name force w :
  lockFile w = None ->
  (fuel ≠ 0%nat ->
   outcome (run (exitEnv fuel ctx force) w) ≠ Diverged
   ∧ lockFile (final (run (exitEnv fuel ctx force) w)) = None)
  ∧ (outcome (run (enterEnv fuel ctx name) w) ≠ Diverged ->
     lockFile (final (run (enterEnv fuel ctx name) w)) = None).
Proof.
  intros Hl. split; [by apply exitEnv_completes|].
  unfold enterEnv, ensureCcenvDirs, fileExists, logInternal. cbn.
  destruct (config w), (slots w !! name) eqn:Hs; cbn; rewrite ?Hs; cbn;
    try (intros _; exact Hl); apply enterEnv_loop_releases; exact Hl.
Qed.

End LockLeak.

(** * Entering: the slot is missing, the tree is busy *)

Section EnterEdges.

(** X6. [enterEnv] on a plain name that has no slot fails at once with
    [Environment not found]: it does not sleep, does not go near the lock,
    even when another process holds it, performs no snapshot, reset,
    restore or state write, and leaves the tree, the bundles, the
    occupancy record and the lock as they are. *)
Theorem enter_missing_env_fails_fast fuel ctx name w :
  plainName name = true ->
  slots w !! name = None ->
  let r := run (enterEnv fuel ctx name) w in
  outcome r = Thrown (EnvironmentNotFound name)
  ∧ Untouched w (final r)
  ∧ lockFile (final r) = lockFile w
  ∧ Forall (fun o => touchesLock o = false ∧ destructive o = false ∧ isSleep o = false)
           (trace r).
Proof.
  intros _ Hs. cbn zeta. unfold enterEnv, ensureCcenvDirs, fileExists, logInternal. cbn.
  destruct (config w); cbn; rewrite Hs; cbn.
  all: split_and!; try done; try (by repeat split).
  all: repeat (apply Forall_cons; split; [done|]); try apply Forall_nil; done.
Qed.

#[local] Arguments acquireLock : simpl never.
#[local] Arguments enterEnv_loop : simpl never.

Lemma enterRound_busy name w st :
  stateFile w = Some (Parsed st) -> activeEnv st ≠ name -> lockFile w ≠ None ->
  let busy := LogText ("enterEnv(" +:+ name +:+ ") busy (active: " +:+ activeEnv st
                       +:+ "), waiting...") in
  run (enterRound name) w =
    mkRun [ReadState; Rm LOCK_FILE; AppendLog busy; Sleep 1000; Rm LOCK_FILE]
          (setNow (setLog (setLock w None) (internalLog w ++ [busy])) (now w + 1000)%Z)
          (Returned Continue).
Proof.
  intros Hst Hname Hl. cbn zeta. unfold enterRound, enterAttempt. cbn. rewrite Hst. cbn.
  apply String.eqb_neq in Hname. rewrite Hname. cbn.
  destruct (lockFile w) eqn:Hlw; [|done]. cbn. reflexivity.
Qed.

#[local] Arguments enterRound : simpl never.

Lemma enterEnv_loop_busy (k : nat) : forall fuel lockFuel ctx name start w st,
  stateFile w = Some (Parsed st) -> activeEnv st ≠ name -> lockFile w = None ->
  (k < fuel)%nat -> lockFuel ≠ 0%nat ->
  (ENTER_TIMEOUT_MS - (now w - start) < 1000 * Z.of_nat k)%Z ->
  (k = 0%nat ∨ 1000 * (Z.of_nat k - 1) <= ENTER_TIMEOUT_MS - (now w - start))%Z ->
  let r := run (enterEnv_loop fuel lockFuel ctx name start) w in
  outcome r = Thrown EnterTimeout
  ∧ Untouched w (final r)
  ∧ lockFile (final r) = None
  ∧ now (final r) = (now w + 1000 * Z.of_nat k)%Z
  ∧ Forall (fun o => destructive o = false) (trace r)
  ∧ length (List.filter isSleep (trace r)) = k.
Proof.
  induction k as [|k IH]; intros fuel lockFuel ctx name start w st Hst Hname Hl Hf Hlf Hlt Hge;
    cbn zeta.
  - destruct fuel as [|fuel]; [lia|]. rewrite enterEnv_loop_S. cbn.
    destruct (Z.gtb_spec (now w - start) ENTER_TIMEOUT_MS) as [_|Hle]; [|lia].
    cbn. split_and!; try done; try lia.
    repeat constructor.
  - destruct fuel as [|fuel]; [lia|]. rewrite enterEnv_loop_S. cbn.
    destruct (Z.gtb_spec (now w - start) ENTER_TIMEOUT_MS) as [Hgt|Hle]; [lia|].
    rewrite run_bind. destruct lockFuel as [|lockFuel]; [done|].
    rewrite acquireLock_free by done. unfold andThen. cbn [trace final outcome].
    rewrite run_bind.
    rewrite (enterRound_busy name _ st) by done.
    cbn zeta. unfold andThen. cbn [trace final outcome].
    match goal with |- context [run (enterEnv_loop fuel ?lf ctx name start) ?w2] =>
      pose proof (IH fuel lf ctx name start w2 st) as IHk;
      set (r' := run (enterEnv_loop fuel lf ctx name start) w2) in *
    end.
    cbn zeta in IHk.
    destruct IHk as (Ho & (Hu1 & Hu2 & Hu3) & Hk & Hn & Ht & Hc);
      try done; try (cbn; lia).
    clearbody r'. cbn in Hu1, Hu2, Hu3, Hn. cbn.
    split_and!; try done; try lia.
    all: try (repeat (apply Forall_cons; split; [done|]); done).
    all: try (by rewrite Hc).
Qed.

(** X7. [enterEnv] on a tree that another environment keeps occupying,
    running alone, the clock advancing by the sleeps only: it polls the
    occupancy record once a second, sleeps 301 times, and then fails with
    the timeout error, 301 seconds after it started; meanwhile it performs
    no snapshot, reset, restore or state write, and it leaves the lock
    free. *)
Theorem enter_busy_times_out fuel ctx name w st :
  stateFile w = Some (Parsed st) -> activeEnv st ≠ name ->
  is_Some (slots w !! name) -> lockFile w = None -> (301 < fuel)%nat ->
  let r := run (enterEnv fuel ctx name) w in
  outcome r = Thrown EnterTimeout
  ∧ Untouched w (final r)
  ∧ lockFile (final r) = None
  ∧ now (final r) = (now w + 301000)%Z
  ∧ Forall (fun o => destructive o = false) (trace r)
  ∧ length (List.filter isSleep (trace r)) = 301%nat.
Proof.
  intros Hst Hname [sl Hsl] Hl Hf. cbn zeta.
  unfold enterEnv, ensureCcenvDirs, fileExists, logInternal. cbn.
  destruct (config w) eqn:Hc; cbn; rewrite Hsl; cbn.
  all: match goal with |- context [run (enterEnv_loop ?f ?lf ?c ?n ?s) ?w2] =>
      pose proof (enterEnv_loop_busy 301 f lf c n s w2 st) as Hk;
      set (r' := run (enterEnv_loop f lf c n s) w2) in *
    end.
  all: cbn zeta in Hk.
  all: destruct Hk as (Ho & (Hu1 & Hu2 & Hu3) & Hk & Hn & Ht & Hcount);
      try done; try lia; try (cbn; unfold ENTER_TIMEOUT_MS; lia).
  all: clearbody r'; cbn in Hu1, Hu2, Hu3, Hn; cbn.
  all: split_and!; try done.
  all: repeat (apply Forall_cons; split; [done|]); done.
Qed.

End EnterEdges.

(** * Leaving: what is saved, what comes back *)

Section ExitSwap.

#[local] Arguments acquireLock : simpl never.
#[local] Arguments exitAttempt : simpl never.
#[local] Arguments dumpEnv : simpl never.
#[local] Arguments restoreEnv : simpl never.
#[local] Arguments exists_ : simpl never.
#[local] Arguments restoreFiles : simpl never.
#[local] Arguments restorePosition : simpl never.
#[local] Arguments dumped : simpl never.
#[local] Arguments resetHard : simpl never.
#[local] Arguments gitClean : simpl never.

Lemma slotOf_mkdir w name l :
  slotOf (setLog (setSlots w (<[name := slotOf w name]> (slots w))) l) name
  = slotOf w name.
Proof. unfold slotOf at 1. cbn. by rewrite lookup_insert_eq. Qed.

Lemma exitAttempt_swap ctx w st :
  lsOthers (git w) = untrackedPaths (git w) ->
  stateFile w = Some (Parsed st) ->
  let r := run (exitAttempt ctx true) w in
  let saved := <[activeEnv st := dumped (git w) (now w) (slotOf w (activeEnv st))]> (slots w) in
  slots (final r) = saved
  ∧ (forall e, outcome r = Thrown e -> stateFile (final r) = stateFile w)
  ∧ (saved !! hostEnv st = None ->
     outcome r = Thrown (HostSnapshotNotFound (hostEnv st))
     ∧ git (final r) = gitClean (resetHard (git w)))
  ∧ outcome r ≠ Diverged
  ∧ (outcome r = Returned tt -> stateFile (final r) = None).
Proof.
  intros Hls Hst. cbn zeta. unfold exitAttempt. cbn. rewrite Hst. cbn.
  rbind.
  match goal with |- context [run (dumpEnv ?n) ?w0] =>
    destruct (dumpEnv_run n w0 Hls) as (trD & -> & _ & _) end.
  unfold andThen. cbn.
  rewrite slotOf_mkdir, insert_insert_eq.
  set (saved := <[activeEnv st := dumped (git w) (now w) (slotOf w (activeEnv st))]> (slots w)).
  match goal with |- context [exists_ ?w0 (EnvDir ?h)] => set (wC := w0) in * end.
  assert (HC : slots wC = saved ∧ stateFile wC = stateFile w
               ∧ git wC = gitClean (resetHard (git w)) ∧ now wC = now w) by done.
  clearbody wC. destruct HC as (HCs & HCst & HCg & HCn).
  destruct (exists_ wC (EnvDir (hostEnv st))) eqn:Hhost; cbn.
  2: { split_and!; try done; intros; congruence. }
  assert (Hsome : saved !! hostEnv st ≠ None).
  { unfold exists_ in Hhost. rewrite HCs in Hhost.
    apply bool_decide_eq_true_1 in Hhost as [? Hx]. by rewrite Hx. }
  rbind.
  match goal with |- context [run (restoreEnv ?n ?c) ?w0] =>
    destruct (restoreEnv_run n c w0) as (_ & HfP & _ & ->) end.
  match goal with |- context [positionRun ?n (resetWorld ?c ?w0)] =>
    set (rP := positionRun n (resetWorld c w0)) in *; clearbody rP end.
  abstract (
    destruct (restoreFiles_steps (hostEnv st) (final rP)) as (_ & _ & _ & Herr & Hdiv & HfF);
    unfold andThen; cbn [trace final outcome];
    pose proof (Framed_trans _ _ _ HfP HfF) as (Hsl & Hsf & Hlk & _ & Hnow & _);
    cbn in Hsl, Hsf, Hlk, Hnow;
    destruct (run (restoreFiles (hostEnv st)) (final rP)) as [trF wF [[]|e|]];
      cbn [trace final outcome] in *;
    [ assert (Hex : exists_ wF STATE_FILE = true) by
        (unfold exists_; rewrite Hsf, HCst, Hst; by apply bool_decide_eq_true_2);
      cbn; rewrite Hex; cbn; split_and!; try done; intros; congruence
    | split_and!; try done; intros; congruence
    | split_and!; try done; intros; congruence ]).
Qed.

Lemma exitEnv_as_attempt fuel ctx force w st :
  stateFile w = Some (Parsed st) ->
  force = true ∨ CCENV_ACTIVE ctx = Some (activeEnv st) ->
  lockFile w = None -> fuel ≠ 0%nat ->
  ∃ w2, let r := run (exitEnv fuel ctx force) w in
        let a := run (exitAttempt ctx true) w2 in
        git w2 = git w ∧ slots w2 = slots w ∧ stateFile w2 = stateFile w ∧ now w2 = now w
        ∧ outcome r = outcome a
        ∧ git (final r) = git (final a) ∧ slots (final r) = slots (final a)
        ∧ stateFile (final r) = stateFile (final a) ∧ now (final r) = now (final a).
Proof.
  intros Hst Hid Hl Hf. destruct fuel as [|fuel]; [done|].
  set (w1 := setLog w (internalLog w ++ [LogText "exitEnv() requesting lock"])).
  exists (setLock w1 (Some (Some (mkLock (procPid ctx) (procHost ctx) (now w1))))).
  cbn zeta. rewrite exitEnv_run. cbn zeta.
  unfold andThen at 1. cbn [trace final outcome].
  fold w1. rewrite acquireLock_free by done.
  unfold andThen. cbn [trace final outcome].
  assert (Hsame : forall w2, stateFile w2 = stateFile w ->
            run (exitAttempt ctx force) w2 = run (exitAttempt ctx true) w2).
  { intros w2 Hw2. destruct Hid as [->|Hid]; [done|].
    rewrite (exitAttempt_force ctx w2 st) by congruence.
    destruct force; [by apply exitAttempt_force; congruence|].
    destruct ctx as [p h a]. cbn in Hid. by subst a. }
  rewrite Hsame by done.
  match goal with |- context [run (exitAttempt ctx true) ?w2] =>
    pose proof (halts_run _ (halts_exitAttempt ctx true) w2) as Hh;
    destruct (run (exitAttempt ctx true) w2) as [tr fw [[]|e|]]
  end; [| |done].
  all: unfold orElse, andFinally; cbn [trace final outcome];
    rewrite run_releaseLock; cbn [trace final outcome]; cbn; by split_and!.
Qed.

Lemma exitAttempt_restores ctx w st g0 t old :
  lsOthers (git w) = untrackedPaths (git w) ->
  stateFile w = Some (Parsed st) ->
  hostEnv st ≠ activeEnv st ->
  slots w !! hostEnv st = Some (dumped g0 t old) ->
  clashFree g0 ->
  gitClean (resetHard (git w)) = gitClean (resetHard g0) ->
  let r := run (exitAttempt ctx true) w in
  outcome r = Returned tt ∧ sameFiles g0 (git (final r)).
Proof.
  intros Hls Hst Hne Hhost Hcf Hclean. cbn zeta. unfold exitAttempt. cbn. rewrite Hst. cbn.
  rbind.
  match goal with |- context [run (dumpEnv ?n) ?w0] =>
    destruct (dumpEnv_run n w0 Hls) as (trD & -> & _ & _) end.
  unfold andThen. cbn.
  rewrite slotOf_mkdir, insert_insert_eq.
  set (saved := <[activeEnv st := dumped (git w) (now w) (slotOf w (activeEnv st))]> (slots w)).
  match goal with |- context [exists_ ?w0 (EnvDir ?h)] => set (wC := w0) in * end.
  assert (HC : slots wC = saved ∧ stateFile wC = stateFile w
               ∧ git wC = gitClean (resetHard (git w))) by done.
  clearbody wC. destruct HC as (HCs & HCst & HCg).
  assert (Hsv : saved !! hostEnv st = Some (dumped g0 t old)).
  { unfold saved. by rewrite lookup_insert_ne. }
  assert (Hex : exists_ wC (EnvDir (hostEnv st)) = true).
  { unfold exists_. rewrite HCs, Hsv. by apply bool_decide_eq_true_2. }
  rewrite Hex. cbn.
  rbind.
  match goal with |- context [run (restoreEnv ?n ?c) ?w0] =>
    set (wR := w0) in *;
    destruct (restoreEnv_run n c wR) as (_ & HfP & _ & ->) end.
  assert (HR : slots wR = saved ∧ stateFile wR = stateFile w
               ∧ git wR = gitClean (resetHard g0)).
  { subst wR. cbn. by rewrite HCs, HCst, HCg, Hclean. }
  clearbody wR. destruct HR as (HRs & HRst & HRg).
  change (resetWorld false wR) with wR in *.
  assert (HgP : sameFiles (git wR) (git (final (positionRun (hostEnv st) wR)))).
  { unfold positionRun.
    assert (Hinfo : info (slotOf wR (hostEnv st)) =
              Some (Parsed (mkInfo (revParseHead (git wR)) (abbrevRef (git wR)) t))).
    { unfold slotOf. rewrite HRs, Hsv, HRg. reflexivity. }
    unfold slotHas. rewrite Hinfo. rewrite bool_decide_eq_true_2 by eauto.
    by eapply restorePosition_same. }
  set (rP := positionRun (hostEnv st) wR) in *. clearbody rP.
  abstract (
    destruct HgP as (Hh & Hi & Hw & Hg);
    destruct HfP as (Hsl & Hsf & _);
    destruct (restoreFiles_dumped (hostEnv st) (final rP) g0 t old)
      as (Ho & Hi' & Hw' & Hh' & Hg');
      [ done | by rewrite Hsl, HRs | by rewrite Hi, HRg | by rewrite Hw, HRg | ];
    destruct (restoreFiles_steps (hostEnv st) (final rP)) as (_ & _ & _ & _ & _ & HfF);
    destruct HfF as (_ & HsfF & _);
    unfold andThen; cbn [trace final outcome];
    destruct (run (restoreFiles (hostEnv st)) (final rP)) as [trF wF oF];
      cbn [trace final outcome] in *; subst oF;
    assert (HexS : exists_ wF STATE_FILE = true) by
      (unfold exists_; rewrite HsfF, Hsf, HRst, Hst; by apply bool_decide_eq_true_2);
    cbn; rewrite HexS; cbn;
    split; [done|];
    unfold sameFiles; split_and!; try done;
    [ by rewrite Hh', Hh, HRg | by rewrite Hg', Hg, HRg ]).
Qed.

Lemma exitEnv_restores fuel ctx force w st g0 t old :
  lsOthers (git w) = untrackedPaths (git w) ->
  stateFile w = Some (Parsed st) ->
  force = true ∨ CCENV_ACTIVE ctx = Some (activeEnv st) ->
  lockFile w = None -> fuel ≠ 0%nat ->
  hostEnv st ≠ activeEnv st ->
  slots w !! hostEnv st = Some (dumped g0 t old) ->
  clashFree g0 ->
  gitClean (resetHard (git w)) = gitClean (resetHard g0) ->
  let r := run (exitEnv fuel ctx force) w in
  outcome r = Returned tt
  ∧ sameFiles g0 (git (final r))
  ∧ stateFile (final r) = None
  ∧ lockFile (final r) = None
  ∧ slots (final r) !! activeEnv st
    = Some (dumped (git w) (now w) (slotOf w (activeEnv st))).
Proof.
  intros Hls0 Hst Hid Hl Hf Hne Hhost Hcf Hclean. cbn zeta.
  destruct (exitEnv_as_attempt fuel ctx force w st Hst Hid Hl Hf)
    as (w2 & Hg & Hs & Hs2 & Hn & Ho & Hfg & Hfs & Hfst & Hfn).
  cbn zeta in Ho, Hfg, Hfs, Hfst, Hfn.
  assert (Hst2 : stateFile w2 = Some (Parsed st)) by congruence.
  assert (Hls : lsOthers (git w2) = untrackedPaths (git w2)) by (by rewrite Hg).
  destruct (exitAttempt_restores ctx w2 st g0 t old) as (Hout & Hsame);
    try done; try congruence.
  destruct (exitAttempt_swap ctx w2 st Hls Hst2) as (Hsaved & _ & _ & _ & Hret).
  cbn zeta in Hsaved, Hret.
  rewrite Ho, Hfg, Hfs, Hfst, Hout.
  split_and!; try done.
  - by apply Hret.
  - by apply exitEnv_completes.
  - rewrite Hsaved, lookup_insert_eq. unfold slotOf. by rewrite Hg, Hn, Hs.
Qed.


(** X9. [exitEnv] when the slot of the host is gone, on an ordinary
    repository with a tidy store and plain names: the workspace is reset
    before the slot is looked for, so the exit fails with [Host snapshot
    not found] on a tree that is already reset to HEAD, still recorded as
    occupied, with the lock released. *)
Theorem exit_without_host_slot fuel ctx force w st :
  ordinary (git w) = true -> tidy w = true ->
  plainName (activeEnv st) = true -> plainName (hostEnv st) = true ->
  stateFile w = Some (Parsed st) ->
  force = true ∨ CCENV_ACTIVE ctx = Some (activeEnv st) ->
  lockFile w = None -> fuel ≠ 0%nat ->
  hostEnv st ≠ activeEnv st -> slots w !! hostEnv st = None ->
  let r := run (exitEnv fuel ctx force) w in
  outcome r = Thrown (HostSnapshotNotFound (hostEnv st))
  ∧ git (final r) = gitClean (resetHard (git w))
  ∧ stateFile (final r) = stateFile w
  ∧ lockFile (final r) = None.
Proof.
  intros Hord _ _ _ Hst Hid Hl Hf Hne Hno. cbn zeta.
  destruct (exitEnv_as_attempt fuel ctx force w st Hst Hid Hl Hf)
    as (w2 & Hg & Hs & Hs2 & Hn & Ho & Hfg & Hfs & Hfst & Hfn).
  cbn zeta in Ho, Hfg, Hfs, Hfst, Hfn.
  assert (Hst2 : stateFile w2 = Some (Parsed st)) by congruence.
  assert (Hls : lsOthers (git w2) = untrackedPaths (git w2))
    by (rewrite Hg; by apply ordinary_listed).
  destruct (exitAttempt_swap ctx w2 st Hls Hst2) as (_ & Herr & Hhost & _).
  cbn zeta in Herr, Hhost.
  destruct Hhost as (Hout & Hgit).
  { rewrite lookup_insert_ne by done. by rewrite Hs. }
  rewrite Ho, Hfg, Hfst, Hout, Hgit, Hg, (Herr _ Hout).
  split_and!; try done.
  by apply exitEnv_completes.
Qed.


End ExitSwap.

(** * What a bundle holds *)

Section SnapshotContent.

Lemma untracked_dumped g t old p c :
  (∃ a, untracked (dumped g t old) = Some a ∧ a !! p = Some c)
  <-> work g !! p = Some c ∧ index g !! p = None ∧ ignored g p = false
      ∧ p ≠ "" ∧ outsideControl p = true.
Proof.
  unfold dumped. cbn [untracked].
  set (l := untrackedFiltered (untrackedPaths g)).
  assert (Hin : p ∈ l <-> is_Some (work g !! p) ∧ index g !! p = None
                          ∧ ignored g p = false ∧ p ≠ "" ∧ outsideControl p = true).
  { unfold l. rewrite elem_of_untrackedFiltered, elem_of_untrackedPaths. tauto. }
  split.
  - intros (a & Ha & Hp).
    destruct (0 <? length l)%nat; [|done].
    assert (Ea : a = (tarCreate l g).1) by congruence.
    rewrite Ea, lookup_tarCreate in Hp.
    destruct (decide (p ∈ l)) as [Hl|]; [|done].
    apply Hin in Hl. tauto.
  - intros (Hw & Hrest).
    assert (Hl : p ∈ l) by (apply Hin; split; [by eexists|done]).
    destruct (0 <? length l)%nat eqn:Hlen.
    + eexists. split; [reflexivity|].
      rewrite lookup_tarCreate. by rewrite decide_True.
    + apply Nat.ltb_ge in Hlen. destruct l; [by apply elem_of_nil in Hl|cbn in Hlen; lia].
Qed.

Lemma has_untracked_dumped g t old :
  is_Some (untracked (dumped g t old))
  <-> ∃ p c, work g !! p = Some c ∧ index g !! p = None ∧ ignored g p = false
             ∧ p ≠ "" ∧ outsideControl p = true.
Proof.
  split.
  - unfold dumped. cbn [untracked].
    destruct (untrackedFiltered (untrackedPaths g)) as [|p l] eqn:Hl; cbn; [by intros [? ?]|].
    intros _. assert (Hp : p ∈ untrackedFiltered (untrackedPaths g)) by (rewrite Hl; left).
    apply elem_of_untrackedFiltered in Hp as (Hp & ? & ?).
    apply elem_of_untrackedPaths in Hp as ([c Hc] & ? & ?). by exists p, c.
  - intros (p & c & H). apply (untracked_dumped g t old) in H as (a & -> & _). by eexists.
Qed.


Lemma cQuote_quoted p :
  existsb quotedByGit (list_ascii_of_string p) = true ->
  firstChar (cQuote p) = Some "034"%char
  ∧ cQuote p ≠ "" ∧ outsideControl (cQuote p) = true.
Proof.
  intros H. unfold cQuote. rewrite H. by split_and!.
Qed.


End SnapshotContent.

(** * The reset *)

Section Reset.

Lemma headTree_reset_clean g : headTree (gitClean (resetHard g)) = headTree g.
Proof. reflexivity. Qed.

Lemma diffWork_reset_clean g : diffWork (gitClean (resetHard g)) = ∅.
Proof.
  apply map_eq. intros p. rewrite lookup_diffWork, lookup_empty.
  rewrite lookup_reset_clean_work.
  change (index (gitClean (resetHard g))) with (headTree g).
  destruct (headTree g !! p) as [c|]; [|done]. by rewrite decide_True.
Qed.

Lemma reset_clean_idem g :
  gitClean (resetHard (gitClean (resetHard g))) = gitClean (resetHard g).
Proof.
  set (g' := gitClean (resetHard g)).
  assert (Hw : work (gitClean (resetHard g')) = work g').
  { apply map_eq. intros p. rewrite lookup_reset_clean_work.
    change (headTree g') with (headTree g).
    change (index g') with (headTree g). change (ignored g') with (ignored g).
    unfold g'. rewrite lookup_reset_clean_work.
    destruct (headTree g !! p) as [c|]; [done|].
    destruct (index g !! p); [by case_decide|].
    by case_decide. }
  change (gitClean (resetHard g')) with
    (mkGit (commits g') (branches g') (head g') (index g')
           (work (gitClean (resetHard g'))) (ignored g')).
  rewrite Hw. reflexivity.
Qed.

(** After the reset git still lists the untracked files as they are. *)
Lemma reset_clean_listed g :
  ordinary g = true ->
  lsOthers (gitClean (resetHard g)) = untrackedPaths (gitClean (resetHard g)).
Proof.
  intros Hord. apply lsOthers_plain. apply forallb_forall. intros p Hp.
  apply list_elem_of_In, elem_of_untrackedPaths in Hp as ([c Hw] & Hi & Hg).
  rewrite lookup_reset_clean_work in Hw.
  change (index (gitClean (resetHard g))) with (headTree g) in Hi.
  change (ignored (gitClean (resetHard g))) with (ignored g) in Hg.
  rewrite Hi in Hw.
  destruct (index g !! p) eqn:Ei; [done|]. case_decide; [|done].
  assert (Hin : p ∈ untrackedPaths g) by (apply elem_of_untrackedPaths; eauto).
  unfold ordinary in Hord. repeat (apply andb_true_iff in Hord as [Hord ?]).
  match goal with
  | F : forallb plainPath (untrackedPaths g) = true |- _ =>
      rewrite forallb_forall in F; apply F
  end.
  by apply list_elem_of_In.
Qed.

(** X12. On an ordinary repository [cleanWorkspace] returns and leaves the
    tree at HEAD: the index is the tree of HEAD, nothing is staged or
    modified, and every path that is neither ignored nor below a [.ccenv]
    directory holds what HEAD holds there, or nothing.  Untracked files
    that are ignored or below a [.ccenv] directory are kept.  HEAD does not
    move, the bundles, the occupancy record and the lock are not touched,
    and a second reset changes nothing. *)
Theorem reset_leaves_head w :
  ordinary (git w) = true ->
  let r := run cleanWorkspace w in
  let g := git w in
  let g' := git (final r) in
  outcome r = Returned tt
  ∧ head g' = head g ∧ commits g' = commits g ∧ branches g' = branches g
  ∧ index g' = headTree g
  ∧ diffCached g' = ∅ ∧ diffWork g' = ∅
  ∧ (forall p, ignored g p = false -> cleanExcluded p = false ->
       work g' !! p = headTree g !! p)
  ∧ (forall p, headTree g !! p = None -> index g !! p = None ->
       ignored g p = true ∨ cleanExcluded p = true ->
       work g' !! p = work g !! p)
  ∧ slots (final r) = slots w ∧ stateFile (final r) = stateFile w
  ∧ lockFile (final r) = lockFile w
  ∧ git (final (run cleanWorkspace (final r))) = g'.
Proof.
  intros _.
  cbn zeta.
  change (run cleanWorkspace w) with
    (mkRun [GitResetHard; GitClean] (setGit (setGit w (resetHard (git w)))
              (gitClean (resetHard (git w)))) (Returned tt)).
  cbn [trace final outcome].
  change (git (setGit (setGit w (resetHard (git w))) (gitClean (resetHard (git w)))))
    with (gitClean (resetHard (git w))).
  split_and!; try reflexivity.
  - unfold diffCached. rewrite headTree_reset_clean.
    change (index (gitClean (resetHard (git w)))) with (headTree (git w)).
    apply diffTrees_same.
  - apply diffWork_reset_clean.
  - intros p Hi He. rewrite lookup_reset_clean_work.
    destruct (headTree (git w) !! p); [done|].
    destruct (index (git w) !! p); [done|].
    rewrite decide_False; [done|]. intros [H|H]; congruence.
  - intros p Hh Hx Hk. rewrite lookup_reset_clean_work, Hh, Hx.
    by rewrite decide_True.
  - cbn. apply reset_clean_idem.
Qed.

End Reset.

(** * Sessions *)

Section Session.

#[local] Arguments acquireLock : simpl never.
#[local] Arguments dumpEnv : simpl never.
#[local] Arguments restoreEnv : simpl never.
#[local] Arguments dumped : simpl never.
#[local] Arguments resetHard : simpl never.
#[local] Arguments gitClean : simpl never.

(** The [try] block of [enterEnv] on a free tree, up to the restore. *)
Lemma enterAttempt_swap name w :
  lsOthers (git w) = untrackedPaths (git w) ->
  occupant w = None ->
  ∃ wR,
    git wR = gitClean (resetHard (git w))
    ∧ slots wR = <[DEFAULT_HOST_ENV := dumped (git w) (now w) (slotOf w DEFAULT_HOST_ENV)]>
                   (slots w)
    ∧ stateFile wR = stateFile w ∧ lockFile wR = lockFile w ∧ now wR = now w
    ∧ config wR = config w ∧ children wR = children w
    ∧ let a := run (enterAttempt name) w in
      let rR := run (restoreEnv name false) wR in
      outcome a = match outcome rR with
                  | Returned _ => Returned (Return true)
                  | Thrown e => Thrown e
                  | Diverged => Diverged
                  end
      ∧ git (final a) = git (final rR)
      ∧ slots (final a) = slots (final rR)
      ∧ lockFile (final a) = lockFile (final rR)
      ∧ now (final a) = now (final rR)
      ∧ children (final a) = children (final rR)
      ∧ stateFile (final a) = match outcome rR with
                              | Returned _ =>
                                  Some (Parsed (mkState name DEFAULT_HOST_ENV (now (final rR))))
                              | _ => stateFile (final rR)
                              end.
Proof.
  intros Hls Hocc. cbn zeta.
  remember (run (enterAttempt name) w) as a eqn:Ha.
  unfold enterAttempt in Ha.
  assert (Hrs : run readState w = mkRun [ReadState] w (Returned None)).
  { rewrite run_readState. unfold occupant in Hocc.
    by destruct (stateFile w) as [[|]|]. }
  rewrite run_mbind, Hrs in Ha. unfold andThen in Ha. cbn [trace final outcome] in Ha.
  cbn in Ha. rewrite run_mbind in Ha.
  match type of Ha with context [run (dumpEnv ?n) ?w0] =>
    destruct (dumpEnv_run n w0 Hls) as (trD & HD & _ & _); rewrite HD in Ha; clear HD end.
  unfold andThen in Ha. cbn in Ha.
  rewrite slotOf_mkdir, insert_insert_eq, run_mbind in Ha.
  match type of Ha with context [run (restoreEnv name false) ?w0] => exists w0 end.
  split_and!; try reflexivity.
  all: subst a; unfold andThen;
    match goal with |- context [run (restoreEnv ?n false) ?w0] =>
      destruct (run (restoreEnv n false) w0) as [trR wF [[]|e|]] end;
    reflexivity.
Qed.

#[local] Arguments enterEnv_loop : simpl never.
#[local] Arguments enterRound : simpl never.
#[local] Arguments enterAttempt : simpl never.

Lemma enterEnv_free_as_attempt fuel ctx name w :
  lsOthers (git w) = untrackedPaths (git w) ->
  occupant w = None -> lockFile w = None -> fuel ≠ 0%nat ->
  is_Some (slots w !! name) ->
  ∃ w2,
    git w2 = git w ∧ slots w2 = slots w ∧ stateFile w2 = stateFile w ∧ now w2 = now w
    ∧ children w2 = children w
    ∧ let r := run (enterEnv fuel ctx name) w in
      let a := run (enterAttempt name) w2 in
      outcome r = match outcome a with
                  | Returned _ => Returned true
                  | Thrown e => Thrown e
                  | Diverged => Diverged
                  end
      ∧ git (final r) = git (final a)
      ∧ slots (final r) = slots (final a)
      ∧ stateFile (final r) = stateFile (final a)
      ∧ now (final r) = now (final a)
      ∧ children (final r) = children (final a)
      ∧ (outcome a ≠ Diverged -> lockFile (final r) = None).
Proof.
  intros Hls Hocc Hl Hf [sl Hsl]. destruct fuel as [|fuel]; [done|]. cbn zeta.
  remember (run (enterEnv (S fuel) ctx name) w) as r eqn:Hr.
  unfold enterEnv, ensureCcenvDirs, fileExists, logInternal in Hr.
  assert (Hw : ∃ w1, git w1 = git w ∧ slots w1 = slots w ∧ stateFile w1 = stateFile w
             ∧ now w1 = now w ∧ children w1 = children w ∧ lockFile w1 = None
             ∧ outcome r = outcome (run (enterEnv_loop (S fuel) (S fuel) ctx name (now w)) w1)
             ∧ final r = final (run (enterEnv_loop (S fuel) (S fuel) ctx name (now w)) w1)).
  { cbn in Hr. destruct (config w); cbn in Hr; rewrite Hsl in Hr; cbn in Hr.
    all: match type of Hr with context [run (enterEnv_loop _ _ _ _ _) ?w1] =>
           exists w1 end; rewrite Hr; cbn [outcome final]; split_and!; try reflexivity;
           exact Hl. }
  clear Hr. destruct Hw as (w1 & Hg & Hs & Hst & Hn & Hch & Hl1 & -> & ->).
  assert (Hocc1 : occupant w1 = None) by (unfold occupant; by rewrite Hst).
  rewrite enterEnv_loop_S.
  cbn [run perform fst snd trace final outcome].
  rewrite <- Hn, Z.sub_diag.
  change (0 >? ENTER_TIMEOUT_MS)%Z with false. cbn iota.
  rewrite run_bind, acquireLock_free by done.
  unfold andThen. cbn [trace final outcome].
  rewrite run_bind, enterRound_run.
  match goal with |- context [run (enterAttempt name) ?w2] =>
    exists w2;
    assert (Hocc2 : occupant w2 = None) by done;
    assert (Hls2 : lsOthers (git w2) = untrackedPaths (git w2))
      by (change (git w2) with (git w1); by rewrite Hg);
    destruct (enterAttempt_free name w2 Hls2 Hocc2) as (_ & _ & Hret & _);
    destruct (run (enterAttempt name) w2) as [tra wa [x|e|]]
  end; cbn [trace final outcome] in *.
  - destruct (Hret x eq_refl) as [-> _].
    unfold orElse, andFinally, andThen; cbn [trace final outcome].
    rewrite run_releaseLock. cbn. split_and!; done.
  - unfold orElse, andFinally, andThen; cbn [trace final outcome].
    rewrite run_releaseLock. cbn. split_and!; done.
  - unfold orElse, andFinally, andThen; cbn [trace final outcome]. cbn. split_and!; done.
Qed.

Lemma restoreEnv_frame name clean w :
  slots (final (run (restoreEnv name clean) w)) = slots w
  ∧ stateFile (final (run (restoreEnv name clean) w)) = stateFile w
  ∧ now (final (run (restoreEnv name clean) w)) = now w
  ∧ lockFile (final (run (restoreEnv name clean) w)) = lockFile w
  ∧ children (final (run (restoreEnv name clean) w)) = children w.
Proof.
  assert (Ho : only (fun o => touchesLock o = false ∧ stateOp o = false
                              ∧ writesSlots o = false ∧ isSleep o = false
                              ∧ isSpawn o = false)
                    (restoreEnv name clean)).
  { apply only_restoreEnv; [|done].
    intros o H. unfold applyOp in H.
    repeat (apply andb_true_iff in H as [H ?]).
    split_and!; try (by apply negb_true_iff). by destruct o. }
  set (P := fun o => touchesLock o = false ∧ stateOp o = false
                     ∧ writesSlots o = false ∧ isSleep o = false
                     ∧ isSpawn o = false) in *.
  split_and!.
  - apply (only_preserves slots P); [|exact Ho].
    intros o w' (_ & _ & H & _). by apply slots_frame.
  - apply (only_preserves stateFile P); [|exact Ho].
    intros o w' (_ & H & _). by apply state_frame.
  - apply (only_preserves now P); [|exact Ho].
    intros o w' (_ & _ & _ & H & _). by apply now_frame.
  - apply (only_preserves lockFile P); [|exact Ho].
    intros o w' (H & _). by apply lock_frame.
  - apply (only_preserves children P); [|exact Ho].
    intros o w' (_ & _ & _ & _ & H). by apply children_frame.
Qed.


(** Restoring the bundle [createEnv] wrote, at the position it was
    written: nothing is checked out, extracted or applied. *)
Lemma restoreEnv_empty name w g t :
  slots w !! name = Some (emptyBundle g t) ->
  head (git w) = head g -> plainHead g ->
  outcome (run (restoreEnv name false) w) = Returned tt
  ∧ git (final (run (restoreEnv name false) w)) = git w.
Proof.
  intros Hs Hh Hp. unfold restoreEnv, restorePosition, restoreFiles, gitCheckout,
    fileExists, fileNotEmpty, logInternalError, emptyBundle in *.
  unfold plainHead in Hp. unfold revParseHead, abbrevRef in Hs.
  assert (Hbe : bool_decide ((∅ : Patch) = ∅) = true) by (by apply bool_decide_eq_true_2).
  destruct (head g) as [b c|c] eqn:Hg.
  - destruct Hp as [Hb1 Hb2].
    apply String.eqb_neq in Hb1, Hb2.
    assert (Hck : checkout (Branch b) (git w) = Some (git w)).
    { unfold checkout, resolveRev, branchTip. rewrite Hh.
      rewrite decide_True by done. by rewrite decide_True. }
    repeat (progress (unfold slotOf, exists_, notEmpty, truthy; cbn;
                      rewrite ?Hs, ?Hb1, ?Hb2, ?Hck, ?Hbe; cbn)).
    done.
  - destruct (String.eqb c "") eqn:Hc.
    + repeat (progress (unfold slotOf, exists_, notEmpty, truthy; cbn;
                        rewrite ?Hs, ?Hc, ?Hbe; cbn)).
      done.
    + destruct (commits (git w) !! c) as [tc|] eqn:Hcm.
      * assert (Hck : checkout (CommitId c) (git w) = Some (git w)).
        { unfold checkout, resolveRev. rewrite Hcm, Hh. by rewrite decide_True. }
        repeat (progress (unfold slotOf, exists_, notEmpty, truthy; cbn;
                          rewrite ?Hs, ?Hc, ?Hck, ?Hbe; cbn)).
        done.
      * assert (Hck : checkout (CommitId c) (git w) = None).
        { unfold checkout, resolveRev. by rewrite Hcm. }
        repeat (progress (unfold slotOf, exists_, notEmpty, truthy; cbn;
                          rewrite ?Hs, ?Hc, ?Hck, ?Hbe; cbn)).
        done.
Qed.

Lemma createEnv_run name empty w :
  slots w !! name = None ->
  outcome (run (createEnv name empty) w) = Returned tt
  ∧ git (final (run (createEnv name empty) w)) = git w
  ∧ slots (final (run (createEnv name empty) w))
    = <[name := emptyBundle (git w) (now w)]> (slots w)
  ∧ stateFile (final (run (createEnv name empty) w)) = stateFile w
  ∧ lockFile (final (run (createEnv name empty) w)) = lockFile w
  ∧ now (final (run (createEnv name empty) w)) = now w.
Proof.
  intros E. destruct empty; cbn.
  all: destruct (config w); cbn; rewrite E; cbn.
  all: repeat (progress (unfold slotOf, updSlot, emptyBundle; cbn;
                         rewrite ?lookup_insert_eq, ?insert_insert_eq, ?E)).
  all: split_and!; done.
Qed.

(** [enterEnv] on a free tree into a bundle [createEnv] wrote at the
    position HEAD is at. *)
Lemma enterEnv_fresh fuel ctx name w g t :
  lsOthers (git w) = untrackedPaths (git w) ->
  slots w !! name = Some (emptyBundle g t) ->
  head (git w) = head g -> plainHead g -> name ≠ DEFAULT_HOST_ENV ->
  occupant w = None -> lockFile w = None -> fuel ≠ 0%nat ->
  let r := run (enterEnv fuel ctx name) w in
  outcome r = Returned true
  ∧ git (final r) = gitClean (resetHard (git w))
  ∧ stateFile (final r) = Some (Parsed (mkState name DEFAULT_HOST_ENV (now w)))
  ∧ lockFile (final r) = None
  ∧ now (final r) = now w
  ∧ children (final r) = children w
  ∧ slots (final r)
    = <[DEFAULT_HOST_ENV := dumped (git w) (now w) (slotOf w DEFAULT_HOST_ENV)]> (slots w).
Proof.
  intros Hls Hsl Hh Hp Hne Hocc Hl Hf. cbn zeta.
  destruct (enterEnv_free_as_attempt fuel ctx name w Hls Hocc Hl Hf)
    as (w2 & Hg & Hs & Hst & Hn & Hch & Ho & Hfg & Hfs & Hfst & Hfn & Hfch & Hfl); [by eexists|].
  cbn zeta in Ho, Hfg, Hfs, Hfst, Hfn, Hfch, Hfl.
  assert (Hocc2 : occupant w2 = None) by (unfold occupant; by rewrite Hst).
  assert (Hls2 : lsOthers (git w2) = untrackedPaths (git w2)) by (by rewrite Hg).
  destruct (enterAttempt_swap name w2 Hls2 Hocc2)
    as (wR & HRg & HRs & HRst & HRl & HRn & HRc & HRch & Ha & Hag & Has & Hal & Han & Hach & Hast).
  cbn zeta in Ha, Hag, Has, Hal, Han, Hach, Hast.
  destruct (restoreEnv_frame name false wR) as (Hrs & Hrst & Hrn & Hrl & Hrch).
  destruct (restoreEnv_empty name wR g t) as (Hro & Hrg); try done.
  { rewrite HRs, lookup_insert_ne by done. by rewrite Hs. }
  { rewrite HRg, Hg. exact Hh. }
  rewrite Hro in Ha, Hast.
  rewrite Ho, Hfg, Hfs, Hfst, Hfn, Hfch, Ha, Hag, Has, Hast, Han, Hach, Hrg, Hrs, HRg, HRs,
    Hrn, HRn, Hrch, HRch, Hch.
  unfold slotOf. rewrite Hg, Hs, Hn.
  split_and!; try done.
  apply Hfl. by rewrite Ha.
Qed.



End Session.

(** * The session wrapper, end to end *)

Section RunSession.

#[local] Arguments enterEnv : simpl never.
#[local] Arguments exitEnv : simpl never.
#[local] Arguments attempt : simpl never.
#[local] Arguments truthy : simpl never.
#[local] Arguments perform : simpl never.

(** The [run] case when [enterEnv] reports a swap and the forced
    [exitEnv] of the cleanup returns. *)
Lemma mainRun_swapped fuel ctx env c cs w wx status :
  env ≠ "" ->
  outcome (run (enterEnv fuel ctx env) w) = Returned true ->
  perform (Spawn env (c :: cs)) (final (run (enterEnv fuel ctx env) w)) = (wx, status) ->
  outcome (run (exitEnv fuel ctx true) wx) = Returned tt ->
  outcome (run (mainRun fuel ctx ("--env" :: env :: "--" :: c :: cs)) w) = Returned status
  ∧ final (run (mainRun fuel ctx ("--env" :: env :: "--" :: c :: cs)) w)
    = final (run (exitEnv fuel ctx true) wx).
Proof.
  intros Henv He Hp Hx.
  assert (Ht : truthy env = true).
  { unfold truthy. apply negb_true_iff. by apply String.eqb_neq. }
  rewrite (mainRun_wrapped fuel ctx env c cs w Ht). unfold wrapped. cbn zeta.
  rewrite He, Hp. cbn [fst snd]. rewrite Hx. done.
Qed.


End RunSession.

(** * Command lines the wrapper rejects *)

Section RunEdges.

Lemma not_env_flag {A : Type} (c : string) (a b : A) :
  c ≠ "--env" ->
  match c with "--env" => a | _ => b end = b.
Proof.
  intros H.
  repeat (destruct c as [|[[] [] [] [] [] [] [] []] c]; try reflexivity).
  by destruct H.
Qed.

Lemma not_separator {A : Type} (c : string) (a b : A) :
  c ≠ "--" ->
  match c with "--" => a | _ => b end = b.
Proof.
  intros H.
  repeat (destruct c as [|[[] [] [] [] [] [] [] []] c]; try reflexivity).
  by destruct H.
Qed.

(** X17. The [run] case rejects a command line without a command, and one
    without an environment name when no environment is activated, before
    anything is touched: the error is printed, the status is 1, and no
    other operation is performed. *)
Theorem run_rejects_before_touching fuel ctx n c cs w :
  let fails e rest :=
    run (mainRun fuel ctx rest) w = mkRun [ConsoleError e] w (Returned 1%Z) in
  fails MissingCommand []
  ∧ fails MissingCommand ["--"]
  ∧ fails MissingCommand ["--env"]
  ∧ fails MissingCommand ["--env"; n]
  ∧ fails MissingCommand ["--env"; n; "--"]
  ∧ (CCENV_ACTIVE ctx = None -> c ≠ "--env" -> c ≠ "--" ->
     fails EnvNameRequired (c :: cs))
  ∧ (CCENV_ACTIVE ctx = None -> c ≠ "--" ->
     fails EnvNameRequired ("--env" :: "" :: c :: cs)).
Proof.
  cbn zeta. split_and!; try reflexivity.
  - intros Ha Hc1 Hc2. unfold mainRun, runCase.
    cbn [lookup drop]. 
    change (match c :: cs with "--env" :: _ => (c :: cs) !! 1%nat | _ => None end)
      with (match c with "--env" => (c :: cs) !! 1%nat | _ => None end).
    rewrite not_env_flag by done.
    change (match c :: cs with "--env" :: _ => 2%nat | _ => 0%nat end)
      with (match c with "--env" => 2%nat | _ => 0%nat end).
    rewrite not_env_flag by done. cbn [drop].
    change (match c :: cs with "--" :: args => args | _ => c :: cs end)
      with (match c with "--" => cs | _ => c :: cs end).
    rewrite not_separator by done.
    cbn. rewrite Ha. reflexivity.
  - intros Ha Hc2. unfold mainRun, runCase. cbn.
    change (match c with "--" => cs | _ => c :: cs end)
      with (match c with "--" => cs | _ => c :: cs end).
    rewrite not_separator by done.
    cbn. rewrite Ha. reflexivity.
Qed.

End RunEdges.

(** * More concrete runs *)

Section ExtraExamples.

Lemma clashFree_git0 : clashFree Demo.git0.
Proof.
  split; [reflexivity|]. intros p [v Hv] Hi.
  assert (Ht : headTree Demo.git0 = Demo.tree0) by (vm_compute; reflexivity).
  rewrite Ht in Hv. unfold Demo.tree0 in Hv.
  apply lookup_singleton_Some in Hv as [<- _]. vm_compute in Hi. discriminate.
Qed.

Lemma plainHead_git0 : plainHead Demo.git0.
Proof. split; discriminate. Qed.

Lemma held_lock_is_never_broken_witness :
  lockFile Demo.held = Some (Some (mkLock 7 "elsewhere" 0))
  ∧ lockFile (final (run (acquireLock 400 (Demo.me 9 None) LOCK_TIMEOUT_MS) Demo.held))
    = Some (Some (mkLock 7 "elsewhere" 0)).
Proof.
  split; [reflexivity|].
  destruct (held_lock_is_never_broken 400 (Demo.me 9 None) LOCK_TIMEOUT_MS Demo.held
              (Some (mkLock 7 "elsewhere" 0))) as (_ & H & _); [reflexivity|exact H].
Defined.

Lemma lock_is_never_leaked_witness :
  lockFile Demo.occupiedByX = None
  ∧ lockFile (final (run (exitEnv 5 (Demo.me 9 None) true) Demo.occupiedByX)) = None.
Proof.
  assert (H : lockFile Demo.occupiedByX = None) by (vm_compute; reflexivity).
  split; [exact H|].
  destruct (lock_is_never_leaked 5 (Demo.me 9 None) "x" true Demo.occupiedByX H) as [Hx _].
  apply Hx. discriminate.
Defined.

Lemma store_commands_stay_in_store_witness :
  plainName "x" = true
  ∧ StoreOnly Demo.fresh (run (createEnv "x" false) Demo.fresh).
Proof.
  split; [reflexivity|].
  destruct (store_commands_stay_in_store "x" false Demo.fresh) as (H & _);
    [reflexivity|exact H].
Defined.

Lemma apply_is_unguarded_witness :
  (plainName "x" = true ∧ ordinary (git Sample.withX) = true ∧ tidy Sample.withX = true)
  ∧ lockFile (final (run (applyEnv "x") Sample.withX)) = lockFile Sample.withX.
Proof.
  split; [split_and!; vm_compute; reflexivity|].
  destruct (apply_is_unguarded "x" Sample.withX) as (_ & _ & _ & H & _);
    [reflexivity | vm_compute; reflexivity | vm_compute; reflexivity | exact H].
Defined.

Lemma enter_missing_env_fails_fast_witness :
  (plainName "x" = true ∧ slots Demo.held !! "x" = None)
  ∧ outcome (run (enterEnv 5 (Demo.me 9 None) "x") Demo.held)
    = Thrown (EnvironmentNotFound "x").
Proof.
  split; [split; reflexivity|].
  destruct (enter_missing_env_fails_fast 5 (Demo.me 9 None) "x" Demo.held) as (H & _);
    [reflexivity|reflexivity|exact H].
Defined.

Lemma enter_busy_times_out_witness :
  stateFile Demo.occupiedByX = Some (Parsed (mkState "x" "default" 0))
  ∧ outcome (run (enterEnv 302 (Demo.me 9 None) "a") Demo.occupiedByX) = Thrown EnterTimeout.
Proof.
  assert (H : stateFile Demo.occupiedByX = Some (Parsed (mkState "x" "default" 0)))
    by (vm_compute; reflexivity).
  split; [exact H|].
  destruct (enter_busy_times_out 302 (Demo.me 9 None) "a" Demo.occupiedByX
              (mkState "x" "default" 0)) as (Ho & _);
    [exact H | discriminate | vm_compute; eauto | vm_compute; reflexivity | lia | exact Ho].
Defined.


Lemma exit_without_host_slot_witness :
  (ordinary (git Demo.hostDeleted) = true ∧ tidy Demo.hostDeleted = true
   ∧ slots Demo.hostDeleted !! "default" = None)
  ∧ outcome (run (exitEnv 5 (Demo.me 9 None) true) Demo.hostDeleted)
    = Thrown (HostSnapshotNotFound "default").
Proof.
  split; [split_and!; vm_compute; reflexivity|].
  destruct (exit_without_host_slot 5 (Demo.me 9 None) true Demo.hostDeleted
              (mkState "x" "default" 0)) as (Ho & _);
    [vm_compute; reflexivity | vm_compute; reflexivity | reflexivity | reflexivity
    | vm_compute; reflexivity | by left | vm_compute; reflexivity | discriminate
    | discriminate | vm_compute; reflexivity | exact Ho].
Defined.




Lemma reset_leaves_head_witness :
  ordinary (git Demo.mixed) = true
  ∧ diffWork (git (final (run cleanWorkspace Demo.mixed))) = ∅.
Proof.
  split; [vm_compute; reflexivity|].
  destruct (reset_leaves_head Demo.mixed) as (_ & _ & _ & _ & _ & _ & H & _);
    [vm_compute; reflexivity | exact H].
Defined.





Lemma run_rejects_before_touching_witness :
  CCENV_ACTIVE (Demo.me 9 None) = None
  ∧ run (mainRun 5 (Demo.me 9 None) ["make"; "test"]) Demo.fresh
    = mkRun [ConsoleError EnvNameRequired] Demo.fresh (Returned 1%Z).
Proof.
  split; [reflexivity|].
  destruct (run_rejects_before_touching 5 (Demo.me 9 None) "x" "make" ["test"] Demo.fresh)
    as (_ & _ & _ & _ & _ & H & _).
  apply H; [reflexivity|discriminate|discriminate].
Defined.

End ExtraExamples.

